(** * The Signal channel of nanoclaw: text styles, mentions, RPC transport,
      outbound queue and envelope decoder.

    A shallow embedding of [signal-formatting.ts] (the text style codec) and
    of [src/channels/signal.ts] (both the current and the earlier revision of
    [resolveMentions]), with the properties of the design document proved or
    refuted over it. *)

From Stdlib Require Import ZArith NArith Ascii String DecimalString DecimalZ.
From stdpp Require Import gmap list.

Local Open Scope nat_scope.

(** ** JavaScript strings

    A JavaScript string is a sequence of UTF-16 code units; [.length],
    indexing, [slice] and regular expressions without the [u] flag all count
    code units. *)

Abbreviation code_unit := N (only parsing).
Abbreviation jsstring := (list N) (only parsing).

(** An ASCII literal as a JavaScript string. *)
Definition js (s : string) : jsstring :=
  map N_of_ascii (list_ascii_of_string s).

(** JavaScript truthiness of a string: the empty string is falsy. *)
Definition truthy (s : jsstring) : bool :=
  match s with [] => false | _ => true end.

(** Truthiness of [string | undefined]. *)
Definition truthy_opt (o : option jsstring) : bool :=
  match o with Some s => truthy s | None => false end.

(** [a || b] on [string | undefined] operands. *)
Definition or_else (a b : option jsstring) : option jsstring :=
  if truthy_opt a then a else b.

(** [(a as string) || 'default']. *)
Definition or_default (a : option jsstring) (d : jsstring) : jsstring :=
  match a with
  | Some s => if truthy s then s else d
  | None => d
  end.

(** JavaScript's rendering of an integer in a template literal. *)
Definition decimal (z : Z) : jsstring :=
  js (NilZero.string_of_int (Z.to_int z)).

(** [s.startsWith(p)] *)
Fixpoint startsWith (s p : jsstring) : bool :=
  match p, s with
  | [], _ => true
  | c :: p', d :: s' => N.eqb c d && startsWith s' p'
  | _ :: _, [] => false
  end.

(** Relative index of [slice]: negative counts from the end, then clamp. *)
Definition rel_index (len k : Z) : Z :=
  if (k <? 0)%Z then Z.max (len + k) 0 else Z.min k len.

(** [s.slice(a, b)] *)
Definition slice (s : jsstring) (a b : Z) : jsstring :=
  let len := Z.of_nat (length s) in
  let from := rel_index len a in
  let to := rel_index len b in
  take (Z.to_nat (to - from)) (drop (Z.to_nat from) s).

(** [s.slice(a)] *)
Definition slice_from (s : jsstring) (a : Z) : jsstring :=
  slice s a (Z.of_nat (length s)).

(** White space and line terminators, as [String.prototype.trim] strips them. *)
Definition is_space (d : code_unit) : bool :=
  ((9 <=? d) && (d <=? 13) || (d =? 32) || (d =? 0xA0) || (d =? 0x1680)
   || (0x2000 <=? d) && (d <=? 0x200A) || (d =? 0x2028) || (d =? 0x2029)
   || (d =? 0x202F) || (d =? 0x205F) || (d =? 0x3000) || (d =? 0xFEFF))%N.

Fixpoint trimStart (s : jsstring) : jsstring :=
  match s with
  | d :: s' => if is_space d then trimStart s' else s
  | [] => []
  end.

Definition trim (s : jsstring) : jsstring :=
  rev (trimStart (rev (trimStart s))).

(** The line feed. *)
Definition newline : jsstring := [10%N].

(** [parts.join(sep)] *)
Fixpoint join (sep : jsstring) (parts : list jsstring) : jsstring :=
  match parts with
  | [] => []
  | [p] => p
  | p :: rest => p ++ sep ++ join sep rest
  end.

Module Formatting.

(** ** Regular expressions of the codec

    The six patterns of [parseSignalStyles] are flat sequences of literals,
    one negated-class repetition and negative look-arounds.  [matchFrom] is
    the backtracking matcher of that fragment: it returns the end index of
    the first match (in the engine's priority order) that starts at [i]. *)

Inductive node :=
  | Lit (c : code_unit)                     (* a literal code unit *)
  | PlusNot (greedy : bool) (c : code_unit) (* [^c]+ (greedy) or [^c]+? (lazy) *)
  | NotBehind (P : code_unit → bool)        (* (?<!P) *)
  | NotAhead (P : code_unit → bool).        (* (?!P) *)

Definition regex := list node.

Fixpoint first_some {A B} (f : A → option B) (l : list A) : option B :=
  match l with
  | [] => None
  | x :: l' => match f x with Some y => Some y | None => first_some f l' end
  end.

(** Length of the maximal run of code units other than [c] from index [i]. *)
Fixpoint run_from (c : code_unit) (s : jsstring) : nat :=
  match s with
  | [] => 0
  | d :: s' => if N.eqb d c then 0 else S (run_from c s')
  end.

Definition run (c : code_unit) (s : jsstring) (i : nat) : nat :=
  run_from c (drop i s).

Definition behind (P : code_unit → bool) (s : jsstring) (i : nat) : bool :=
  match i with
  | 0 => false
  | S j => match s !! j with Some d => P d | None => false end
  end.

Definition ahead (P : code_unit → bool) (s : jsstring) (i : nat) : bool :=
  match s !! i with Some d => P d | None => false end.

Fixpoint matchFrom (r : regex) (s : jsstring) (i : nat) : option nat :=
  match r with
  | [] => Some i
  | Lit c :: r' =>
      match s !! i with
      | Some d => if N.eqb d c then matchFrom r' s (S i) else None
      | None => None
      end
  | PlusNot greedy c :: r' =>
      let n := run c s i in
      first_some (λ k, matchFrom r' s (i + k))
                 (if greedy then rev (seq 1 n) else seq 1 n)
  | NotBehind P :: r' => if behind P s i then None else matchFrom r' s i
  | NotAhead P :: r' => if ahead P s i then None else matchFrom r' s i
  end.

(** [re.exec(input)] with the [g] flag and [lastIndex = last]: the leftmost
    match starting at or after [last], as (index, end index); the end index
    becomes the next [lastIndex]. *)
Definition exec (r : regex) (s : jsstring) (last : nat) : option (nat * nat) :=
  first_some (λ i, (λ e, (i, e)) <$> matchFrom r s i)
             (seq last (S (length s) - last)).

(** The [while ((m = re.exec(input)) !== null)] loop: all successive matches.
    Every pattern of the codec consumes at least one code unit, so
    [S (length s)] iterations are enough (see [execAll_fuel]). *)
Fixpoint execLoop (fuel : nat) (r : regex) (s : jsstring) (last : nat)
  : list (nat * nat) :=
  match fuel with
  | 0 => []
  | S fuel' =>
      match exec r s last with
      | None => []
      | Some (i, e) => (i, e) :: execLoop fuel' r s e
      end
  end.

Definition execAll (r : regex) (s : jsstring) : list (nat * nat) :=
  execLoop (S (length s)) r s 0.

(** ** Data types of the codec *)

Inductive Style := BOLD | ITALIC | SPOILER | STRIKETHROUGH | MONOSPACE.

Global Instance Style_eq_dec : EqDecision Style.
Proof. solve_decision. Defined.

Record TextStyle := mkTextStyle {
  style : Style;
  start : Z;
  length_ : Z;
}.

Record StyledText := mkStyledText {
  text : jsstring;
  textStyle : list TextStyle;
}.

Record MarkerMatch := mkMarkerMatch {
  openStart : nat;
  openEnd : nat;
  closeStart : nat;
  closeEnd : nat;
  mstyle : Style;
}.

Record Pattern := mkPattern {
  re : regex;
  pstyle : Style;
  markerLen : nat;
}.

Definition ch (a : ascii) : code_unit := N_of_ascii a.
Arguments ch a%_char.

Definition is_ch (a : ascii) (d : code_unit) : bool := N.eqb d (ch a).
Arguments is_ch a%_char d.

(** [\w] without the [u] and [i] flags: [A-Za-z0-9_]. *)
Definition word (d : code_unit) : bool :=
  ((65 <=? d) && (d <=? 90) || (97 <=? d) && (d <=? 122)
   || (48 <=? d) && (d <=? 57) || (d =? 95))%N.

Definition patterns : list Pattern :=
  [ (* /`([^`]+)`/g *)
    mkPattern [Lit (ch "`"); PlusNot true (ch "`"); Lit (ch "`")] MONOSPACE 1;
    (* /\|\|([^|]+)\|\|/g *)
    mkPattern [Lit (ch "|"); Lit (ch "|"); PlusNot true (ch "|");
               Lit (ch "|"); Lit (ch "|")] SPOILER 2;
    (* /~~([^~]+)~~/g *)
    mkPattern [Lit (ch "~"); Lit (ch "~"); PlusNot true (ch "~");
               Lit (ch "~"); Lit (ch "~")] STRIKETHROUGH 2;
    (* /(?<!~)~(?!~)([^~]+?)(?<!~)~(?!~)/g *)
    mkPattern [NotBehind (is_ch "~"); Lit (ch "~"); NotAhead (is_ch "~");
               PlusNot false (ch "~");
               NotBehind (is_ch "~"); Lit (ch "~"); NotAhead (is_ch "~")]
              STRIKETHROUGH 1;
    (* /(?<!D)D(?!D)([^D]+?)(?<!D)D(?!D)/g, D the (escaped) asterisk *)
    mkPattern [NotBehind (is_ch "*"); Lit (ch "*"); NotAhead (is_ch "*");
               PlusNot false (ch "*");
               NotBehind (is_ch "*"); Lit (ch "*"); NotAhead (is_ch "*")]
              BOLD 1;
    (* /(?<!\w)_([^_]+?)_(?!\w)/g *)
    mkPattern [NotBehind word; Lit (ch "_"); PlusNot false (ch "_");
               Lit (ch "_"); NotAhead word] ITALIC 1 ].

(** ** The matching loop *)

Record Claimed := mkClaimed {
  matches : list MarkerMatch;
  markers : gset nat;      (* indices to strip from the output *)
  protected_ : gset nat;   (* content inside code spans *)
}.

(** [for (let i = a; i < b; i++) set.add(i)] *)
Definition add_range (a b : nat) (s : gset nat) : gset nat :=
  foldl (λ acc i, {[i]} ∪ acc) s (seq a (b - a)).

(** The overlap check of a candidate against the claimed indices. *)
Definition overlaps (a b : nat) (st : Claimed) : bool :=
  existsb (λ i, bool_decide (i ∈ markers st) || bool_decide (i ∈ protected_ st))
          (seq a (b - a)).

(** One iteration of the [while] body for the match [(index, end)]. *)
Definition consider (p : Pattern) (st : Claimed) (m : nat * nat) : Claimed :=
  let openStart := fst m in
  let len0 := snd m - fst m in              (* m[0].length *)
  let openEnd := openStart + markerLen p in
  let closeStart := openStart + len0 - markerLen p in
  let closeEnd := openStart + len0 in
  if overlaps openStart closeEnd st then st
  else
    let markers1 := add_range openStart openEnd (markers st) in
    let markers2 := add_range closeStart closeEnd markers1 in
    let protected1 :=
      if decide (pstyle p = MONOSPACE)
      then add_range openEnd closeStart (protected_ st)
      else protected_ st in
    mkClaimed
      (matches st ++ [mkMarkerMatch openStart openEnd closeStart closeEnd (pstyle p)])
      markers2 protected1.

Definition runPattern (input : jsstring) (st : Claimed) (p : Pattern) : Claimed :=
  foldl (consider p) st (execAll (re p) input).

Definition collect (input : jsstring) : Claimed :=
  foldl (runPattern input) (mkClaimed [] ∅ ∅) patterns.

(** ** Stripping and remapping *)

(** The loop that builds [indexMap] and [out]; [-1] marks a stripped index. *)
Definition strip_step (mk : gset nat) (acc : list Z * jsstring)
    (ic : nat * code_unit) : list Z * jsstring :=
  if decide (fst ic ∈ mk)
  then (fst acc ++ [(-1)%Z], snd acc)
  else (fst acc ++ [Z.of_nat (length (snd acc))], snd acc ++ [snd ic]).

Definition strip (input : jsstring) (mk : gset nat) : list Z * jsstring :=
  foldl (strip_step mk) ([], []) (zip (seq 0 (length input)) input).

(** The backwards [while] that looks for the last content index:
    [k] is [lastContentIdx + 1]; [None] when the loop leaves
    [lastContentIdx < openEnd]. *)
Fixpoint lastContent (indexMap : list Z) (openEnd k : nat) : option nat :=
  match k with
  | 0 => None
  | S j =>
      if j <? openEnd then None
      else match indexMap !! j with
           | Some (-1)%Z => lastContent indexMap openEnd j
           | _ => Some j
           end
  end.

(** The span of one match, or nothing when the loop body [continue]s or the
    length test fails.  An index outside [indexMap] reads [undefined], the
    length is then [NaN] and [NaN > 0] is false. *)
Definition spanOf (indexMap : list Z) (m : MarkerMatch) : option TextStyle :=
  match lastContent indexMap (openEnd m) (closeStart m) with
  | None => None
  | Some lastContentIdx =>
      match indexMap !! openEnd m, indexMap !! lastContentIdx with
      | Some start, Some v =>
          if (start =? -1)%Z then None
          else
            let end_ := (v + 1)%Z in
            let length := (end_ - start)%Z in
            if (0 <? length)%Z then Some (mkTextStyle (mstyle m) start length)
            else None
      | _, _ => None
      end
  end.

(** [textStyle.sort((a, b) => a.start - b.start)]: a stable sort. *)
Fixpoint insert_by_start (x : TextStyle) (l : list TextStyle) : list TextStyle :=
  match l with
  | [] => [x]
  | y :: l' =>
      if (start x <=? start y)%Z then x :: y :: l'
      else y :: insert_by_start x l'
  end.

Definition sort_by_start (l : list TextStyle) : list TextStyle :=
  foldr insert_by_start [] l.

Definition parseSignalStyles (input : jsstring) : StyledText :=
  if negb (truthy input) then mkStyledText input []
  else
    let st := collect input in
    match matches st with
    | [] => mkStyledText input []
    | _ =>
        let '(indexMap, out) := strip input (markers st) in
        let textStyle := omap (spanOf indexMap) (matches st) in
        mkStyledText out (sort_by_start textStyle)
    end.

(** ** Notions the properties are stated with *)

(** Every entry of [indexMap] is [-1] or an index into [out]. *)
Definition indexMap_ok (acc : list Z * jsstring) : Prop :=
  ∀ v, v ∈ fst acc → v = (-1)%Z ∨ (0 ≤ v < Z.of_nat (length (snd acc)))%Z.

(** The first literal a match must start with, look-arounds skipped. *)
Fixpoint head_lit (r : regex) : option code_unit :=
  match r with
  | Lit c :: _ => Some c
  | NotBehind _ :: r' | NotAhead _ :: r' => head_lit r'
  | _ => None
  end.

(** What a match of [r] at [i] needs of the input up to and including the
    first unit of its repetition. *)
Fixpoint needs (r : regex) (s : jsstring) (i : nat) : Prop :=
  match r with
  | Lit c :: r' => s !! i = Some c ∧ needs r' s (S i)
  | NotBehind P :: r' => behind P s i = false ∧ needs r' s i
  | NotAhead P :: r' => ahead P s i = false ∧ needs r' s i
  | PlusNot _ c :: _ => 1 ≤ run c s i
  | [] => True
  end.

(** The number of code units every match of [r] consumes at least. *)
Fixpoint min_width (r : regex) : nat :=
  match r with
  | Lit _ :: r' | PlusNot _ _ :: r' => S (min_width r')
  | NotBehind _ :: r' | NotAhead _ :: r' => min_width r'
  | [] => 0
  end.

(** The delimiter a pattern opens with: its leading literals. Every pattern
    of the codec closes with the same delimiter. *)
Fixpoint opening (r : regex) : jsstring :=
  match r with
  | Lit c :: r' => c :: opening r'
  | NotBehind _ :: r' | NotAhead _ :: r' => opening r'
  | _ => []
  end.

(** The code units the patterns use as delimiters. *)
Definition is_marker (d : code_unit) : bool :=
  is_ch "`" d || is_ch "|" d || is_ch "~" d || is_ch "*" d || is_ch "_" d.

(** A high and a low surrogate: the two code units of a character outside
    the Basic Multilingual Plane. *)
Definition is_surrogate_pair (hi lo : code_unit) : Prop :=
  (0xD800 ≤ hi ≤ 0xDBFF)%N ∧ (0xDC00 ≤ lo ≤ 0xDFFF)%N.

(** U+1F389, a character of two code units. *)
Definition party_popper : jsstring := [0xD83C; 0xDF89]%N.

(** The indices a match spans, delimiters and content. *)
Definition covers (m : MarkerMatch) (i : nat) : Prop :=
  openStart m ≤ i < closeEnd m.

(** The indices no later candidate may touch. *)
Definition claimed (st : Claimed) (i : nat) : Prop :=
  i ∈ markers st ∨ i ∈ protected_ st.

(** All indices of the code spans accepted so far are claimed. *)
Definition code_claimed (st : Claimed) : Prop :=
  ∀ m i, m ∈ matches st → mstyle m = MONOSPACE → covers m i → claimed st i.

(** No accepted match of another style shares an index with a code span. *)
Definition code_disjoint (st : Claimed) : Prop :=
  ∀ m m' i, m ∈ matches st → m' ∈ matches st →
            mstyle m = MONOSPACE → mstyle m' ≠ MONOSPACE →
            covers m i → ¬ covers m' i.

Definition only_code (st : Claimed) : Prop :=
  ∀ m, m ∈ matches st → mstyle m = MONOSPACE.

(** The literals of a pattern that has no repetition, look-arounds skipped. *)
Fixpoint lits (r : regex) : option (list code_unit) :=
  match r with
  | [] => Some []
  | Lit c :: r' => cons c <$> lits r'
  | NotBehind _ :: r' | NotAhead _ :: r' => lits r'
  | PlusNot _ _ :: _ => None
  end.

(** The part of a pattern after its repetition: the closing delimiter. *)
Fixpoint closing (r : regex) : regex :=
  match r with
  | [] => []
  | x :: r' => match lits r with Some _ => r | None => closing r' end
  end.

(** Every stripped index holds a delimiter character. *)
Definition markers_ok (input : jsstring) (st : Claimed) : Prop :=
  ∀ i, i ∈ markers st → ∃ d, input !! i = Some d ∧ is_marker d = true.

End Formatting.


(** * The channel: [src/channels/signal.ts] *)

Module Signal.

Definition MAX_PENDING_RPC : nat := 100.
Definition MAX_OUTGOING_QUEUE : nat := 1000.

(** The object replacement character that signal-cli puts at each mention. *)
Definition SENTINEL : code_unit := 0xFFFC%N.

(** ** Configuration and collaborators

    The constants of [config.js], the functions of [db.js] and [media.js] the
    channel calls, the options handed to the channel, and the built-ins of
    the platform whose tables are not part of the repository. *)

Record Env := mkEnv {
  ASSISTANT_NAME : jsstring;
  SIGNAL_PHONE_NUMBER : jsstring;
  SIGNAL_CLI_DIR : jsstring;
  (* db.js: a display name seen before for this sender id, if any *)
  lookupSenderName : jsstring → option jsstring;
  (* opts.registeredGroups()[jid] is truthy *)
  registeredGroups : jsstring → bool;
  (* fs.readdirSync(dir): None when it throws *)
  readdirSync : jsstring → option (list jsstring);
  (* path.join *)
  pathJoin : jsstring → jsstring → jsstring;
  (* media.js: the transcript; None when it resolves to null or rejects *)
  transcribeAudioFile : jsstring → option jsstring;
  (* the clock when the message is taken up, and when it is forwarded *)
  now : Z;
  now_forwarded : Z;
  (* new Date(ms).toISOString(), on the epoch milliseconds signal-cli reports *)
  toISOString : Z → jsstring;
  (* String.prototype.toLowerCase *)
  toLowerCase : jsstring → jsstring;
}.

(** The outcome of an expression that may throw. *)
Inductive completion (A : Type) : Type :=
  | Returns (a : A)
  | Throws.
Arguments Returns {A} a.
Arguments Throws {A}.

(** The time values of a valid [Date], in milliseconds either side of the
    epoch. *)
Definition MAX_TIME : Z := 8640000000000000.

Definition validTime (ms : Z) : bool := (Z.abs ms <=? MAX_TIME)%Z.

(** [new Date(ms).toISOString()]: a [RangeError] on an invalid date. *)
Definition isoString (env : Env) (ms : Z) : completion jsstring :=
  if validTime ms then Returns (toISOString env ms) else Throws.

(** ** Mentions *)

Record Mention := mkMention {
  m_start : Z;
  m_length : option Z;
  m_number : option jsstring;
  m_name : option jsstring;
}.

(** [[...mentions].sort((a, b) => b.start - a.start)]: stable, descending. *)
Fixpoint insert_desc (x : Mention) (l : list Mention) : list Mention :=
  match l with
  | [] => [x]
  | y :: l' =>
      if (m_start y <=? m_start x)%Z then x :: y :: l'
      else y :: insert_desc x l'
  end.

Definition sort_desc (l : list Mention) : list Mention :=
  foldr insert_desc [] l.

(** The body of the [for (const mention of sorted)] loop. *)
Definition replaceMention (env : Env) (result : jsstring) (mention : Mention)
  : jsstring :=
  let start := m_start mention in
  let length :=
    match m_length mention with
    | Some l => if (l =? 0)%Z then 1%Z else l
    | None => 1%Z
    end in
  let number := m_number mention in
  let name :=
    if decide (number = Some (SIGNAL_PHONE_NUMBER env))
    then ASSISTANT_NAME env
    else or_default (m_name mention) (or_default number (js "unknown")) in
  slice result 0 start ++ js "@" ++ name ++ slice_from result (start + length).

(** [mentions && mentions.length > 0] *)
Definition has_mentions (mentions : option (list Mention)) : bool :=
  match mentions with
  | Some (_ :: _) => true
  | _ => false
  end.

Definition mentions_list (mentions : option (list Mention)) : list Mention :=
  default [] mentions.

(** [result.includes('\uFFFC')] *)
Definition includes_sentinel (s : jsstring) : bool :=
  existsb (N.eqb SENTINEL) s.

(** The replacement text of [String.prototype.replace] for one match of a
    pattern without capture groups: in the template, [$$] stands for a dollar
    sign, [$&] for the match, [$`] for the text before it and [$'] for the
    text after it; any other dollar sign stands for itself. *)
Fixpoint expand (template before matched after : jsstring) : jsstring :=
  match template with
  | [] => []
  | d :: rest =>
      if N.eqb d 36 then
        match rest with
        | e :: rest' =>
            if N.eqb e 36 then 36%N :: expand rest' before matched after
            else if N.eqb e 38 then matched ++ expand rest' before matched after
            else if N.eqb e 96 then before ++ expand rest' before matched after
            else if N.eqb e 39 then after ++ expand rest' before matched after
            else d :: expand rest before matched after
        | [] => [d]
        end
      else d :: expand rest before matched after
  end.

(** [result.replace(/\uFFFC/g, `@${ASSISTANT_NAME}`)]: every placeholder of
    [s] gives way to the expansion of the template at its position. *)
Definition sweep_sentinel (env : Env) (s : jsstring) : jsstring :=
  concat (imap (λ i d, if N.eqb SENTINEL d
                       then expand (js "@" ++ ASSISTANT_NAME env)
                                   (take i s) [d] (drop (S i) s)
                       else [d]) s).

(** The text after the descriptors have been applied. *)
Definition descriptorReplaced (env : Env) (t : jsstring)
    (mentions : option (list Mention)) : jsstring :=
  if has_mentions mentions
  then foldl (replaceMention env) t (sort_desc (mentions_list mentions))
  else t.

(** The current [resolveMentions]. *)
Definition resolveMentions (env : Env) (text : option jsstring)
    (mentions : option (list Mention)) : option jsstring :=
  match text with
  | None => None
  | Some t =>
      if negb (truthy t) then Some t
      else
        let result := descriptorReplaced env t mentions in
        let result :=
          if includes_sentinel result then sweep_sentinel env result
          else result in
        Some result
  end.

(** The earlier [resolveMentions], without the fallback sweep. *)
Definition resolveMentions_earlier (env : Env) (text : option jsstring)
    (mentions : option (list Mention)) : option jsstring :=
  match text with
  | None => None
  | Some t =>
      if negb (truthy t) || negb (has_mentions mentions) then Some t
      else
        Some (foldl (replaceMention env) t (sort_desc (mentions_list mentions)))
  end.

(** ** Wire payloads

    The loosely typed records of the wire, with the types their casts give
    them; an absent field is [None]. *)

Record GroupInfo := mkGroupInfo {
  groupId : option jsstring;
  groupName : option jsstring;
}.

Record RawAttachment := mkRawAttachment {
  ra_id : option jsstring;
  ra_contentType : option jsstring;
  ra_filename : option jsstring;
  ra_size : option Z;
}.

Record RawQuote := mkRawQuote {
  authorNumber : option jsstring;
  authorUuid : option jsstring;
  author : option jsstring;
  rq_text : option jsstring;
}.

Record RawReaction := mkRawReaction {
  rr_emoji : option jsstring;
  isRemove : option bool;
  targetAuthorNumber : option jsstring;
  targetAuthorUuid : option jsstring;
  rr_targetAuthor : option jsstring;
  targetSentTimestamp : option Z;
}.

(** A [dataMessage] or a [syncMessage.sentMessage]; the destination fields
    and the own timestamp are read on a sent message only. *)
Record Payload := mkPayload {
  message : option jsstring;
  mentions : option (list Mention);
  groupInfo : option GroupInfo;
  attachments : option (list RawAttachment);
  quote : option RawQuote;
  reaction : option RawReaction;
  destinationNumber : option jsstring;
  destinationUuid : option jsstring;
  destination : option jsstring;
  sent_timestamp : option Z;
}.

Record SyncMessage := mkSyncMessage {
  sentMessage : option Payload;
}.

Record Envelope := mkEnvelope {
  sourceNumber : option jsstring;
  sourceUuid : option jsstring;
  source : option jsstring;
  sourceName : option jsstring;
  timestamp : option Z;
  dataMessage : option Payload;
  syncMessage : option SyncMessage;
}.

(** ** What the channel hands to its collaborators *)

Record Attachment := mkAttachment {
  contentType : jsstring;
  filename : option jsstring;
  hostPath : jsstring;
  containerPath : jsstring;
  size_ : option Z;
}.

Record Quote := mkQuote {
  q_author : jsstring;
  q_text : jsstring;
}.

Record Reaction := mkReaction {
  emoji : jsstring;
  targetAuthor : jsstring;
  targetTimestamp : jsstring;
}.

Record NewMessage := mkNewMessage {
  msg_id : jsstring;
  chat_jid : jsstring;
  sender : jsstring;
  sender_name : jsstring;
  content : jsstring;
  msg_timestamp : jsstring;
  is_from_me : bool;
  is_bot_message : bool;
  msg_attachments : option (list Attachment);
  msg_quote : option Quote;
  msg_reaction : option Reaction;
}.

Inductive HandlerCall :=
  | OnChatMetadata (chatJid isoTimestamp : jsstring) (name : option jsstring)
                   (channel : jsstring) (isGroup : bool)
  | OnMessage (chatJid : jsstring) (msg : NewMessage).

(** ** Channel state *)

(** The parameter values the channel sends: a string or an array of strings. *)
Inductive json :=
  | JStr (s : jsstring)
  | JArr (l : list jsstring).

(** One line written to the subprocess: the object that is serialised. *)
Record Request := mkRequest {
  req_method : jsstring;
  req_id : jsstring;
  req_params : list (jsstring * json);
}.

Record Proc := mkProc {
  writable : bool;            (* proc.stdin.writable *)
  written : list Request;     (* what proc.stdin.write received, in order *)
}.

(** An entry of the correlation table; its continuations belong to the
    caller, the timer reports the method. *)
Record PendingCall := mkPendingCall {
  pc_method : jsstring;
}.

Record Queued := mkQueued {
  jid : jsstring;
  q_body : jsstring;
  q_attachments : option (list jsstring);
}.

Record Channel := mkChannel {
  proc : option Proc;
  connected : bool;
  outgoingQueue : list Queued;
  flushing : bool;
  rpcIdCounter : Z;
  pendingRpc : gmap jsstring PendingCall;
  (* the calls made so far to opts.onChatMetadata and opts.onMessage *)
  calls : list HandlerCall;
}.

Definition new_channel : Channel :=
  mkChannel None false [] false 0 ∅ [].

Definition set_proc (v : option Proc) (st : Channel) : Channel :=
  mkChannel v (connected st) (outgoingQueue st) (flushing st)
            (rpcIdCounter st) (pendingRpc st) (calls st).
Definition set_connected (v : bool) (st : Channel) : Channel :=
  mkChannel (proc st) v (outgoingQueue st) (flushing st)
            (rpcIdCounter st) (pendingRpc st) (calls st).
Definition set_outgoingQueue (v : list Queued) (st : Channel) : Channel :=
  mkChannel (proc st) (connected st) v (flushing st)
            (rpcIdCounter st) (pendingRpc st) (calls st).
Definition set_flushing (v : bool) (st : Channel) : Channel :=
  mkChannel (proc st) (connected st) (outgoingQueue st) v
            (rpcIdCounter st) (pendingRpc st) (calls st).
Definition set_rpcIdCounter (v : Z) (st : Channel) : Channel :=
  mkChannel (proc st) (connected st) (outgoingQueue st) (flushing st)
            v (pendingRpc st) (calls st).
Definition set_pendingRpc (v : gmap jsstring PendingCall) (st : Channel) : Channel :=
  mkChannel (proc st) (connected st) (outgoingQueue st) (flushing st)
            (rpcIdCounter st) v (calls st).
Definition call_handler (c : HandlerCall) (st : Channel) : Channel :=
  mkChannel (proc st) (connected st) (outgoingQueue st) (flushing st)
            (rpcIdCounter st) (pendingRpc st) (calls st ++ [c]).

(** ** RPC transport *)

(** How the promise of [rpcCall] stands when the call returns. *)
Inductive RpcOutcome :=
  | Rejected (error : jsstring)
  | Pending (id : jsstring).

Definition rpcCall (method : jsstring) (params : list (jsstring * json))
    (st : Channel) : RpcOutcome * Channel :=
  if MAX_PENDING_RPC <=? size (pendingRpc st) then
    (Rejected (js "RPC cap exceeded (" ++ decimal (Z.of_nat MAX_PENDING_RPC)
               ++ js " pending calls)"), st)
  else
    let counter := (rpcIdCounter st + 1)%Z in
    let id := js "rpc-" ++ decimal counter in
    let msg := mkRequest method id params in
    let st := set_rpcIdCounter counter st in
    let st := set_pendingRpc (<[id := mkPendingCall method]> (pendingRpc st)) st in
    match proc st with
    | Some p =>
        if writable p then
          (Pending id, set_proc (Some (mkProc (writable p) (written p ++ [msg]))) st)
        else
          (Rejected (js "signal-cli stdin not writable"),
           set_pendingRpc (delete id (pendingRpc st)) st)
    | None =>
        (Rejected (js "signal-cli stdin not writable"),
         set_pendingRpc (delete id (pendingRpc st)) st)
    end.

(** The 30 s timer of a call, and the error callback of its write: the entry
    is removed and the promise rejects. *)
Definition rpcTimeout (id : jsstring) (st : Channel) : Channel :=
  set_pendingRpc (delete id (pendingRpc st)) st.

(** [jid.replace(/^signal:/, '')] *)
Definition stripSignal (jid : jsstring) : jsstring :=
  if startsWith jid (js "signal:") then drop 7 jid else jid.

Definition is_hex (d : code_unit) : bool :=
  ((48 <=? d) && (d <=? 57) || (97 <=? d) && (d <=? 102)
   || (65 <=? d) && (d <=? 70))%N.

(** The case-insensitive test for the 8-4-4-4-12 layout of a UUID. *)
Definition is_uuid (s : jsstring) : bool :=
  (length s =? 36) &&
  forallb (λ ic, if decide (fst ic ∈ [8; 13; 18; 23])
                 then N.eqb (snd ic) (N_of_ascii "-")
                 else is_hex (snd ic))
          (zip (seq 0 (length s)) s).

Definition rpcSend (jid text : jsstring) (attachments : option (list jsstring))
    (st : Channel) : RpcOutcome * Channel :=
  let target := stripSignal jid in
  let params := [(js "message", JStr text)] in
  let params :=
    if startsWith target (js "+") then
      params ++ [(js "recipient", JArr [target])]
    else if is_uuid target then
      params ++ [(js "recipient", JArr [target])]
    else
      params ++ [(js "groupId", JStr target)] in
  let params :=
    match attachments with
    | Some (a :: l) => params ++ [(js "attachment", JArr (a :: l))]
    | _ => params
    end in
  rpcCall (js "send") params st.

(** ** Outbound queue *)

(** The queueing block shared by both branches of [sendMessage]: drop the
    oldest entry when the queue is at capacity, then push. *)
Definition enqueue (item : Queued) (st : Channel) : Channel :=
  let st :=
    if MAX_OUTGOING_QUEUE <=? length (outgoingQueue st)
    then set_outgoingQueue (tail (outgoingQueue st)) st   (* shift() *)
    else st in
  set_outgoingQueue (outgoingQueue st ++ [item]) st.

(** [sendMessage] up to its [await]: queued at once when disconnected,
    otherwise handed to the transport. *)
Definition sendMessage (jid text : jsstring) (attachments : option (list jsstring))
    (st : Channel) : option RpcOutcome * Channel :=
  let prefixed := text in
  if negb (connected st) then
    (None, enqueue (mkQueued jid prefixed attachments) st)
  else
    let '(o, st) := rpcSend jid prefixed attachments st in (Some o, st).

(** The [catch] block of [sendMessage], run when its [rpcSend] rejects. *)
Definition sendMessage_catch (jid text : jsstring)
    (attachments : option (list jsstring)) (st : Channel) : Channel :=
  enqueue (mkQueued jid text attachments) st.

(** One iteration of the loop of [flushOutgoingQueue]. *)
Definition flushStep (st : Channel) : option RpcOutcome * Channel :=
  match outgoingQueue st with
  | [] => (None, st)
  | item :: rest =>
      let st := set_outgoingQueue rest st in
      let '(o, st) := rpcSend (jid item) (q_body item) (q_attachments item) st in
      (Some o, st)
  end.

(** [disconnect], on the fields of the model. *)
Definition disconnect (st : Channel) : Channel :=
  mkChannel None false [] false (rpcIdCounter st) ∅ (calls st).

(** ** Envelope decoder *)

(** The argument of [processMessage]. *)
Record Inbound := mkInbound {
  sourceId : option jsstring;
  in_sourceName : jsstring;
  in_timestamp : option Z;
  in_message : option jsstring;
  in_groupInfo : option GroupInfo;
  isFromMe : bool;
  rawAttachments : option (list RawAttachment);
  rawQuote : option RawQuote;
  rawReaction : option RawReaction;
}.

(** Truthiness of [number | undefined]. *)
Definition truthy_num (o : option Z) : option Z :=
  match o with
  | Some z => if (z =? 0)%Z then None else Some z
  | None => None
  end.

(** A truthy [string | undefined] value, if any. *)
Definition truthy_str (o : option jsstring) : option jsstring :=
  match o with
  | Some s => if truthy s then Some s else None
  | None => None
  end.

(** "Determine JID": the chat identity and the group flag, or nothing. *)
Definition chatJidOf (msg : Inbound) : option (jsstring * bool) :=
  match truthy_str (in_groupInfo msg ≫= groupId) with
  | Some g => Some (js "signal:" ++ g, true)
  | None =>
      match truthy_str (sourceId msg) with
      | Some s => Some (js "signal:" ++ s, false)
      | None => None
      end
  end.

(** [msg.message && msg.message.trim().toLowerCase() === '/chatid'] *)
Definition isChatIdCommand (env : Env) (msg : Inbound) : bool :=
  match in_message msg with
  | Some m =>
      truthy m && bool_decide (toLowerCase env (trim m) = js "/chatid")
  | None => false
  end.

Definition sendChatIdResponse (chatJid : jsstring) (st : Channel)
  : RpcOutcome * Channel :=
  let text := js "Chat ID: " ++ chatJid in
  rpcSend chatJid text None st.

(** One round of the loop that locates the files of the raw attachments. *)
Definition buildAttachment (env : Env) (attachmentsDir : jsstring)
    (att : RawAttachment) : option Attachment :=
  match ra_id att with
  | None => None
  | Some id =>
      if negb (truthy id) then None
      else
        let found :=
          match readdirSync env attachmentsDir with
          | Some files =>
              match List.find (λ f, startsWith f id) files with
              | Some match_ =>
                  if truthy match_
                  then Some (pathJoin env attachmentsDir match_, match_)
                  else None
              | None => None
              end
          | None => None
          end in
        match found with
        | Some (hostPath, diskFilename) =>
            if negb (truthy hostPath) then None
            else
              Some (mkAttachment
                      (or_default (ra_contentType att) (js "application/octet-stream"))
                      (or_else (ra_filename att) (Some diskFilename))
                      hostPath
                      (js "/workspace/signal-attachments/" ++ diskFilename)
                      (ra_size att))
        | None => None
        end
  end.

Definition buildAttachments (env : Env) (msg : Inbound) : option (list Attachment) :=
  match rawAttachments msg with
  | Some raws =>
      if truthy (SIGNAL_CLI_DIR env) then
        let attachmentsDir := pathJoin env (SIGNAL_CLI_DIR env) (js "attachments") in
        match omap (buildAttachment env attachmentsDir) raws with
        | [] => None
        | built => Some built
        end
      else None
  | None => None
  end.

Definition buildQuote (env : Env) (msg : Inbound) : option Quote :=
  match rawQuote msg with
  | Some q =>
      let quoteAuthorId :=
        or_default (authorNumber q)
          (or_default (authorUuid q) (or_default (author q) (js "unknown"))) in
      let quoteAuthor := or_default (lookupSenderName env quoteAuthorId) quoteAuthorId in
      let quoteText := or_default (rq_text q) [] in
      Some (mkQuote quoteAuthor quoteText)
  | None => None
  end.

(** "Build reaction"; it throws when the target timestamp is no valid
    date. *)
Definition buildReaction (env : Env) (msg : Inbound) : completion (option Reaction) :=
  match rawReaction msg with
  | Some r =>
      match rr_emoji r with
      | Some e =>
          if truthy e && negb (default false (isRemove r)) then
            let targetAuthor :=
              or_default (targetAuthorNumber r)
                (or_default (targetAuthorUuid r)
                   (or_default (rr_targetAuthor r) (js "unknown"))) in
            match truthy_num (targetSentTimestamp r) with
            | Some ts =>
                match isoString env ts with
                | Returns targetTimestamp =>
                    Returns (Some (mkReaction e targetAuthor targetTimestamp))
                | Throws => Throws
                end
            | None => Returns (Some (mkReaction e targetAuthor []))
            end
          else Returns None
      | None => Returns None
      end
  | None => Returns None
  end.

(** The [isoTimestamp] of [processMessage]. *)
Definition isoTimestampOf (env : Env) (msg : Inbound) : completion jsstring :=
  match truthy_num (in_timestamp msg) with
  | Some ts => isoString env ts
  | None => Returns (toISOString env (now env))
  end.

(** The quote text as it is shown inline in the content. *)
Definition quoteSnippet (t : jsstring) : jsstring :=
  if 100 <? length t then slice t 0 100 ++ js "..." else t.

Definition quotePart (q : Quote) : jsstring :=
  js "[replying to " ++ q_author q ++ js ": " ++ quoteSnippet (q_text q) ++ js "]".

Definition reactionPart (r : Reaction) : jsstring :=
  js "[reacted " ++ emoji r ++ js " to message from " ++ targetAuthor r ++ js "]".

(** The loop over the attachments: the parts it pushes and the ones it keeps.
    A transcribed audio attachment becomes a voice annotation. The function
    is suspended at [await transcribeAudioFile] and at
    [await optimizeImageForVision]; the latter rewrites the image file and
    returns nothing (see [awaited] for the messages that reach neither). *)
Definition attachmentStep (env : Env) (acc : list jsstring * list Attachment)
    (att : Attachment) : list jsstring * list Attachment :=
  let transcript :=
    if startsWith (contentType att) (js "audio/")
    then match transcribeAudioFile env (hostPath att) with
         | Some t => if truthy t then Some t else None
         | None => None
         end
    else None in
  match transcript with
  | Some t =>
      (fst acc ++ [js "@" ++ ASSISTANT_NAME env ++ js " [Voice: " ++ t ++ js "]"],
       snd acc)
  | None =>
      let label := or_default (filename att) (contentType att) in
      (fst acc ++ [js "[attachment: " ++ label ++ js " " ++ [0x2192%N] ++ js " "
                   ++ containerPath att ++ js "]"],
       snd acc ++ [att])
  end.

(** The content string and the attachments that remain after the audio ones
    have been transcribed. *)
Definition buildContent (env : Env) (msg : Inbound)
    (attachments : option (list Attachment)) (quote : option Quote)
    (reaction : option Reaction) : jsstring * option (list Attachment) :=
  let parts :=
    match in_message msg with
    | Some m => if truthy m then [m] else []
    | None => []
    end in
  let parts := parts ++ option_list (quotePart <$> quote) in
  let parts := parts ++ option_list (reactionPart <$> reaction) in
  let '(parts, attachments) :=
    match attachments with
    | Some atts =>
        let '(parts, kept) := foldl (attachmentStep env) (parts, []) atts in
        (parts, match kept with [] => None | _ => Some kept end)
    | None => (parts, None)
    end in
  (join newline parts, attachments).

(** [processMessage], run to its end: what the call and its continuations
    after the awaits of the attachment loop do. A [RangeError] rejects the
    promise, which the caller logs. *)
Definition processMessage (env : Env) (msg : Inbound) (st : Channel) : Channel :=
  match chatJidOf msg with
  | None => st
  | Some (chatJid, isGroup) =>
      match isoTimestampOf env msg with
      | Throws => st
      | Returns isoTimestamp =>
          if isChatIdCommand env msg then
            snd (sendChatIdResponse chatJid st)
          else
            let groupName := in_groupInfo msg ≫= groupName in
            let st := call_handler
                        (OnChatMetadata chatJid isoTimestamp groupName (js "signal") isGroup)
                        st in
            if negb (registeredGroups env chatJid) then st
            else
              let attachments := buildAttachments env msg in
              let quote := buildQuote env msg in
              match buildReaction env msg with
              | Throws => st
              | Returns reaction =>
                  let '(content, attachments) :=
                    buildContent env msg attachments quote reaction in
                  if negb (truthy (trim content)) then st
                  else
                    let isBotMessage := isFromMe msg in
                    call_handler
                      (OnMessage chatJid
                         (mkNewMessage
                            (js "signal-"
                             ++ decimal (default (now_forwarded env)
                                                 (truthy_num (in_timestamp msg))))
                            chatJid
                            (or_default (sourceId msg) [])
                            (in_sourceName msg)
                            content
                            isoTimestamp
                            (isFromMe msg)
                            isBotMessage
                            attachments
                            quote
                            reaction))
                      st
              end
      end
  end.

Definition handleEnvelope (env : Env) (envelope : Envelope) (st : Channel) : Channel :=
  let sourceNumber := sourceNumber envelope in
  let sourceUuid := or_else (sourceUuid envelope) (source envelope) in
  let sourceId := or_else sourceNumber sourceUuid in
  let sourceName :=
    or_default (sourceName envelope) (or_default sourceId (js "Unknown")) in
  let timestamp := timestamp envelope in
  match dataMessage envelope with
  | Some dataMessage =>
      let resolvedMessage :=
        resolveMentions env (message dataMessage) (mentions dataMessage) in
      processMessage env
        (mkInbound sourceId sourceName timestamp resolvedMessage
                   (groupInfo dataMessage) false
                   (attachments dataMessage) (quote dataMessage)
                   (reaction dataMessage))
        st
  | None =>
      match syncMessage envelope ≫= sentMessage with
      | Some sentMessage =>
          let destNumber := destinationNumber sentMessage in
          let destUuid :=
            or_else (destinationUuid sentMessage) (destination sentMessage) in
          let chatId := or_else destNumber (or_else destUuid sourceId) in
          processMessage env
            (mkInbound chatId sourceName
                       (match sent_timestamp sentMessage with
                        | Some t => Some t
                        | None => timestamp
                        end)
                       (resolveMentions env (message sentMessage) (mentions sentMessage))
                       (groupInfo sentMessage) true
                       (attachments sentMessage) (quote sentMessage)
                       (reaction sentMessage))
            st
      | None => st
      end
  end.

(** The message an envelope carries, as [handleEnvelope] selects it. *)
Definition payloadOf (envelope : Envelope) : option Payload :=
  match dataMessage envelope with
  | Some d => Some d
  | None => syncMessage envelope ≫= sentMessage
  end.

(** The destination of a sent message: number, else UUID, else the
    [destination] field. *)
Definition destinationOf (sentMessage : Payload) : option jsstring :=
  truthy_str (or_else (destinationNumber sentMessage)
                (or_else (destinationUuid sentMessage) (destination sentMessage))).

Definition call_jid (c : HandlerCall) : jsstring :=
  match c with
  | OnChatMetadata chatJid _ _ _ _ => chatJid
  | OnMessage chatJid _ => chatJid
  end.

(** What [processMessage] reports to the collaborators, and from what. *)
Definition reported (env : Env) (msg : Inbound) (c : HandlerCall) : Prop :=
  (∃ g, chatJidOf msg = Some (call_jid c, g)) ∧
  isChatIdCommand env msg = false ∧
  match c with
  | OnChatMetadata _ _ _ _ _ => True
  | OnMessage chatJid m =>
      chat_jid m = chatJid ∧
      registeredGroups env chatJid = true ∧
      msg_quote m = buildQuote env msg ∧
      buildReaction env msg = Returns (msg_reaction m) ∧
      content m = fst (buildContent env msg (buildAttachments env msg)
                         (buildQuote env msg) (msg_reaction m))
  end.

(** The statements of the design document that the decoder does not meet,
    as they are worded there. *)

(** "For every echo, the chat identity of the forwarded message is 'signal:'
    followed by the destination number or the destination UUID." *)
Definition echo_identity_is_destination : Prop :=
  ∀ env envelope sentMessage st chatJid m,
    dataMessage envelope = None →
    syncMessage envelope ≫= Signal.sentMessage = Some sentMessage →
    calls st = [] →
    OnMessage chatJid m ∈ calls (handleEnvelope env envelope st) →
    ∃ d, (destinationNumber sentMessage = Some d ∨ destinationUuid sentMessage = Some d)
         ∧ chat_jid m = js "signal:" ++ d.

(** "The text of every forwarded quote is truncated to a bounded length." *)
Definition forwarded_quote_bounded : Prop :=
  ∃ bound, ∀ env envelope st chatJid m q,
    calls st = [] →
    OnMessage chatJid m ∈ calls (handleEnvelope env envelope st) →
    msg_quote m = Some q →
    length (q_text q) ≤ bound.


(** ** The channel as a transition system

    What can happen to a channel between two turns of the event loop. *)

Inductive Event :=
  | Spawn                                   (* spawnProcess *)
  | Healthy                                 (* connect, after waitForHealth *)
  | Exit                                    (* the subprocess exits *)
  | Disconnect
  | Send (jid text : jsstring) (attachments : option (list jsstring))
  | SendFailed (jid text : jsstring) (attachments : option (list jsstring))
  | Flush
  | Settled (id : jsstring)                 (* response, timeout or write error *)
  | Receive (envelope : Envelope).

Definition step (env : Env) (st : Channel) (ev : Event) : Channel :=
  match ev with
  | Spawn => set_proc (Some (mkProc true [])) st
  | Healthy => set_connected true st
  | Exit =>
      let st := set_proc ((λ p, mkProc false (written p)) <$> proc st) st in
      if connected st then set_connected false st else st
  | Disconnect => disconnect st
  | Send jid text attachments => snd (sendMessage jid text attachments st)
  | SendFailed jid text attachments => sendMessage_catch jid text attachments st
  | Flush => snd (flushStep st)
  | Settled id => rpcTimeout id st
  | Receive envelope => handleEnvelope env envelope st
  end.

Definition run (env : Env) (evs : list Event) (st : Channel) : Channel :=
  foldl (step env) st evs.

(** ** An environment and states for the examples *)

Definition asciiLower (s : jsstring) : jsstring :=
  map (λ d, if ((65 <=? d) && (d <=? 90))%N then (d + 32)%N else d) s.

Definition example_env : Env :=
  mkEnv (js "Echo") (js "+15550000") (js "/data/signal-cli")
        (λ _, None)
        (λ jid, bool_decide (jid ∈ [js "signal:+15551111"; js "signal:+15552222";
                                     js "signal:grp1"]))
        (λ _, Some [js "att1.jpg"; js "att2.ogg"])
        (λ a b, a ++ js "/" ++ b)
        (λ _, None)
        1700000000000%Z
        1700000000040%Z
        (λ z, js "T" ++ decimal z)
        asciiLower.

Definition example_live : Channel :=
  run example_env [Spawn; Healthy] new_channel.

(** A live channel after one hundred calls that nothing has answered yet. *)
Definition example_saturated : Channel :=
  Nat.iter 100 (λ st, snd (rpcCall (js "version") [] st)) example_live.

(** A disconnected channel with a full queue: entries "m0" ... "m999". *)
Definition example_entry (n : nat) : Queued :=
  mkQueued (js "signal:+15551111") (js "m" ++ decimal (Z.of_nat n)) None.

Definition example_full : Channel :=
  set_outgoingQueue (example_entry <$> seq 0 1000) new_channel.

(** Envelopes for the examples. *)
Definition payload (text : jsstring) (q : option RawQuote) (r : option RawReaction)
    (g : option GroupInfo) (dest : option jsstring) : Payload :=
  mkPayload (Some text) None g None q r dest None None None.

Definition received (from : jsstring) (p : Payload) : Envelope :=
  mkEnvelope (Some from) None None None (Some 1700000000123%Z) (Some p) None.

Definition echoed (from : jsstring) (p : Payload) : Envelope :=
  mkEnvelope (Some from) None None None (Some 1700000000123%Z) None
             (Some (mkSyncMessage (Some p))).

Definition example_echo : Envelope :=
  echoed (js "+15550000") (payload (js "hello") None None None (Some (js "+15551111"))).

Definition example_echo_no_destination : Envelope :=
  echoed (js "+15552222") (payload (js "hello") None None None None).

Definition example_echo_group : Envelope :=
  echoed (js "+15550000")
         (payload (js "hello") None None
                  (Some (mkGroupInfo (Some (js "grp1")) (Some (js "Family"))))
                  None).

Definition example_removed_reaction : Envelope :=
  received (js "+15551111")
           (payload (js "hi") None
                    (Some (mkRawReaction (Some (js "+1")) (Some true)
                                         (Some (js "+15550000")) None None
                                         (Some 1700000000000%Z)))
                    None None).

Definition example_quoted (n : nat) : Envelope :=
  received (js "+15551111")
           (payload (js "hi")
                    (Some (mkRawQuote (Some (js "+15552222")) None None
                                      (Some (replicate n (N_of_ascii "a")))))
                    None None None).

Definition example_chatid : Envelope :=
  received (js "+15551111") (payload (js "  /ChatID ") None None None None).

Definition example_chatid_inbound : Inbound :=
  mkInbound (Some (js "+15551111")) (js "Alice") (Some 1700000000123%Z)
            (Some (js "  /ChatID ")) None false None None None.


Definition example_mentioned : option jsstring * option (list Mention) :=
  (Some (js "hi " ++ [SENTINEL] ++ js "!"),
   Some [mkMention 3 (Some 1%Z) None (Some (js "Bob"))]).

(** ** Responses and notifications *)

(** A parsed line of the subprocess, as [handleJsonRpcMessage] reads it. *)
Record RpcMessage := mkRpcMessage {
  rm_id : option jsstring;        (* msg.id, when it is a string *)
  rm_error : bool;                (* msg.error is truthy *)
  rm_method : option jsstring;    (* msg.method, when it is a string *)
  rm_envelope : option Envelope;  (* msg.params?.envelope *)
}.

(** The promise of a pending call that a response settles. *)
Inductive Settlement :=
  | Resolves (id : jsstring)
  | Rejects (id : jsstring).

Definition handleJsonRpcMessage (env : Env) (msg : RpcMessage) (st : Channel)
  : option Settlement * Channel :=
  match truthy_str (rm_id msg) with
  | Some id =>
      match pendingRpc st !! id with
      | Some pending =>
          (Some (if rm_error msg then Rejects id else Resolves id),
           set_pendingRpc (delete id (pendingRpc st)) st)
      | None => (None, st)
      end
  | None =>
      if decide (rm_method msg = Some (js "receive")) then
        match rm_envelope msg with
        | Some envelope => (None, handleEnvelope env envelope st)
        | None => (None, st)
        end
      else (None, st)
  end.

(** ** Reading the standard output of the subprocess *)

Definition MAX_STDOUT_BUFFER : Z := 1000000.

(** [s.split('\n')]: never empty, the last piece is what follows the last
    line feed. *)
Fixpoint split_nl (s : jsstring) : list jsstring :=
  match s with
  | [] => [[]]
  | d :: s' =>
      if N.eqb d 10 then [] :: split_nl s'
      else match split_nl s' with
           | l :: ls => (d :: l) :: ls
           | [] => [[d]]
           end
  end.

(** The body of the loop over the complete lines; [parse] is [JSON.parse],
    [None] when it throws. *)
Definition handleLine (parse : jsstring → option RpcMessage) (env : Env)
    (st : Channel) (line : jsstring) : Channel :=
  let trimmed := trim line in
  if negb (truthy trimmed) || negb (startsWith trimmed (js "{")) then st
  else
    match parse trimmed with
    | Some msg => snd (handleJsonRpcMessage env msg st)
    | None => st
    end.

(** The ['data'] handler of stdout on (buffer, channel); [chunk] is
    [data.toString()]. *)
Definition onStdoutData (parse : jsstring → option RpcMessage) (env : Env)
    (chunk : jsstring) (bst : jsstring * Channel) : jsstring * Channel :=
  let stdoutBuffer := fst bst ++ chunk in
  let stdoutBuffer :=
    if (MAX_STDOUT_BUFFER <? Z.of_nat (length stdoutBuffer))%Z
    then slice_from stdoutBuffer (- MAX_STDOUT_BUFFER)
    else stdoutBuffer in
  let lines := split_nl stdoutBuffer in
  (or_default (last lines) [],                      (* lines.pop() || '' *)
   foldl (handleLine parse env) (snd bst) (removelast lines)).

(** What the ['data'] handler makes of a chunk that decodes to [chunk]:
    the complete lines its loop goes through, in order, and the buffer it
    leaves. *)
Definition stdoutLines (chunk buffer : jsstring) : list jsstring * jsstring :=
  let stdoutBuffer := buffer ++ chunk in
  let stdoutBuffer :=
    if (MAX_STDOUT_BUFFER <? Z.of_nat (length stdoutBuffer))%Z
    then slice_from stdoutBuffer (- MAX_STDOUT_BUFFER)
    else stdoutBuffer in
  let lines := split_nl stdoutBuffer in
  (removelast lines, or_default (last lines) []).

(** ** Flushing the queue

    [flushOutgoingQueue] between its awaits: the entry, the loop test with the
    body up to the [await], and the two ways the [await] ends. *)

Definition flushLoop (st : Channel) : option RpcOutcome * Channel :=
  match outgoingQueue st with
  | [] => (None, set_flushing false st)             (* loop done, finally *)
  | item :: rest =>
      let st := set_outgoingQueue rest st in        (* shift() *)
      let '(o, st) := rpcSend (jid item) (q_body item) (q_attachments item) st in
      (Some o, st)
  end.

Definition flushOutgoingQueue (st : Channel) : option RpcOutcome * Channel :=
  if flushing st || bool_decide (outgoingQueue st = []) then (None, st)
  else flushLoop (set_flushing true st).

(** The awaited [rpcSend] resolved: the loop goes on. *)
Definition flush_resolved (st : Channel) : option RpcOutcome * Channel :=
  flushLoop st.

(** The awaited [rpcSend] rejected: [finally], and the error leaves the
    function. *)
Definition flush_rejected (st : Channel) : Channel :=
  set_flushing false st.

(** [ownsJid] *)
Definition ownsJid (jid : jsstring) : bool := startsWith jid (js "signal:").

(** ** Typing indicators

    The two tables of the channel, and the timers of the runtime they refer
    to: a live interval or timeout is a handle with the chat it was set for. *)

Record Typing := mkTyping {
  typingIntervals : gmap (list N) nat;
  typingTimeouts : gmap (list N) nat;
  liveIntervals : gmap nat (list N);     (* setInterval handles not yet cleared *)
  liveTimeouts : gmap nat (list N);      (* setTimeout handles neither cleared nor fired *)
  nextTimer : nat;                       (* the next handle the runtime hands out *)
}.

Definition no_typing : Typing := mkTyping ∅ ∅ ∅ ∅ 0.

(** [targetParams] of [setTyping]. *)
Definition targetParams (jid : jsstring) : list (jsstring * json) :=
  let target := stripSignal jid in
  if startsWith target (js "+") || is_uuid target
  then [(js "recipient", JStr target)]
  else [(js "groupId", JStr target)].

(** The first block of [setTyping]: clear what is there for this chat. *)
Definition clearTyping (jid : jsstring) (t : Typing) : Typing :=
  let t :=
    match typingIntervals t !! jid with
    | Some existing =>
        mkTyping (delete jid (typingIntervals t)) (typingTimeouts t)
                 (delete existing (liveIntervals t)) (liveTimeouts t) (nextTimer t)
    | None => t
    end in
  match typingTimeouts t !! jid with
  | Some existingTimeout =>
      mkTyping (typingIntervals t) (delete jid (typingTimeouts t))
               (liveIntervals t) (delete existingTimeout (liveTimeouts t)) (nextTimer t)
  | None => t
  end.

(** [setTyping]. The value [true] of the [stop] parameter is not one of the
    parameter values of the model and is taken as given ([jtrue]). *)
Definition setTyping (jtrue : json) (jid : jsstring) (isTyping : bool)
    (ts : Typing * Channel) : Typing * Channel :=
  let t := clearTyping jid (fst ts) in
  let st := snd ts in
  if negb (connected st) then (t, st)
  else if negb isTyping then
    (t, snd (rpcCall (js "sendTyping")
                     (targetParams jid ++ [(js "stop", jtrue)]) st))
  else
    let st := snd (rpcCall (js "sendTyping") (targetParams jid) st) in   (* sendOnce() *)
    let interval := nextTimer t in
    let timeout := S (nextTimer t) in
    (mkTyping (<[jid := interval]> (typingIntervals t))
              (<[jid := timeout]> (typingTimeouts t))
              (<[interval := jid]> (liveIntervals t))
              (<[timeout := jid]> (liveTimeouts t))
              (S (S (nextTimer t))),
     st).

(** A live interval fires: [sendOnce] for its chat. *)
Definition typingTick (handle : nat) (ts : Typing * Channel) : Typing * Channel :=
  match liveIntervals (fst ts) !! handle with
  | Some jid => (fst ts, snd (rpcCall (js "sendTyping") (targetParams jid) (snd ts)))
  | None => ts
  end.

(** A live safety timeout fires. *)
Definition typingCeiling (handle : nat) (ts : Typing * Channel) : Typing * Channel :=
  let t := fst ts in
  match liveTimeouts t !! handle with
  | Some jid =>
      let live := delete handle (liveTimeouts t) in
      match typingIntervals t !! jid with
      | Some interval =>
          (mkTyping (delete jid (typingIntervals t)) (delete jid (typingTimeouts t))
                    (delete interval (liveIntervals t)) live (nextTimer t),
           snd ts)
      | None =>
          (mkTyping (typingIntervals t) (delete jid (typingTimeouts t))
                    (liveIntervals t) live (nextTimer t),
           snd ts)
      end
  | None => ts
  end.

(** The part of [disconnect] on the typing tables: every handle of a table
    is cleared, then the table. *)
Definition clearAllTyping (t : Typing) : Typing :=
  let intervals : gset nat := map_img (typingIntervals t) in
  let timeouts : gset nat := map_img (typingTimeouts t) in
  mkTyping ∅ ∅
           (filter (λ hj, fst hj ∉ intervals) (liveIntervals t))
           (filter (λ hj, fst hj ∉ timeouts) (liveTimeouts t))
           (nextTimer t).

(** ** Group metadata *)

Record RawMember := mkRawMember {
  rm_number : option jsstring;     (* m.number, when it is a string *)
  rm_uuid : option jsstring;
}.

Record RawGroup := mkRawGroup {
  rg_id : option jsstring;
  rg_name : option jsstring;
  rg_description : option jsstring;
  rg_members : option (list RawMember);   (* None when it is not an array *)
  rg_admins : option (list RawMember);
}.

Record SignalGroupMetadata := mkSignalGroupMetadata {
  gm_id : jsstring;
  gm_name : jsstring;
  gm_description : jsstring;
  gm_members : list jsstring;
  gm_admins : list jsstring;
}.

Definition resolveMember (env : Env) (m : RawMember) : jsstring :=
  match truthy_str (rm_number m) with
  | Some number => number
  | None =>
      match truthy_str (rm_uuid m) with
      | Some uuid => or_default (lookupSenderName env uuid) uuid
      | None => js "unknown"
      end
  end.

(** The body of the loop of [fetchGroupMetadata]. *)
Definition storeGroup (env : Env) (groupMetadata : gmap (list N) SignalGroupMetadata)
    (group : RawGroup) : gmap (list N) SignalGroupMetadata :=
  let name := or_default (rg_name group) [] in
  match truthy_str (rg_id group) with
  | None => groupMetadata
  | Some id =>
      let jid := js "signal:" ++ id in
      let description := or_default (rg_description group) [] in
      let members := default [] (map (resolveMember env) <$> rg_members group) in
      let admins := default [] (map (resolveMember env) <$> rg_admins group) in
      <[jid := mkSignalGroupMetadata id name description members admins]> groupMetadata
  end.

(** [fetchGroupMetadata] once its [listGroups] call has resolved; [result] is
    [None] when the answer is not an array. *)
Definition fetchGroupMetadata (env : Env) (result : option (list RawGroup))
    (groupMetadata : gmap (list N) SignalGroupMetadata)
  : gmap (list N) SignalGroupMetadata :=
  match result with
  | None => groupMetadata
  | Some groups => foldl (storeGroup env) groupMetadata groups
  end.

Definition getGroupMetadata (groupMetadata : gmap (list N) SignalGroupMetadata)
    (jid : jsstring) : option SignalGroupMetadata :=
  groupMetadata !! jid.

(** An attachment at which the loop of [processMessage] awaits: an audio
    file is transcribed, an image is optimized. *)
Definition awaited (att : Attachment) : bool :=
  startsWith (contentType att) (js "audio/")
  || startsWith (contentType att) (js "image/").

(** ** The earlier decoder

    [processMessage] before voice transcription: every located attachment is
    announced and passed on. *)

Definition buildContent_earlier (msg : Inbound)
    (attachments : option (list Attachment)) (quote : option Quote)
    (reaction : option Reaction) : jsstring :=
  let parts :=
    match in_message msg with
    | Some m => if truthy m then [m] else []
    | None => []
    end in
  let parts := parts ++ option_list (quotePart <$> quote) in
  let parts := parts ++ option_list (reactionPart <$> reaction) in
  let parts :=
    match attachments with
    | Some atts =>
        foldl (λ parts att,
                 let label := or_default (filename att) (contentType att) in
                 parts ++ [js "[attachment: " ++ label ++ js " " ++ [0x2192%N] ++ js " "
                           ++ containerPath att ++ js "]"])
              parts atts
    | None => parts
    end in
  join newline parts.

Definition processMessage_earlier (env : Env) (msg : Inbound) (st : Channel) : Channel :=
  match chatJidOf msg with
  | None => st
  | Some (chatJid, isGroup) =>
      match isoTimestampOf env msg with
      | Throws => st
      | Returns isoTimestamp =>
          if isChatIdCommand env msg then
            snd (sendChatIdResponse chatJid st)
          else
            let groupName := in_groupInfo msg ≫= groupName in
            let st := call_handler
                        (OnChatMetadata chatJid isoTimestamp groupName (js "signal") isGroup)
                        st in
            if negb (registeredGroups env chatJid) then st
            else
              let attachments := buildAttachments env msg in
              let quote := buildQuote env msg in
              match buildReaction env msg with
              | Throws => st
              | Returns reaction =>
                  let content := buildContent_earlier msg attachments quote reaction in
                  if negb (truthy (trim content)) then st
                  else
                    call_handler
                      (OnMessage chatJid
                         (mkNewMessage
                            (js "signal-"
                             ++ decimal (default (now_forwarded env)
                                                 (truthy_num (in_timestamp msg))))
                            chatJid
                            (or_default (sourceId msg) [])
                            (in_sourceName msg)
                            content
                            isoTimestamp
                            (isFromMe msg)
                            (isFromMe msg)
                            attachments
                            quote
                            reaction))
                      st
              end
      end
  end.

(** ** The channel with its reader, its timers and its cache

    The fields of [SignalChannel] the handlers above work on, and what can
    happen to them between two turns of the event loop. *)

Record World := mkWorld {
  chan : Channel;
  stdoutBuffer : jsstring;
  typing : Typing;
  groupMetadata : gmap (list N) SignalGroupMetadata;
}.

Definition new_world : World := mkWorld new_channel [] no_typing ∅.

Inductive Action :=
  | Act (ev : Event)
  | Data (chunk : jsstring)                   (* the 'data' event of stdout *)
  | SetTyping (jid : jsstring) (isTyping : bool)
  | TypingTick (handle : nat)                 (* a resend interval fires *)
  | TypingCeiling (handle : nat)              (* a safety timeout fires *)
  | Response (msg : RpcMessage)               (* handleJsonRpcMessage *)
  | FlushQueue                                (* flushOutgoingQueue is called *)
  | FlushResolved                             (* its awaited send resolved *)
  | FlushRejected                             (* its awaited send rejected *)
  | GroupsListed (result : option (list RawGroup))  (* the answer to listGroups *)
  (* rpcCall, as waitForHealth and fetchGroupMetadata make it *)
  | Call (method : jsstring) (params : list (jsstring * json)).

Definition wstep (parse : jsstring → option RpcMessage) (jtrue : json) (env : Env)
    (w : World) (a : Action) : World :=
  match a with
  | Act Disconnect =>
      mkWorld (disconnect (chan w)) [] (clearAllTyping (typing w)) (groupMetadata w)
  | Act ev =>
      mkWorld (step env (chan w) ev) (stdoutBuffer w) (typing w) (groupMetadata w)
  | Data chunk =>
      let bst := onStdoutData parse env chunk (stdoutBuffer w, chan w) in
      mkWorld (snd bst) (fst bst) (typing w) (groupMetadata w)
  | SetTyping jid isTyping =>
      let ts := setTyping jtrue jid isTyping (typing w, chan w) in
      mkWorld (snd ts) (stdoutBuffer w) (fst ts) (groupMetadata w)
  | TypingTick handle =>
      let ts := typingTick handle (typing w, chan w) in
      mkWorld (snd ts) (stdoutBuffer w) (fst ts) (groupMetadata w)
  | TypingCeiling handle =>
      let ts := typingCeiling handle (typing w, chan w) in
      mkWorld (snd ts) (stdoutBuffer w) (fst ts) (groupMetadata w)
  | Response msg =>
      mkWorld (snd (handleJsonRpcMessage env msg (chan w)))
              (stdoutBuffer w) (typing w) (groupMetadata w)
  | FlushQueue =>
      mkWorld (snd (flushOutgoingQueue (chan w)))
              (stdoutBuffer w) (typing w) (groupMetadata w)
  | FlushResolved =>
      mkWorld (snd (flush_resolved (chan w)))
              (stdoutBuffer w) (typing w) (groupMetadata w)
  | FlushRejected =>
      mkWorld (flush_rejected (chan w))
              (stdoutBuffer w) (typing w) (groupMetadata w)
  | GroupsListed result =>
      mkWorld (chan w) (stdoutBuffer w) (typing w)
              (fetchGroupMetadata env result (groupMetadata w))
  | Call method params =>
      mkWorld (snd (rpcCall method params (chan w)))
              (stdoutBuffer w) (typing w) (groupMetadata w)
  end.

Definition wrun (parse : jsstring → option RpcMessage) (jtrue : json) (env : Env)
    (acts : list Action) (w : World) : World :=
  foldl (wstep parse jtrue env) w acts.

(** ** Notions the properties of the handlers are stated with *)

(** The keys of the correlation table are identifiers the counter has
    passed, and there are at most [MAX_PENDING_RPC] of them. *)
Definition rpc_ok (st : Channel) : Prop :=
  size (pendingRpc st) ≤ MAX_PENDING_RPC
  ∧ ∀ id, is_Some (pendingRpc st !! id) →
          ∃ k, (k ≤ rpcIdCounter st)%Z ∧ id = js "rpc-" ++ decimal k.

(** How [rpcSend] addresses a target. *)
Definition addressOf (target : jsstring) : jsstring * json :=
  if startsWith target (js "+") || is_uuid target
  then (js "recipient", JArr [target])
  else (js "groupId", JStr target).

(** The parameters [rpcSend] hands to [rpcCall]. *)
Definition sendParams (item : Queued) : list (jsstring * json) :=
  [(js "message", JStr (q_body item)); addressOf (stripSignal (jid item))]
  ++ match q_attachments item with
     | Some (a :: l) => [(js "attachment", JArr (a :: l))]
     | _ => []
     end.

(** A successful response to the call [id]. *)
Definition okResponse (id : jsstring) : RpcMessage :=
  mkRpcMessage (Some id) false None None.

(** A flush in which every send is answered by a successful response before
    anything else happens; [r] is what the flush has returned so far. *)
Fixpoint flushAnswered (env : Env) (fuel : nat) (r : option RpcOutcome * Channel)
  : Channel :=
  match r with
  | (Some (Pending id), st) =>
      match fuel with
      | 0 => st
      | S fuel' =>
          flushAnswered env fuel'
            (flush_resolved (snd (handleJsonRpcMessage env (okResponse id) st)))
      end
  | (Some (Rejected _), st) => flush_rejected st
  | (None, st) => st
  end.

(** The messages handed to [sendMessage] one after the other. *)
Definition sendAll (items : list Queued) (st : Channel) : Channel :=
  foldl (λ st item, snd (sendMessage (jid item) (q_body item) (q_attachments item) st))
        st items.

(** The name a mention is shown with. *)
Definition mentionName (env : Env) (m : Mention) : jsstring :=
  if decide (m_number m = Some (SIGNAL_PHONE_NUMBER env))
  then ASSISTANT_NAME env
  else or_default (m_name m) (or_default (m_number m) (js "unknown")).

(** A text in which every mention, a placeholder of one code unit, is
    followed by a stretch of text; the same text with the mentions shown. *)
Fixpoint placeholders (items : list (Mention * jsstring)) : jsstring :=
  match items with
  | [] => []
  | (_, seg) :: rest => SENTINEL :: seg ++ placeholders rest
  end.

Fixpoint rendered (env : Env) (items : list (Mention * jsstring)) : jsstring :=
  match items with
  | [] => []
  | (m, seg) :: rest => js "@" ++ mentionName env m ++ seg ++ rendered env rest
  end.

(** The descriptors point at their placeholders, the first one at [off]. *)
Fixpoint placed (off : Z) (items : list (Mention * jsstring)) : Prop :=
  match items with
  | [] => True
  | (m, seg) :: rest =>
      m_start m = off
      ∧ (m_length m = None ∨ m_length m = Some 0%Z ∨ m_length m = Some 1%Z)
      ∧ placed (off + 1 + Z.of_nat (length seg)) rest
  end.

(** The timers that are live are the ones the two tables hold, one interval
    and one timeout per chat at most, and a chat with a resend interval has
    a safety timeout. *)
Definition typing_ok (t : Typing) : Prop :=
  (∀ h jid, liveIntervals t !! h = Some jid ↔ typingIntervals t !! jid = Some h)
  ∧ (∀ h jid, liveTimeouts t !! h = Some jid ↔ typingTimeouts t !! jid = Some h)
  ∧ (∀ jid, is_Some (typingIntervals t !! jid) → is_Some (typingTimeouts t !! jid))
  ∧ (∀ h, is_Some (liveIntervals t !! h) ∨ is_Some (liveTimeouts t !! h)
          → h < nextTimer t).

End Signal.

(** * Properties of the text style codec *)

Module FormattingFacts.
Import Formatting.

(** ** The matcher *)

Lemma first_some_none {A B} (f : A → option B) l :
  (∀ x, x ∈ l → f x = None) → first_some f l = None.
Proof.
  induction l as [|x l IH]; intros H; simpl; [reflexivity|].
  rewrite (H x) by apply list_elem_of_here.
  apply IH. intros y Hy. apply H. apply list_elem_of_further, Hy.
Qed.

Lemma first_some_app {A B} (f : A → option B) l1 l2 :
  first_some f (l1 ++ l2) =
    match first_some f l1 with Some y => Some y | None => first_some f l2 end.
Proof.
  induction l1 as [|x l1 IH]; simpl; [reflexivity|].
  destruct (f x); [reflexivity | exact IH].
Qed.

Lemma first_some_elem {A B} (f : A → option B) l y :
  first_some f l = Some y → ∃ x, x ∈ l ∧ f x = Some y.
Proof.
  induction l as [|x l IH]; simpl; [discriminate|].
  destruct (f x) eqn:E.
  - intros [= ->]. exists x. split; [apply list_elem_of_here | exact E].
  - intros H. destruct (IH H) as (x' & Hx' & Hf).
    exists x'. split; [apply list_elem_of_further, Hx' | exact Hf].
Qed.

Lemma run_from_lookup c s k :
  k < run_from c s → ∃ d, s !! k = Some d ∧ d ≠ c.
Proof.
  revert k. induction s as [|d s IH]; intros k; simpl; [lia|].
  destruct (N.eqb d c) eqn:E; [lia|]. apply N.eqb_neq in E.
  destruct k as [|k]; simpl.
  - intros _. exists d. split; [reflexivity | exact E].
  - intros Hk. apply IH. lia.
Qed.

Lemma run_lookup c s i k :
  k < run c s i → ∃ d, s !! (i + k) = Some d ∧ d ≠ c.
Proof.
  intros Hk. unfold run in Hk. apply run_from_lookup in Hk as (d & Hd & Hne).
  rewrite lookup_drop in Hd. exists d. split; [exact Hd | exact Hne].
Qed.

Lemma run_bound c s i : i + run c s i ≤ i `max` length s.
Proof.
  unfold run.
  assert (H : ∀ l, run_from c l ≤ length l).
  { induction l as [|d l IH]; simpl; [lia|]. destruct (N.eqb d c); lia. }
  specialize (H (drop i s)). rewrite length_drop in H. lia.
Qed.

Lemma run_from_all c l t :
  Forall (λ d, d ≠ c) l →
  run_from c (l ++ t) = length l + run_from c t.
Proof.
  induction 1 as [|d l Hd _ IH]; simpl; [reflexivity|].
  apply N.eqb_neq in Hd. rewrite Hd, IH. reflexivity.
Qed.

Lemma matchFrom_head r s i c :
  head_lit r = Some c → s !! i ≠ Some c → matchFrom r s i = None.
Proof.
  induction r as [|[d | g d | P | P] r IH]; simpl; try discriminate.
  - intros [= ->] Hne. destruct (s !! i) as [x|]; [|reflexivity].
    destruct (N.eqb x c) eqn:E; [|reflexivity].
    apply N.eqb_eq in E. subst x. contradiction.
  - intros Hh Hne. destruct (behind P s i); [reflexivity | auto].
  - intros Hh Hne. destruct (ahead P s i); [reflexivity | auto].
Qed.

(** A repetition followed by its own delimiter stops at the end of the run,
    greedy or lazy. *)
Lemma matchFrom_plus g c r s i :
  head_lit r = Some c →
  matchFrom (PlusNot g c :: r) s i =
    if run c s i =? 0 then None else matchFrom r s (i + run c s i).
Proof.
  intros Hh. simpl.
  assert (Hin : ∀ k, k ∈ seq 1 (run c s i - 1) → matchFrom r s (i + k) = None).
  { intros k Hk. apply elem_of_seq in Hk.
    destruct (run_lookup c s i k) as (d & Hd & Hne); [lia|].
    apply (matchFrom_head r s (i + k) c Hh). rewrite Hd. congruence. }
  destruct (run c s i) as [|n] eqn:En; [destruct g; reflexivity|].
  simpl Nat.eqb. cbv iota.
  replace (S n - 1) with n in Hin by lia.
  rewrite seq_S. destruct g.
  - rewrite rev_app_distr. simpl.
    destruct (matchFrom r s (i + S n)); [reflexivity|].
    apply first_some_none. intros k Hk. apply Hin.
    apply list_elem_of_In. apply in_rev. apply list_elem_of_In. exact Hk.
  - rewrite first_some_app, (first_some_none _ _ Hin). simpl.
    destruct (matchFrom r s (i + S n)); reflexivity.
Qed.

Lemma matchFrom_needs r s i e :
  matchFrom r s i = Some e → needs r s i.
Proof.
  revert i. induction r as [|[d | g d | P | P] r IH]; intros i; simpl.
  - auto.
  - destruct (s !! i) as [x|]; [|discriminate].
    destruct (N.eqb x d) eqn:E; [|discriminate].
    apply N.eqb_eq in E. subst x. intros H. split; [reflexivity | apply IH, H].
  - intros H. apply first_some_elem in H as (k & Hk & _).
    destruct g.
    + apply list_elem_of_In, in_rev, in_seq in Hk. lia.
    + apply elem_of_seq in Hk. lia.
  - destruct (behind P s i); [discriminate|]. intros H. split; [reflexivity | apply IH, H].
  - destruct (ahead P s i); [discriminate|]. intros H. split; [reflexivity | apply IH, H].
Qed.

(** A match lies within the input and is at least [min_width] long. *)
Lemma matchFrom_bounds r s i e :
  matchFrom r s i = Some e → i + min_width r ≤ e ∧ e ≤ i `max` length s.
Proof.
  revert i. induction r as [|[d | g d | P | P] r IH]; intros i; simpl.
  - intros [= <-]. lia.
  - destruct (s !! i) as [x|] eqn:Hx; [|discriminate].
    destruct (N.eqb x d); [|discriminate].
    apply lookup_lt_Some in Hx. intros H. apply IH in H. lia.
  - intros H. apply first_some_elem in H as (k & Hk & Hm).
    assert (1 ≤ k ≤ run d s i).
    { destruct g; [apply list_elem_of_In, in_rev, in_seq in Hk | apply elem_of_seq in Hk];
        lia. }
    pose proof (run_bound d s i). apply IH in Hm. lia.
  - destruct (behind P s i); [discriminate|]. apply IH.
  - destruct (ahead P s i); [discriminate|]. apply IH.
Qed.

Lemma exec_bounds r s last i e :
  exec r s last = Some (i, e) →
  last ≤ i ∧ i + min_width r ≤ e ∧ e ≤ length s.
Proof.
  unfold exec. intros H. apply first_some_elem in H as (j & Hj & Hm).
  apply elem_of_seq in Hj.
  destruct (matchFrom r s j) as [e'|] eqn:E; [|discriminate].
  injection Hm as -> ->. apply matchFrom_bounds in E. lia.
Qed.

(** The loop over the matches of a pattern that consumes input ends by
    itself: more fuel than [S (length s)] changes nothing. *)
Lemma execLoop_fuel r s fuel1 fuel2 last :
  1 ≤ min_width r →
  length s < last + fuel1 → length s < last + fuel2 →
  execLoop fuel1 r s last = execLoop fuel2 r s last.
Proof.
  intros Hw. revert fuel2 last.
  induction fuel1 as [|fuel1 IH]; intros fuel2 last H1 H2.
  - destruct fuel2 as [|fuel2]; [reflexivity|]. simpl.
    destruct (exec r s last) as [[i e]|] eqn:E; [|reflexivity].
    apply exec_bounds in E. lia.
  - simpl. destruct (exec r s last) as [[i e]|] eqn:E.
    + destruct fuel2 as [|fuel2]; [apply exec_bounds in E; lia|].
      simpl. rewrite E. f_equal. apply exec_bounds in E. apply IH; lia.
    + destruct fuel2 as [|fuel2]; [reflexivity|]. simpl. rewrite E. reflexivity.
Qed.

Lemma patterns_consume : Forall (λ p, 1 ≤ min_width (re p)) patterns.
Proof. repeat constructor; simpl; lia. Qed.

Lemma execAll_fuel p s fuel :
  p ∈ patterns → length s < fuel →
  execLoop fuel (re p) s 0 = execAll (re p) s.
Proof.
  intros Hp Hf. unfold execAll. apply execLoop_fuel; [|lia..].
  pose proof patterns_consume as H.
  rewrite Forall_forall in H. apply (H p), Hp.
Qed.

Lemma exec_none r s last :
  (∀ i, matchFrom r s i = None) → exec r s last = None.
Proof.
  intros H. unfold exec. apply first_some_none. intros i _. rewrite H. reflexivity.
Qed.

Lemma execAll_none r s :
  (∀ i, matchFrom r s i = None) → execAll r s = [].
Proof.
  intros H. unfold execAll. simpl. rewrite exec_none by exact H. reflexivity.
Qed.

Lemma first_some_seq_skip {B} (f : nat → option B) a n k :
  k ≤ n → (∀ j, a ≤ j < a + k → f j = None) →
  first_some f (seq a n) = first_some f (seq (a + k) (n - k)).
Proof.
  intros Hk Hnone.
  replace n with (k + (n - k)) at 1 by lia.
  rewrite seq_app, first_some_app, first_some_none; [reflexivity|].
  intros j Hj. apply elem_of_seq in Hj. apply Hnone. lia.
Qed.

(** A pattern with one match only, from [a] to the end of the input. *)
Lemma execAll_one r s a :
  a < length s →
  matchFrom r s a = Some (length s) →
  (∀ i, i ≠ a → matchFrom r s i = None) →
  execAll r s = [(a, length s)].
Proof.
  intros Ha Hm Hnone. unfold execAll.
  destruct (length s) as [|n] eqn:Hlen; [lia|].
  cbn [execLoop].
  assert (H1 : exec r s 0 = Some (a, S n)).
  { unfold exec. rewrite Hlen.
    rewrite (first_some_seq_skip _ 0 (S (S n) - 0) a).
    - replace (S (S n) - 0 - a) with (S (S n - a)) by lia. simpl.
      rewrite Hm. reflexivity.
    - lia.
    - intros j Hj. rewrite Hnone by lia. reflexivity. }
  rewrite H1.
  assert (H2 : exec r s (S n) = None).
  { unfold exec. rewrite Hlen. replace (S (S n) - S n) with 1 by lia. simpl.
    rewrite Hnone by lia. reflexivity. }
  rewrite H2. reflexivity.
Qed.

(** ** The tests of the repository

    The cases of the test file of [parseSignalStyles], run on the model. *)

Example test_plain :
  parseSignalStyles (js "hello world") = mkStyledText (js "hello world") [].
Proof. vm_compute. reflexivity. Qed.

Example test_empty : parseSignalStyles [] = mkStyledText [] [].
Proof. reflexivity. Qed.

Example test_bold :
  parseSignalStyles (js "hello *world*")
  = mkStyledText (js "hello world") [mkTextStyle BOLD 6 5].
Proof. vm_compute. reflexivity. Qed.

Example test_italic :
  parseSignalStyles (js "hello _world_")
  = mkStyledText (js "hello world") [mkTextStyle ITALIC 6 5].
Proof. vm_compute. reflexivity. Qed.

Example test_code :
  parseSignalStyles (js "run `npm test` now")
  = mkStyledText (js "run npm test now") [mkTextStyle MONOSPACE 4 8].
Proof. vm_compute. reflexivity. Qed.

Example test_strikethrough :
  parseSignalStyles (js "this is ~~wrong~~ right")
  = mkStyledText (js "this is wrong right") [mkTextStyle STRIKETHROUGH 8 5].
Proof. vm_compute. reflexivity. Qed.

Example test_several_styles :
  parseSignalStyles (js "*bold* and _italic_ and `code`")
  = mkStyledText (js "bold and italic and code")
      [mkTextStyle BOLD 0 4; mkTextStyle ITALIC 9 6; mkTextStyle MONOSPACE 20 4].
Proof. vm_compute. reflexivity. Qed.

Example test_double_asterisks :
  parseSignalStyles (js "**not bold**") = mkStyledText (js "**not bold**") [].
Proof. vm_compute. reflexivity. Qed.

Example test_snake_case :
  parseSignalStyles (js "some_var_name") = mkStyledText (js "some_var_name") [].
Proof. vm_compute. reflexivity. Qed.

Example test_unmatched :
  parseSignalStyles (js "hello *world") = mkStyledText (js "hello *world") [].
Proof. vm_compute. reflexivity. Qed.

Example test_backtick_protects :
  parseSignalStyles (js "`*not bold*`")
  = mkStyledText (js "*not bold*") [mkTextStyle MONOSPACE 0 10].
Proof. vm_compute. reflexivity. Qed.

Example test_emoji :
  parseSignalStyles (party_popper ++ js " *bold*")
  = mkStyledText (party_popper ++ js " bold") [mkTextStyle BOLD 3 4].
Proof. vm_compute. reflexivity. Qed.

Example test_two_bold :
  parseSignalStyles (js "*one* and *two*")
  = mkStyledText (js "one and two") [mkTextStyle BOLD 0 3; mkTextStyle BOLD 8 3].
Proof. vm_compute. reflexivity. Qed.

Example test_adjacent :
  parseSignalStyles (js "*bold*_italic_")
  = mkStyledText (js "bolditalic") [mkTextStyle BOLD 0 4; mkTextStyle ITALIC 4 6].
Proof. vm_compute. reflexivity. Qed.

Example test_inner_underscores :
  parseSignalStyles (js "_a_b_") = mkStyledText (js "_a_b_") [].
Proof. vm_compute. reflexivity. Qed.

Example test_single_tilde :
  parseSignalStyles (js "this is ~wrong~ right")
  = mkStyledText (js "this is wrong right") [mkTextStyle STRIKETHROUGH 8 5].
Proof. vm_compute. reflexivity. Qed.

Example test_spoiler :
  parseSignalStyles (js "the answer is ||42||")
  = mkStyledText (js "the answer is 42") [mkTextStyle SPOILER 14 2].
Proof. vm_compute. reflexivity. Qed.

(** ** Well-formed spans *)

Lemma strip_step_ok mk acc ic :
  indexMap_ok acc → indexMap_ok (strip_step mk acc ic).
Proof.
  intros Hok v. unfold strip_step. destruct (decide (fst ic ∈ mk)); simpl.
  - intros [Hv|Hv]%elem_of_app; [apply Hok, Hv|].
    apply list_elem_of_singleton in Hv. left. exact Hv.
  - rewrite length_app. simpl.
    intros [Hv|Hv]%elem_of_app.
    + destruct (Hok v Hv) as [->|Hr]; [left; reflexivity | right; lia].
    + apply list_elem_of_singleton in Hv. right. lia.
Qed.

Lemma strip_ok input mk : indexMap_ok (strip input mk).
Proof.
  unfold strip.
  assert (Hgen : ∀ l acc, indexMap_ok acc → indexMap_ok (foldl (strip_step mk) acc l)).
  { induction l as [|ic l IH]; intros acc Hacc; simpl; [exact Hacc|].
    apply IH, strip_step_ok, Hacc. }
  apply Hgen. intros v Hv. inversion Hv.
Qed.

Lemma lastContent_found indexMap openEnd k j :
  lastContent indexMap openEnd k = Some j → openEnd ≤ j < k.
Proof.
  induction k as [|k IH]; simpl; [discriminate|].
  destruct (k <? openEnd) eqn:E; [discriminate|].
  apply Nat.ltb_ge in E.
  destruct (indexMap !! k) as [[| |[]]|];
    try (intros [= <-]; lia); intros H; apply IH in H; lia.
Qed.

Lemma spanOf_wf indexMap out m ts :
  indexMap_ok (indexMap, out) →
  spanOf indexMap m = Some ts →
  (1 ≤ length_ ts)%Z ∧ (0 ≤ start ts)%Z
  ∧ (start ts + length_ ts ≤ Z.of_nat (length out))%Z
  ∧ style ts = mstyle m.
Proof.
  intros Hok. unfold spanOf.
  destruct (lastContent indexMap (openEnd m) (closeStart m)) as [j|]; [|discriminate].
  destruct (indexMap !! openEnd m) as [s|] eqn:Hs; [|discriminate].
  destruct (indexMap !! j) as [v|] eqn:Hv; [|discriminate].
  destruct (s =? -1)%Z eqn:Es; [discriminate|].
  destruct (0 <? v + 1 - s)%Z eqn:El; [|discriminate].
  intros [= <-]. simpl.
  apply Z.eqb_neq in Es. apply Z.ltb_lt in El.
  apply list_elem_of_lookup_2 in Hs, Hv.
  destruct (Hok s Hs) as [?|Hsr]; [contradiction|].
  destruct (Hok v Hv) as [->|Hvr]; simpl in *; [lia|].
  repeat split; lia.
Qed.

Lemma insert_by_start_elem x y l :
  x ∈ insert_by_start y l ↔ x = y ∨ x ∈ l.
Proof.
  induction l as [|z l IH]; simpl.
  - rewrite list_elem_of_singleton. rewrite elem_of_nil. tauto.
  - destruct (start y <=? start z)%Z.
    + rewrite elem_of_cons. tauto.
    + rewrite !elem_of_cons, IH. tauto.
Qed.

Lemma sort_by_start_elem x l : x ∈ sort_by_start l ↔ x ∈ l.
Proof.
  induction l as [|y l IH]; simpl; [tauto|].
  rewrite insert_by_start_elem, elem_of_cons, IH. tauto.
Qed.

(** C9. Every span that [parseSignalStyles] returns is well-formed over the
    stripped text it returns: the length is at least 1, the start at least 0,
    and the span ends within the text (in UTF-16 code units). *)
Theorem parseSignalStyles_spans_wf input ts :
  ts ∈ textStyle (parseSignalStyles input) →
  (1 ≤ length_ ts)%Z ∧ (0 ≤ start ts)%Z
  ∧ (start ts + length_ ts ≤ Z.of_nat (length (text (parseSignalStyles input))))%Z.
Proof.
  unfold parseSignalStyles.
  destruct (negb (truthy input)); [intros H; inversion H|].
  destruct (matches (collect input)) as [|m0 ms] eqn:Hm;
    [intros H; inversion H|].
  pose proof (strip_ok input (markers (collect input))) as Hok.
  destruct (strip input (markers (collect input))) as [indexMap out].
  cbn [textStyle text].
  intros Hin. apply (proj1 (sort_by_start_elem _ _)) in Hin.
  apply (proj1 (list_elem_of_omap _ _ _)) in Hin as (m & _ & Hspan).
  destruct (spanOf_wf indexMap out m ts Hok Hspan) as (H1 & H2 & H3 & _).
  auto.
Qed.

Lemma parseSignalStyles_spans_wf_witness :
  mkTextStyle BOLD 6 5 ∈ textStyle (parseSignalStyles (js "hello *world*"))
  ∧ (1 ≤ 5)%Z ∧ (0 ≤ 6)%Z
  ∧ (6 + 5 ≤ Z.of_nat (length (text (parseSignalStyles (js "hello *world*")))))%Z.
Proof.
  assert (Hin : mkTextStyle BOLD 6 5 ∈ textStyle (parseSignalStyles (js "hello *world*"))).
  { vm_compute. apply list_elem_of_here. }
  split; [exact Hin|].
  exact (parseSignalStyles_spans_wf (js "hello *world*") (mkTextStyle BOLD 6 5) Hin).
Defined.

(** ** Code spans protect their indices *)

Lemma elem_of_add_range a b s i :
  i ∈ add_range a b s ↔ a ≤ i < b ∨ i ∈ s.
Proof.
  unfold add_range.
  assert (Hgen : ∀ (l : list nat) (s : gset nat),
            i ∈ foldl (λ acc j, {[j]} ∪ acc) s l ↔ i ∈ l ∨ i ∈ s).
  { induction l as [|j l IH]; intros s0; simpl.
    - rewrite elem_of_nil. tauto.
    - rewrite IH, elem_of_cons, elem_of_union, elem_of_singleton. tauto. }
  rewrite Hgen, elem_of_seq. split; intros [H|H]; auto; left; lia.
Qed.

Lemma overlaps_false a b st i :
  overlaps a b st = false → a ≤ i < b → ¬ claimed st i.
Proof.
  unfold overlaps. intros Hex Hi Hcl.
  assert (Hin : existsb (λ j, bool_decide (j ∈ markers st)
                               || bool_decide (j ∈ protected_ st))
                        (seq a (b - a)) = true); [|congruence].
  apply existsb_exists. exists i. split.
  - apply in_seq. lia.
  - destruct Hcl as [H|H].
    + rewrite (bool_decide_eq_true_2 _ H). reflexivity.
    + rewrite (bool_decide_eq_true_2 _ H). apply orb_true_r.
Qed.

Lemma consider_claimed p st c i :
  claimed st i → claimed (consider p st c) i.
Proof.
  unfold consider. destruct (overlaps _ _ st); [tauto|].
  unfold claimed. simpl. rewrite !elem_of_add_range.
  destruct (decide (pstyle p = MONOSPACE)); [rewrite elem_of_add_range|]; tauto.
Qed.

Lemma consider_code p st c :
  pstyle p = MONOSPACE →
  only_code st ∧ code_claimed st →
  only_code (consider p st c) ∧ code_claimed (consider p st c).
Proof.
  intros Hp [Honly Hcl]. unfold consider.
  destruct (overlaps _ _ st) eqn:Hov; [tauto|]. split.
  - intros m [Hm|Hm]%elem_of_app; [apply Honly, Hm|].
    apply list_elem_of_singleton in Hm. subst m. exact Hp.
  - intros m i [Hm|Hm]%elem_of_app Hs Hc.
    + pose proof (consider_claimed p st c i (Hcl m i Hm Hs Hc)) as Hcl'.
      unfold consider in Hcl'. rewrite Hov in Hcl'. exact Hcl'.
    + apply list_elem_of_singleton in Hm. subst m. unfold covers in Hc. simpl in Hc.
      unfold claimed. simpl. rewrite !elem_of_add_range.
      destruct (decide (pstyle p = MONOSPACE)); [|contradiction].
      rewrite elem_of_add_range. lia.
Qed.

Lemma only_code_disjoint st : only_code st → code_disjoint st.
Proof. intros Honly m m' i _ Hm' _ Hne. destruct Hne. apply Honly, Hm'. Qed.

Lemma consider_other p st c :
  pstyle p ≠ MONOSPACE →
  code_claimed st ∧ code_disjoint st →
  code_claimed (consider p st c) ∧ code_disjoint (consider p st c).
Proof.
  intros Hp [Hcl Hdis].
  destruct (overlaps (fst c) (fst c + (snd c - fst c)) st) eqn:Hov.
  { unfold consider. rewrite Hov. tauto. }
  assert (Hold : ∀ m, m ∈ matches (consider p st c) →
                      mstyle m = MONOSPACE → m ∈ matches st).
  { unfold consider. rewrite Hov. simpl.
    intros m [Hm|Hm]%elem_of_app Hs; [exact Hm|].
    apply list_elem_of_singleton in Hm. subst m. contradiction. }
  split.
  - intros m i Hm Hs Hc. apply consider_claimed.
    apply (Hcl m i); auto.
  - intros m m' i Hm Hm' Hs Hs' Hc.
    apply Hold in Hm; [|exact Hs].
    unfold consider in Hm'. rewrite Hov in Hm'. simpl in Hm'.
    apply elem_of_app in Hm' as [Hm'|Hm'].
    + apply (Hdis m m' i); auto.
    + apply list_elem_of_singleton in Hm'. subst m'.
      unfold covers. simpl. intros Hi.
      apply (overlaps_false _ _ st i Hov Hi). apply (Hcl m i); auto.
Qed.

Lemma foldl_preserves {A B} (P : A → Prop) (f : A → B → A) l a :
  (∀ a b, P a → P (f a b)) → P a → P (foldl f a l).
Proof.
  intros Hf. revert a. induction l as [|b l IH]; intros a Ha; simpl; auto.
Qed.

Lemma collect_code_disjoint input : code_disjoint (collect input).
Proof.
  unfold collect, patterns. cbn [foldl].
  match goal with |- code_disjoint (runPattern _ (runPattern _ (runPattern _
      (runPattern _ (runPattern _ (runPattern _ ?st0 ?p1) ?p2) ?p3) ?p4) ?p5) ?p6) =>
    assert (H1 : only_code (runPattern input st0 p1)
                 ∧ code_claimed (runPattern input st0 p1))
  end.
  { apply (foldl_preserves (λ st, only_code st ∧ code_claimed st)).
    - intros st c. apply consider_code. reflexivity.
    - split; intros m; simpl; intros; exfalso; eapply not_elem_of_nil; eauto. }
  assert (Hstep : ∀ st p, pstyle p ≠ MONOSPACE →
            code_claimed st ∧ code_disjoint st →
            code_claimed (runPattern input st p) ∧ code_disjoint (runPattern input st p)).
  { intros st p Hp. apply (foldl_preserves (λ st, code_claimed st ∧ code_disjoint st)).
    intros st' c. apply consider_other, Hp. }
  destruct H1 as [Honly Hcl].
  apply Hstep; [discriminate|].
  apply Hstep; [discriminate|].
  apply Hstep; [discriminate|].
  apply Hstep; [discriminate|].
  apply Hstep; [discriminate|].
  split; [exact Hcl | apply only_code_disjoint, Honly].
Qed.

(** C4. No index that a code span claims, delimiter or interior, lies in an
    accepted match of another style; and the input made of a backtick, an
    asterisk, x, an asterisk and a backtick yields the text of the three inner
    characters with the single span MONOSPACE 0 3. *)
Theorem code_span_protects_interior :
  (∀ input m m' i,
      m ∈ matches (collect input) → m' ∈ matches (collect input) →
      mstyle m = MONOSPACE → mstyle m' ≠ MONOSPACE →
      covers m i → ¬ covers m' i)
  ∧ parseSignalStyles (js "`*x*`")
    = mkStyledText (js "*x*") [mkTextStyle MONOSPACE 0 3].
Proof.
  split.
  - intros input. apply collect_code_disjoint.
  - vm_compute. reflexivity.
Qed.

Lemma code_span_protects_interior_witness :
  matches (collect (js "`a` *b*"))
    = [mkMarkerMatch 0 1 2 3 MONOSPACE; mkMarkerMatch 4 5 6 7 BOLD]
  ∧ ¬ covers (mkMarkerMatch 4 5 6 7 BOLD) 1.
Proof.
  assert (Hm : matches (collect (js "`a` *b*"))
               = [mkMarkerMatch 0 1 2 3 MONOSPACE; mkMarkerMatch 4 5 6 7 BOLD]).
  { vm_compute. reflexivity. }
  split; [exact Hm|].
  destruct code_span_protects_interior as [H _].
  apply (H (js "`a` *b*") (mkMarkerMatch 0 1 2 3 MONOSPACE)).
  - rewrite Hm. apply list_elem_of_here.
  - rewrite Hm. apply list_elem_of_further, list_elem_of_here.
  - reflexivity.
  - discriminate.
  - unfold covers. simpl. lia.
Defined.

(** ** Stripping block by block *)

Lemma strip_app mk b acc l1 l2 :
  foldl (strip_step mk) acc (zip (seq b (length (l1 ++ l2))) (l1 ++ l2)) =
  foldl (strip_step mk)
        (foldl (strip_step mk) acc (zip (seq b (length l1)) l1))
        (zip (seq (b + length l1) (length l2)) l2).
Proof.
  rewrite length_app, seq_app, zip_with_app by apply length_seq.
  apply foldl_app.
Qed.

(** A block none of whose indices is a marker is copied to the output. *)
Lemma strip_keep mk l b im out :
  (∀ i, b ≤ i < b + length l → i ∉ mk) →
  foldl (strip_step mk) (im, out) (zip (seq b (length l)) l) =
    (im ++ (Z.of_nat <$> seq (length out) (length l)), out ++ l).
Proof.
  revert b im out. induction l as [|x l IH]; intros b im out Hk; simpl.
  - rewrite !app_nil_r. reflexivity.
  - unfold strip_step at 2. simpl fst. simpl snd.
    rewrite decide_False by (apply Hk; simpl; lia).
    rewrite IH by (intros i Hi; apply Hk; simpl; lia).
    rewrite length_app. simpl length.
    replace (length out + 1) with (S (length out)) by lia.
    rewrite <- !app_assoc. reflexivity.
Qed.

(** A block of markers leaves the output as it is. *)
Lemma strip_drop mk l b im out :
  (∀ i, b ≤ i < b + length l → i ∈ mk) →
  foldl (strip_step mk) (im, out) (zip (seq b (length l)) l) =
    (im ++ replicate (length l) (-1)%Z, out).
Proof.
  revert b im. induction l as [|x l IH]; intros b im Hk; simpl.
  - rewrite app_nil_r. reflexivity.
  - unfold strip_step at 2. simpl fst. simpl snd.
    rewrite decide_True by (apply Hk; simpl; lia).
    rewrite IH by (intros i Hi; apply Hk; simpl; lia).
    rewrite <- app_assoc. reflexivity.
Qed.

Lemma lastContent_hit im openEnd j v :
  openEnd ≤ j → im !! j = Some v → v ≠ (-1)%Z →
  lastContent im openEnd (S j) = Some j.
Proof.
  intros Hj Hv Hne. simpl.
  destruct (j <? openEnd) eqn:E; [apply Nat.ltb_lt in E; lia|].
  rewrite Hv. destruct v as [|q|q]; try reflexivity.
  destruct q; try reflexivity. contradiction.
Qed.

Lemma existsb_false {A} (f : A → bool) l :
  (∀ x, f x = false) → existsb f l = false.
Proof.
  intros H. induction l as [|x l IH]; simpl; [reflexivity|].
  rewrite H, IH. reflexivity.
Qed.

Lemma overlaps_empty x y l : overlaps x y (mkClaimed l ∅ ∅) = false.
Proof.
  unfold overlaps. apply existsb_false. intros i. simpl.
  rewrite !bool_decide_eq_false_2 by apply not_elem_of_empty. reflexivity.
Qed.

(** The patterns before and after the one that matches find nothing. *)
Lemma collect_one input ps1 p ps2 m :
  patterns = ps1 ++ p :: ps2 →
  Forall (λ q, execAll (re q) input = []) ps1 →
  Forall (λ q, execAll (re q) input = []) ps2 →
  execAll (re p) input = [m] →
  collect input = consider p (mkClaimed [] ∅ ∅) m.
Proof.
  intros Hps H1 H2 Hm. unfold collect. rewrite Hps, foldl_app. simpl.
  assert (Hid : ∀ ps st, Forall (λ q, execAll (re q) input = []) ps →
                         foldl (runPattern input) st ps = st).
  { induction ps as [|q ps IH]; intros st Hf; simpl; [reflexivity|].
    inversion Hf as [|? ? Hq Hrest]; subst.
    unfold runPattern at 2. rewrite Hq. simpl. apply IH, Hrest. }
  rewrite (Hid ps1) by exact H1.
  unfold runPattern at 2. rewrite Hm. simpl.
  apply Hid, H2.
Qed.

(** ** One marker pair at the end of an input

    The input [pre ++ delimiter ++ content ++ delimiter], where the delimiter
    is [ml] copies of [c] and neither [pre] nor [content] holds a [c]. *)

Lemma matchFrom_Lit c r s i :
  s !! i = Some c → matchFrom (Lit c :: r) s i = matchFrom r s (S i).
Proof. intros H. simpl. rewrite H, N.eqb_refl. reflexivity. Qed.

Lemma matchFrom_NotBehind P r s i :
  behind P s i = false → matchFrom (NotBehind P :: r) s i = matchFrom r s i.
Proof. intros H. simpl. rewrite H. reflexivity. Qed.

Lemma matchFrom_NotAhead P r s i :
  ahead P s i = false → matchFrom (NotAhead P :: r) s i = matchFrom r s i.
Proof. intros H. simpl. rewrite H. reflexivity. Qed.

Lemma is_ch_true k d : is_ch k d = true ↔ d = ch k.
Proof. unfold is_ch. apply N.eqb_eq. Qed.

Lemma behind_is_ch k s i :
  behind (is_ch k) s i = false ↔ ∀ j, i = S j → s !! j ≠ Some (ch k).
Proof.
  unfold behind. destruct i as [|j]; [split; [intros _ j; lia | reflexivity]|].
  destruct (s !! j) as [d|] eqn:E.
  - split.
    + intros H j' [= <-]. rewrite E. intros [= ->].
      rewrite (proj2 (is_ch_true k (ch k)) eq_refl) in H. discriminate.
    + intros H. destruct (is_ch k d) eqn:Ed; [|reflexivity].
      apply is_ch_true in Ed. subst d. destruct (H j eq_refl). exact E.
  - split; [intros _ j' [= <-]; rewrite E; discriminate | reflexivity].
Qed.

Lemma ahead_is_ch k s i :
  ahead (is_ch k) s i = false ↔ s !! i ≠ Some (ch k).
Proof.
  unfold ahead. destruct (s !! i) as [d|] eqn:E.
  - split.
    + intros H [= ->]. rewrite (proj2 (is_ch_true k (ch k)) eq_refl) in H. discriminate.
    + intros H. destruct (is_ch k d) eqn:Ed; [|reflexivity].
      apply is_ch_true in Ed. subst d. contradiction.
  - split; [discriminate | reflexivity].
Qed.

Section OnePair.
Variable k : ascii.
Variable ml : nat.
Variables pre content : jsstring.

Local Abbreviation c := (ch k).
Local Abbreviation a := (length pre).
Local Abbreviation n := (length content).
Local Abbreviation s := (pre ++ replicate ml (ch k) ++ content ++ replicate ml (ch k)).

Hypothesis pre_free : Forall (λ d, d ≠ c) pre.
Hypothesis content_free : Forall (λ d, d ≠ c) content.
Hypothesis content_nonempty : content ≠ [].

Lemma pair_n_pos : 1 ≤ n.
Proof using pre_free content_free content_nonempty.
  destruct content; [contradiction | simpl; lia].
Qed.

Lemma pair_length : length s = a + ml + n + ml.
Proof using pre_free content_free content_nonempty. rewrite !length_app, !length_replicate. lia. Qed.

(** Where each index of the input falls. *)
Lemma pair_classify i :
  (i < a ∧ ∃ d, s !! i = Some d ∧ d ≠ c ∧ pre !! i = Some d)
  ∨ (a ≤ i < a + ml ∧ s !! i = Some c)
  ∨ (a + ml ≤ i < a + ml + n ∧ ∃ d, s !! i = Some d ∧ d ≠ c)
  ∨ (a + ml + n ≤ i < a + ml + n + ml ∧ s !! i = Some c)
  ∨ (a + ml + n + ml ≤ i ∧ s !! i = None).
Proof.
  destruct (decide (i < length pre)) as [H1|H1].
  { left. split; [exact H1|].
    destruct (lookup_lt_is_Some_2 pre i H1) as [d Hd].
    exists d. rewrite lookup_app_l by exact H1.
    split; [exact Hd|]. split; [|exact Hd].
    rewrite Forall_forall in pre_free. apply pre_free.
    apply list_elem_of_lookup_2 in Hd. exact Hd. }
  right. rewrite lookup_app_r by lia.
  destruct (decide (i < length pre + ml)) as [H2|H2].
  { left. split; [lia|].
    rewrite lookup_app_l by (rewrite length_replicate; lia).
    apply lookup_replicate_2. lia. }
  right. rewrite lookup_app_r by (rewrite length_replicate; lia).
  rewrite length_replicate.
  destruct (decide (i < length pre + ml + length content)) as [H3|H3].
  { left. split; [lia|].
    rewrite lookup_app_l by lia.
    destruct (lookup_lt_is_Some_2 content (i - length pre - ml)) as [d Hd]; [lia|].
    exists d. split; [exact Hd|].
    rewrite Forall_forall in content_free. apply content_free.
    apply list_elem_of_lookup_2 in Hd. exact Hd. }
  right. rewrite lookup_app_r by lia.
  destruct (decide (i < length pre + ml + length content + ml)) as [H4|H4].
  - left. split; [lia|]. apply lookup_replicate_2. lia.
  - right. split; [lia|]. apply lookup_replicate_None. lia.
Qed.

Lemma pair_at_c i :
  s !! i = Some c ↔ a ≤ i < a + ml ∨ a + ml + n ≤ i < a + ml + n + ml.
Proof using pre_free content_free content_nonempty.
  destruct (pair_classify i)
    as [(H & d & Hd & Hne & _)|[(H & Hd)|[(H & d & Hd & Hne)|[(H & Hd)|(H & Hd)]]]];
    rewrite Hd; split; try (intros [= ->]); try contradiction; try lia;
    try discriminate; reflexivity.
Qed.

Lemma pair_run_pos j :
  1 ≤ run c s j → j < a ∨ a + ml ≤ j < a + ml + n.
Proof using pre_free content_free content_nonempty.
  intros Hr. destruct (run_lookup c s j 0) as (d & Hd & Hne); [lia|].
  rewrite Nat.add_0_r in Hd.
  destruct (pair_classify j)
    as [(H & _)|[(H & Hc)|[(H & _)|[(H & Hc)|(H & Hc)]]]];
    try lia; rewrite Hc in Hd; congruence.
Qed.

Lemma pair_run_content : run c s (a + ml) = n.
Proof using pre_free content_free content_nonempty.
  unfold run.
  rewrite drop_app_ge by lia.
  rewrite drop_app_ge by (rewrite length_replicate; lia).
  rewrite length_replicate.
  replace (length pre + ml - length pre - ml) with 0 by lia.
  rewrite drop_0, run_from_all by exact content_free.
  destruct ml as [|ml']; simpl; [lia|].
  rewrite N.eqb_refl. lia.
Qed.

Lemma pair_run_end j : a + ml + n ≤ j → run c s j = 0.
Proof using pre_free content_free content_nonempty.
  intros Hj. destruct (run c s j) as [|r] eqn:E; [reflexivity|].
  destruct (pair_run_pos j); lia.
Qed.

Lemma pair_not_c i :
  ¬ (a ≤ i < a + ml ∨ a + ml + n ≤ i < a + ml + n + ml) → s !! i ≠ Some c.
Proof using pre_free content_free content_nonempty. intros H Hc. apply pair_at_c in Hc. contradiction. Qed.

(** A pattern with another delimiter finds nothing. *)
Lemma pair_other r c' i :
  head_lit r = Some c' → c' ≠ c →
  Forall (λ d, d ≠ c') pre → Forall (λ d, d ≠ c') content →
  matchFrom r s i = None.
Proof.
  intros Hh Hne Hp Hc. apply (matchFrom_head r s i c' Hh).
  intros Hl. apply list_elem_of_lookup_2 in Hl.
  rewrite Forall_forall in Hp, Hc.
  rewrite !elem_of_app, !elem_of_replicate in Hl.
  destruct Hl as [H|[[H _]|[H|[H _]]]];
    [apply (Hp _ H) | | apply (Hc _ H) |]; congruence.
Qed.

(** The greedy pattern with a delimiter of one code unit. *)
Lemma pair_single_at :
  ml = 1 → matchFrom [Lit c; PlusNot true c; Lit c] s a = Some (length s).
Proof using pre_free content_free content_nonempty.
  intros Hml. pose proof pair_n_pos as Hn.
  rewrite matchFrom_Lit by (apply pair_at_c; lia).
  rewrite matchFrom_plus by reflexivity.
  replace (S a) with (a + ml) by lia. rewrite pair_run_content.
  destruct (n =? 0) eqn:E; [apply Nat.eqb_eq in E; lia|].
  rewrite matchFrom_Lit by (apply pair_at_c; lia).
  simpl. f_equal. rewrite pair_length. lia.
Qed.

Lemma pair_single_else i :
  ml = 1 → i ≠ a → matchFrom [Lit c; PlusNot true c; Lit c] s i = None.
Proof using pre_free content_free content_nonempty.
  intros Hml Hi.
  destruct (matchFrom _ s i) as [e|] eqn:E; [|reflexivity].
  apply matchFrom_needs in E. cbn [needs] in E. destruct E as (H1 & H2).
  apply pair_at_c in H1. apply pair_run_pos in H2. lia.
Qed.

(** The greedy patterns with a delimiter of two code units. *)
Lemma pair_double_at :
  ml = 2 →
  matchFrom [Lit c; Lit c; PlusNot true c; Lit c; Lit c] s a = Some (length s).
Proof using pre_free content_free content_nonempty.
  intros Hml. pose proof pair_n_pos as Hn.
  rewrite !matchFrom_Lit by (apply pair_at_c; lia).
  rewrite matchFrom_plus by reflexivity.
  replace (S (S a)) with (a + ml) by lia. rewrite pair_run_content.
  destruct (n =? 0) eqn:E; [apply Nat.eqb_eq in E; lia|].
  rewrite !matchFrom_Lit by (apply pair_at_c; lia).
  simpl. f_equal. rewrite pair_length. lia.
Qed.

Lemma pair_double_else i :
  ml = 2 → i ≠ a →
  matchFrom [Lit c; Lit c; PlusNot true c; Lit c; Lit c] s i = None.
Proof using pre_free content_free content_nonempty.
  intros Hml Hi. pose proof pair_n_pos as Hn.
  destruct (matchFrom _ s i) as [e|] eqn:E; [|reflexivity].
  apply matchFrom_needs in E. cbn [needs] in E. destruct E as (H1 & H2 & H3).
  apply pair_at_c in H1, H2. apply pair_run_pos in H3. lia.
Qed.

Lemma pair_double_never i :
  ml = 1 →
  matchFrom [Lit c; Lit c; PlusNot true c; Lit c; Lit c] s i = None.
Proof using pre_free content_free content_nonempty.
  intros Hml. pose proof pair_n_pos as Hn.
  destruct (matchFrom _ s i) as [e|] eqn:E; [|reflexivity].
  apply matchFrom_needs in E. cbn [needs] in E. destruct E as (H1 & H2 & H3).
  apply pair_at_c in H1, H2. lia.
Qed.

(** The lazy patterns guarded against a doubled delimiter. *)
Lemma pair_guarded_at :
  ml = 1 →
  matchFrom [NotBehind (is_ch k); Lit c; NotAhead (is_ch k); PlusNot false c;
             NotBehind (is_ch k); Lit c; NotAhead (is_ch k)] s a
  = Some (length s).
Proof using pre_free content_free content_nonempty.
  intros Hml. pose proof pair_n_pos as Hn.
  rewrite matchFrom_NotBehind
    by (apply behind_is_ch; intros j Hj; apply pair_not_c; lia).
  rewrite matchFrom_Lit by (apply pair_at_c; lia).
  rewrite matchFrom_NotAhead by (apply ahead_is_ch, pair_not_c; lia).
  rewrite matchFrom_plus by reflexivity.
  replace (S a) with (a + ml) by lia. rewrite pair_run_content.
  destruct (n =? 0) eqn:E; [apply Nat.eqb_eq in E; lia|].
  rewrite matchFrom_NotBehind
    by (apply behind_is_ch; intros j Hj; apply pair_not_c; lia).
  rewrite matchFrom_Lit by (apply pair_at_c; lia).
  rewrite matchFrom_NotAhead by (apply ahead_is_ch, pair_not_c; lia).
  simpl. f_equal. rewrite pair_length. lia.
Qed.

Lemma pair_guarded_else i :
  ml = 1 → i ≠ a →
  matchFrom [NotBehind (is_ch k); Lit c; NotAhead (is_ch k); PlusNot false c;
             NotBehind (is_ch k); Lit c; NotAhead (is_ch k)] s i
  = None.
Proof using pre_free content_free content_nonempty.
  intros Hml Hi. pose proof pair_n_pos as Hn.
  destruct (matchFrom _ s i) as [e|] eqn:E; [|reflexivity].
  apply matchFrom_needs in E. cbn [needs] in E.
  destruct E as (_ & H1 & _ & H2).
  apply pair_at_c in H1. apply pair_run_pos in H2. lia.
Qed.

Lemma pair_guarded_never i :
  ml = 2 →
  matchFrom [NotBehind (is_ch k); Lit c; NotAhead (is_ch k); PlusNot false c;
             NotBehind (is_ch k); Lit c; NotAhead (is_ch k)] s i
  = None.
Proof using pre_free content_free content_nonempty.
  intros Hml. pose proof pair_n_pos as Hn.
  destruct (matchFrom _ s i) as [e|] eqn:E; [|reflexivity].
  apply matchFrom_needs in E. cbn [needs] in E.
  destruct E as (Hb & H1 & _ & H2).
  apply pair_at_c in H1. apply pair_run_pos in H2.
  destruct i as [|j]; [lia|].
  pose proof (proj1 (behind_is_ch _ _ _) Hb j eq_refl) as Hj.
  destruct Hj. apply pair_at_c. lia.
Qed.

(** The italic pattern, after a prefix that does not end in a word
    character. *)
Hypothesis pre_boundary : ∀ d, last pre = Some d → word d = false.

Lemma pair_italic_at :
  ml = 1 →
  matchFrom [NotBehind word; Lit c; PlusNot false c; Lit c; NotAhead word] s a
  = Some (length s).
Proof using pre_free content_free content_nonempty pre_boundary.
  intros Hml. pose proof pair_n_pos as Hn.
  rewrite matchFrom_NotBehind.
  2:{ unfold behind. destruct (length pre) as [|j] eqn:Ea; [reflexivity|].
      rewrite lookup_app_l by lia.
      pose proof (last_lookup pre) as Hl. rewrite Ea in Hl. simpl in Hl.
      rewrite <- Hl. destruct (last pre) as [d|]; [|reflexivity].
      apply pre_boundary. reflexivity. }
  rewrite matchFrom_Lit by (apply pair_at_c; lia).
  rewrite matchFrom_plus by reflexivity.
  replace (S a) with (a + ml) by lia. rewrite pair_run_content.
  destruct (n =? 0) eqn:E; [apply Nat.eqb_eq in E; lia|].
  rewrite matchFrom_Lit by (apply pair_at_c; lia).
  rewrite matchFrom_NotAhead.
  2:{ unfold ahead. rewrite lookup_ge_None_2; [reflexivity|].
      rewrite pair_length. lia. }
  simpl. f_equal. rewrite pair_length. lia.
Qed.

Lemma pair_italic_else i :
  ml = 1 → i ≠ a →
  matchFrom [NotBehind word; Lit c; PlusNot false c; Lit c; NotAhead word] s i
  = None.
Proof using pre_free content_free content_nonempty pre_boundary.
  intros Hml Hi. pose proof pair_n_pos as Hn.
  destruct (matchFrom _ s i) as [e|] eqn:E; [|reflexivity].
  apply matchFrom_needs in E. cbn [needs] in E.
  destruct E as (_ & H1 & H2).
  apply pair_at_c in H1. apply pair_run_pos in H2. lia.
Qed.

(** The result when the pair is the only match. *)
Lemma pair_result p :
  markerLen p = ml → 1 ≤ ml →
  collect s = consider p (mkClaimed [] ∅ ∅) (a, length s) →
  parseSignalStyles s
  = mkStyledText (pre ++ content)
                 [mkTextStyle (pstyle p) (Z.of_nat a) (Z.of_nat n)].
Proof using pre_free content_free content_nonempty.
  intros Hp Hml Hcollect. pose proof pair_n_pos as Hn.
  unfold parseSignalStyles.
  assert (Ht : truthy s = true).
  { destruct s eqn:E; [|reflexivity].
    apply (f_equal length) in E. rewrite pair_length in E. simpl in E. lia. }
  rewrite Ht. simpl negb. cbv iota.
  rewrite Hcollect. unfold consider. rewrite overlaps_empty.
  cbn [matches markers app fst snd]. rewrite Hp, pair_length.
  replace (a + (a + ml + n + ml - a) - ml) with (a + ml + n) by lia.
  replace (a + (a + ml + n + ml - a)) with (a + ml + n + ml) by lia.
  set (mk := add_range (a + ml + n) (a + ml + n + ml) (add_range a (a + ml) ∅)).
  assert (Hmk : ∀ i, i ∈ mk ↔ a ≤ i < a + ml ∨ a + ml + n ≤ i < a + ml + n + ml).
  { intros i. unfold mk. rewrite !elem_of_add_range.
    pose proof (not_elem_of_empty (C := gset nat) i). tauto. }
  assert (Hstrip : strip s mk =
            ((Z.of_nat <$> seq 0 a) ++ replicate ml (-1)%Z
               ++ (Z.of_nat <$> seq a n) ++ replicate ml (-1)%Z,
             pre ++ content)).
  { unfold strip.
    rewrite strip_app, strip_keep
      by (intros i Hi; rewrite ?length_replicate in Hi; rewrite Hmk; lia).
    rewrite strip_app, strip_drop
      by (intros i Hi; rewrite ?length_replicate in Hi; rewrite Hmk; lia).
    rewrite strip_app, strip_keep
      by (intros i Hi; rewrite ?length_replicate in Hi; rewrite Hmk; lia).
    rewrite strip_drop
      by (intros i Hi; rewrite ?length_replicate in Hi; rewrite Hmk; lia).
    rewrite !length_replicate. simpl app.
    rewrite <- !app_assoc. reflexivity. }
  rewrite Hstrip. cbn [omap list_omap].
  set (im := (Z.of_nat <$> seq 0 a) ++ replicate ml (-1)%Z
               ++ (Z.of_nat <$> seq a n) ++ replicate ml (-1)%Z).
  assert (Him : ∀ j, j < n → im !! (a + ml + j) = Some (Z.of_nat (a + j))).
  { intros j Hj. unfold im.
    rewrite lookup_app_r by (rewrite length_fmap, length_seq; lia).
    rewrite length_fmap, length_seq.
    rewrite lookup_app_r by (rewrite length_replicate; lia).
    rewrite length_replicate.
    rewrite lookup_app_l by (rewrite length_fmap, length_seq; lia).
    rewrite list_lookup_fmap.
    replace (a + ml + j - a - ml) with j by lia.
    rewrite lookup_seq_lt by lia. reflexivity. }
  assert (Hspan : spanOf im (mkMarkerMatch a (a + ml) (a + ml + n) (a + ml + n + ml) (pstyle p))
                  = Some (mkTextStyle (pstyle p) (Z.of_nat a) (Z.of_nat n))).
  { unfold spanOf. cbn [openEnd closeStart mstyle].
    replace (a + ml + n) with (S (a + ml + (n - 1))) by lia.
    rewrite (lastContent_hit im (a + ml) (a + ml + (n - 1)) (Z.of_nat (a + (n - 1))))
      by (try apply Him; lia).
    replace (a + ml) with (a + ml + 0) at 1 by lia.
    rewrite !Him by lia.
    destruct (Z.of_nat (a + 0) =? -1)%Z eqn:E1; [apply Z.eqb_eq in E1; lia|].
    destruct (0 <? Z.of_nat (a + (n - 1)) + 1 - Z.of_nat (a + 0))%Z eqn:E2;
      [|apply Z.ltb_ge in E2; lia].
    do 2 f_equal; lia. }
  rewrite Hspan. reflexivity.
Qed.

End OnePair.

Lemma free_of_marker c l :
  is_marker c = true →
  Forall (λ d, is_marker d = false) l → Forall (λ d, d ≠ c) l.
Proof.
  intros Hc Hl. eapply Forall_impl; [exact Hl|]. intros d Hd ->. congruence.
Qed.

(** Discharges "this pattern finds nothing in the input with one pair". *)
Ltac no_match k ml pre content Hpre Hcontent Hne :=
  apply execAll_none; intros ?;
  first
    [ eapply (pair_other k ml pre content);
      [ reflexivity | discriminate
      | apply free_of_marker; [reflexivity | assumption]
      | apply free_of_marker; [reflexivity | assumption] ]
    | apply (pair_double_never k ml pre content Hpre Hcontent Hne); reflexivity
    | apply (pair_guarded_never k ml pre content Hpre Hcontent Hne); reflexivity ].

(** Discharges "this pattern finds the pair and nothing else". *)
Ltac one_match Hat Helse :=
  apply execAll_one;
  [ rewrite !length_app, !length_replicate; simpl; lia
  | exact (Hat eq_refl)
  | intros i Hi; exact (Helse i eq_refl Hi) ].

(** An input that ends in one well-formed marker pair, after a prefix and
    around a content that hold no delimiter character: the markers are
    stripped and the one span starts at the length of the prefix and is as
    long as the content, both in code units. *)
Lemma one_pair_styled p pre content :
  p ∈ patterns →
  Forall (λ d, is_marker d = false) pre →
  (∀ d, last pre = Some d → word d = false) →
  Forall (λ d, is_marker d = false) content →
  content ≠ [] →
  parseSignalStyles (pre ++ opening (re p) ++ content ++ opening (re p))
  = mkStyledText (pre ++ content)
                 [mkTextStyle (pstyle p) (Z.of_nat (length pre))
                              (Z.of_nat (length content))].
Proof.
  intros Hp Hpre Hlast Hcontent Hne.
  unfold patterns in Hp.
  repeat (apply elem_of_cons in Hp as [->|Hp]); [..|inversion Hp].
  - change (opening _) with (replicate 1 (ch "`")).
    assert (Hf1 : Forall (λ d, d ≠ ch "`") pre)
      by (apply free_of_marker; [reflexivity | assumption]).
    assert (Hf2 : Forall (λ d, d ≠ ch "`") content)
      by (apply free_of_marker; [reflexivity | assumption]).
    apply (pair_result "`" 1 pre content Hf1 Hf2 Hne); [reflexivity | lia |].
    eapply (collect_one _ []); [reflexivity | constructor | |].
    + repeat constructor; no_match "`"%char 1 pre content Hf1 Hf2 Hne.
    + one_match (pair_single_at "`" 1 pre content Hf1 Hf2 Hne)
                (pair_single_else "`" 1 pre content Hf1 Hf2 Hne).
  - change (opening _) with (replicate 2 (ch "|")).
    assert (Hf1 : Forall (λ d, d ≠ ch "|") pre)
      by (apply free_of_marker; [reflexivity | assumption]).
    assert (Hf2 : Forall (λ d, d ≠ ch "|") content)
      by (apply free_of_marker; [reflexivity | assumption]).
    apply (pair_result "|" 2 pre content Hf1 Hf2 Hne); [reflexivity | lia |].
    eapply (collect_one _ [_]); [reflexivity | | |].
    + repeat constructor; no_match "|"%char 2 pre content Hf1 Hf2 Hne.
    + repeat constructor; no_match "|"%char 2 pre content Hf1 Hf2 Hne.
    + one_match (pair_double_at "|" 2 pre content Hf1 Hf2 Hne)
                (pair_double_else "|" 2 pre content Hf1 Hf2 Hne).
  - change (opening _) with (replicate 2 (ch "~")).
    assert (Hf1 : Forall (λ d, d ≠ ch "~") pre)
      by (apply free_of_marker; [reflexivity | assumption]).
    assert (Hf2 : Forall (λ d, d ≠ ch "~") content)
      by (apply free_of_marker; [reflexivity | assumption]).
    apply (pair_result "~" 2 pre content Hf1 Hf2 Hne); [reflexivity | lia |].
    eapply (collect_one _ [_; _]); [reflexivity | | |].
    + repeat constructor; no_match "~"%char 2 pre content Hf1 Hf2 Hne.
    + repeat constructor; no_match "~"%char 2 pre content Hf1 Hf2 Hne.
    + one_match (pair_double_at "~" 2 pre content Hf1 Hf2 Hne)
                (pair_double_else "~" 2 pre content Hf1 Hf2 Hne).
  - change (opening _) with (replicate 1 (ch "~")).
    assert (Hf1 : Forall (λ d, d ≠ ch "~") pre)
      by (apply free_of_marker; [reflexivity | assumption]).
    assert (Hf2 : Forall (λ d, d ≠ ch "~") content)
      by (apply free_of_marker; [reflexivity | assumption]).
    apply (pair_result "~" 1 pre content Hf1 Hf2 Hne); [reflexivity | lia |].
    eapply (collect_one _ [_; _; _]); [reflexivity | | |].
    + repeat constructor; no_match "~"%char 1 pre content Hf1 Hf2 Hne.
    + repeat constructor; no_match "~"%char 1 pre content Hf1 Hf2 Hne.
    + one_match (pair_guarded_at "~" 1 pre content Hf1 Hf2 Hne)
                (pair_guarded_else "~" 1 pre content Hf1 Hf2 Hne).
  - change (opening _) with (replicate 1 (ch "*")).
    assert (Hf1 : Forall (λ d, d ≠ ch "*") pre)
      by (apply free_of_marker; [reflexivity | assumption]).
    assert (Hf2 : Forall (λ d, d ≠ ch "*") content)
      by (apply free_of_marker; [reflexivity | assumption]).
    apply (pair_result "*" 1 pre content Hf1 Hf2 Hne); [reflexivity | lia |].
    eapply (collect_one _ [_; _; _; _]); [reflexivity | | |].
    + repeat constructor; no_match "*"%char 1 pre content Hf1 Hf2 Hne.
    + repeat constructor; no_match "*"%char 1 pre content Hf1 Hf2 Hne.
    + one_match (pair_guarded_at "*" 1 pre content Hf1 Hf2 Hne)
                (pair_guarded_else "*" 1 pre content Hf1 Hf2 Hne).
  - change (opening _) with (replicate 1 (ch "_")).
    assert (Hf1 : Forall (λ d, d ≠ ch "_") pre)
      by (apply free_of_marker; [reflexivity | assumption]).
    assert (Hf2 : Forall (λ d, d ≠ ch "_") content)
      by (apply free_of_marker; [reflexivity | assumption]).
    apply (pair_result "_" 1 pre content Hf1 Hf2 Hne); [reflexivity | lia |].
    eapply (collect_one _ [_; _; _; _; _] _ []); [reflexivity | | constructor |].
    + repeat constructor; no_match "_"%char 1 pre content Hf1 Hf2 Hne.
    + one_match (pair_italic_at "_" 1 pre content Hf1 Hf2 Hne Hlast)
                (pair_italic_else "_" 1 pre content Hf1 Hf2 Hne Hlast).
Qed.

(** C6. Offsets and lengths are counted in UTF-16 code units of the stripped
    text: after a character outside the Basic Multilingual Plane (a surrogate
    pair, two code units) and a space, one well-formed marker pair of any of
    the six patterns around a content without delimiter characters yields
    the text without the markers and exactly one span, which starts at 3 and
    whose length is the number of code units of the content; the span selects
    the content in the stripped text. *)
Theorem span_offsets_in_code_units hi lo p content :
  is_surrogate_pair hi lo →
  p ∈ patterns →
  content ≠ [] →
  Forall (λ d, is_marker d = false) content →
  let result :=
    parseSignalStyles ([hi; lo; ch " "] ++ opening (re p) ++ content ++ opening (re p)) in
  result = mkStyledText ([hi; lo; ch " "] ++ content)
                        [mkTextStyle (pstyle p) 3 (Z.of_nat (length content))]
  ∧ take (length content) (drop 3 (text result)) = content.
Proof.
  intros [Hhi Hlo] Hp Hne Hcontent result.
  assert (Hres : result = mkStyledText ([hi; lo; ch " "] ++ content)
                   [mkTextStyle (pstyle p) 3 (Z.of_nat (length content))]).
  { unfold result.
    apply (one_pair_styled p [hi; lo; ch " "] content Hp); try assumption.
    - assert (Hs : ∀ d, (0xD800 ≤ d)%N → is_marker d = false).
      { intros d Hd. unfold is_marker, is_ch.
        rewrite !orb_false_iff. repeat split; apply N.eqb_neq; intros ->;
          vm_compute in Hd; apply Hd; reflexivity. }
      repeat constructor; [apply Hs; lia | apply Hs; lia].
    - intros d [= <-]. reflexivity. }
  split; [exact Hres|].
  rewrite Hres. simpl. apply firstn_all.
Qed.

Lemma span_offsets_in_code_units_witness :
  is_surrogate_pair 0xD83C 0xDF89
  ∧ parseSignalStyles (party_popper ++ js " *bold*")
    = mkStyledText (party_popper ++ js " bold") [mkTextStyle BOLD 3 4].
Proof.
  assert (Hpair : is_surrogate_pair 0xD83C 0xDF89) by (unfold is_surrogate_pair; lia).
  split; [exact Hpair|].
  assert (Hp : mkPattern [NotBehind (is_ch "*"); Lit (ch "*"); NotAhead (is_ch "*");
                          PlusNot false (ch "*");
                          NotBehind (is_ch "*"); Lit (ch "*"); NotAhead (is_ch "*")]
                         BOLD 1 ∈ patterns).
  { unfold patterns. do 4 apply list_elem_of_further. apply list_elem_of_here. }
  destruct (span_offsets_in_code_units 0xD83C 0xDF89 _ (js "bold") Hpair Hp)
    as [Hres _].
  - discriminate.
  - repeat constructor.
  - exact Hres.
Defined.

(** ** Input without delimiters *)

Lemma is_marker_head p : p ∈ patterns → ∃ c, head_lit (re p) = Some c ∧ is_marker c = true.
Proof.
  intros Hp. unfold patterns in Hp.
  repeat (apply elem_of_cons in Hp as [-> | Hp]); [..|inversion Hp];
    (eexists; split; reflexivity).
Qed.

Lemma collect_nil input :
  (∀ p, p ∈ patterns → execAll (re p) input = []) →
  collect input = mkClaimed [] ∅ ∅.
Proof.
  intros H. unfold collect.
  assert (G : ∀ ps st, (∀ p, p ∈ ps → execAll (re p) input = []) →
                       foldl (runPattern input) st ps = st).
  { induction ps as [|p ps IH]; intros st Hps; simpl; [reflexivity|].
    unfold runPattern at 2. rewrite (Hps p) by apply list_elem_of_here. simpl.
    apply IH. intros q Hq. apply Hps. apply list_elem_of_further, Hq. }
  apply G, H.
Qed.

(** X1: a text that contains none of the five delimiter characters is
    returned as it is, with no style span. *)
Theorem parseSignalStyles_plain input :
  Forall (λ d, is_marker d = false) input →
  parseSignalStyles input = mkStyledText input [].
Proof.
  intros Hfree. unfold parseSignalStyles.
  destruct (negb (truthy input)); [reflexivity|].
  rewrite collect_nil; [reflexivity|].
  intros p Hp. apply execAll_none. intros i.
  destruct (is_marker_head p Hp) as (c & Hc & Hm).
  apply (matchFrom_head _ _ _ c Hc).
  intros Hi. apply list_elem_of_lookup_2 in Hi.
  rewrite Forall_forall in Hfree. apply Hfree in Hi. congruence.
Qed.

Lemma parseSignalStyles_plain_witness :
  Forall (λ d, is_marker d = false) (js "snake case, 2 + 2 = 4")
  ∧ parseSignalStyles (js "snake case, 2 + 2 = 4")
    = mkStyledText (js "snake case, 2 + 2 = 4") [].
Proof.
  assert (H : Forall (λ d, is_marker d = false) (js "snake case, 2 + 2 = 4")).
  { apply Forall_forall. intros d Hd. vm_compute in Hd.
    repeat (apply elem_of_cons in Hd as [-> | Hd]); try reflexivity.
    inversion Hd. }
  split; [exact H | apply (parseSignalStyles_plain _ H)].
Defined.

(** ** What is stripped *)

Lemma matchFrom_opening r s i e :
  matchFrom r s i = Some e →
  ∀ k d, opening r !! k = Some d → s !! (i + k) = Some d.
Proof.
  revert i. induction r as [|[c | g c | P | P] r IH]; intros i; simpl;
    try (intros _ k d Hk; rewrite lookup_nil in Hk; discriminate).
  - destruct (s !! i) as [x|] eqn:Hx; [|discriminate].
    destruct (N.eqb x c) eqn:E; [|discriminate]. apply N.eqb_eq in E. subst x.
    intros Hm [|k] d; simpl.
    + intros [= <-]. rewrite Nat.add_0_r. exact Hx.
    + intros Hk. replace (i + S k) with (S i + k) by lia. exact (IH _ Hm k d Hk).
  - destruct (behind P s i); [discriminate | apply IH].
  - destruct (ahead P s i); [discriminate | apply IH].
Qed.

Lemma matchFrom_lits r s i e cs :
  lits r = Some cs → matchFrom r s i = Some e →
  e = i + length cs ∧ ∀ k d, cs !! k = Some d → s !! (i + k) = Some d.
Proof.
  revert i cs. induction r as [|[c | g c | P | P] r IH]; intros i cs; simpl.
  - intros [= <-] [= <-]. split; [simpl; lia|]. intros k d Hk.
    rewrite lookup_nil in Hk. discriminate.
  - destruct (lits r) as [cs'|]; [|discriminate]. simpl. intros [= <-].
    destruct (s !! i) as [x|] eqn:Hx; [|discriminate].
    destruct (N.eqb x c) eqn:E; [|discriminate]. apply N.eqb_eq in E. subst x.
    intros Hm. destruct (IH (S i) cs' eq_refl Hm) as [-> Hl].
    split; [simpl; lia|]. intros [|k] d; simpl.
    + intros [= <-]. rewrite Nat.add_0_r. exact Hx.
    + intros Hk. replace (i + S k) with (S i + k) by lia. exact (Hl k d Hk).
  - discriminate.
  - intros Hl. destruct (behind P s i); [discriminate | apply IH, Hl].
  - intros Hl. destruct (ahead P s i); [discriminate | apply IH, Hl].
Qed.

Lemma matchFrom_closing r s i e :
  matchFrom r s i = Some e → ∃ m, matchFrom (closing r) s m = Some e.
Proof.
  revert i. induction r as [|x r IH]; intros i Hm.
  - exists i. exact Hm.
  - change (closing (x :: r))
      with (match lits (x :: r) with Some _ => x :: r | None => closing r end).
    destruct (lits (x :: r)); [exists i; exact Hm|].
    destruct x as [c | g c | P | P]; simpl in Hm.
    + destruct (s !! i) as [y|]; [|discriminate].
      destruct (N.eqb y c); [|discriminate]. exact (IH _ Hm).
    + apply first_some_elem in Hm as (k & _ & Hm). exact (IH _ Hm).
    + destruct (behind P s i); [discriminate | exact (IH _ Hm)].
    + destruct (ahead P s i); [discriminate | exact (IH _ Hm)].
Qed.

Lemma patterns_delimiters p :
  p ∈ patterns →
  length (opening (re p)) = markerLen p
  ∧ forallb is_marker (opening (re p)) = true
  ∧ ∃ cs, lits (closing (re p)) = Some cs
          ∧ length cs = markerLen p ∧ forallb is_marker cs = true.
Proof.
  intros Hp. unfold patterns in Hp.
  repeat (apply elem_of_cons in Hp as [-> | Hp]); [..|inversion Hp];
    (split; [reflexivity | split; [reflexivity |]];
     eexists; split; [reflexivity | split; reflexivity]).
Qed.

Lemma forallb_lookup {A} (f : A → bool) l k d :
  forallb f l = true → l !! k = Some d → f d = true.
Proof.
  intros H Hk. apply list_elem_of_lookup_2 in Hk.
  rewrite forallb_forall in H. apply H. apply list_elem_of_In. exact Hk.
Qed.

(** The delimiters of a match are delimiter characters of the input. *)
Lemma match_delimiters p s i e j :
  p ∈ patterns →
  matchFrom (re p) s i = Some e →
  i ≤ j < i + markerLen p ∨ e - markerLen p ≤ j < e →
  ∃ d, s !! j = Some d ∧ is_marker d = true.
Proof.
  intros Hp Hm Hj.
  destruct (patterns_delimiters p Hp) as (Hlo & Hmo & cs & Hcl & Hlc & Hmc).
  destruct Hj as [Hj | Hj].
  - destruct (lookup_lt_is_Some_2 (opening (re p)) (j - i)) as [d Hd]; [lia|].
    exists d. split; [|exact (forallb_lookup _ _ _ _ Hmo Hd)].
    replace j with (i + (j - i)) by lia.
    exact (matchFrom_opening _ _ _ _ Hm _ _ Hd).
  - destruct (matchFrom_closing _ _ _ _ Hm) as (m & Hm').
    destruct (matchFrom_lits _ _ _ _ _ Hcl Hm') as [He Hl].
    destruct (lookup_lt_is_Some_2 cs (j - m)) as [d Hd]; [lia|].
    exists d. split; [|exact (forallb_lookup _ _ _ _ Hmc Hd)].
    replace j with (m + (j - m)) by lia. exact (Hl _ _ Hd).
Qed.

Lemma execLoop_elem fuel r s last i e :
  (i, e) ∈ execLoop fuel r s last → matchFrom r s i = Some e ∧ i ≤ e.
Proof.
  revert last. induction fuel as [|fuel IH]; intros last; simpl.
  - intros H. inversion H.
  - destruct (exec r s last) as [[i' e']|] eqn:E; [|intros H; inversion H].
    intros H. apply elem_of_cons in H as [[= -> ->] | H]; [|exact (IH _ H)].
    pose proof (exec_bounds _ _ _ _ _ E) as Hb.
    unfold exec in E. apply first_some_elem in E as (x & _ & Hx).
    destruct (matchFrom r s x) eqn:Hmx; [|discriminate].
    simpl in Hx. injection Hx as <- <-. split; [exact Hmx | lia].
Qed.

Lemma consider_markers_ok input p st m :
  p ∈ patterns → m ∈ execAll (re p) input →
  markers_ok input st → markers_ok input (consider p st m).
Proof.
  intros Hp Hm Hok. destruct m as [i e].
  apply execLoop_elem in Hm as [Hm Hie].
  unfold consider. simpl fst. simpl snd.
  destruct (overlaps _ _ st); [exact Hok|].
  intros j Hj. simpl in Hj.
  apply elem_of_add_range in Hj as [Hj | Hj];
    [|apply elem_of_add_range in Hj as [Hj | Hj]].
  - apply (match_delimiters p input i e j Hp Hm). right. lia.
  - apply (match_delimiters p input i e j Hp Hm). left. lia.
  - exact (Hok j Hj).
Qed.

Lemma collect_markers_ok input : markers_ok input (collect input).
Proof.
  unfold collect.
  assert (G : ∀ ps st, (∀ p, p ∈ ps → p ∈ patterns) → markers_ok input st →
                       markers_ok input (foldl (runPattern input) st ps)).
  { induction ps as [|p ps IH]; intros st Hps Hok; simpl; [exact Hok|].
    apply IH; [intros q Hq; apply Hps, list_elem_of_further, Hq|].
    unfold runPattern.
    assert (Hp : p ∈ patterns) by apply Hps, list_elem_of_here.
    assert (H : ∀ ms st, (∀ m, m ∈ ms → m ∈ execAll (re p) input) →
                         markers_ok input st →
                         markers_ok input (foldl (consider p) st ms)).
    { induction ms as [|m ms IHm]; intros st' Hms Hok'; simpl; [exact Hok'|].
      apply IHm; [intros m' Hm'; apply Hms, list_elem_of_further, Hm'|].
      apply consider_markers_ok; [exact Hp | apply Hms, list_elem_of_here | exact Hok']. }
    apply H; [auto | exact Hok]. }
  apply G; [auto|]. intros i Hi. simpl in Hi. set_solver.
Qed.

Lemma strip_filter mk l acc :
  snd (foldl (strip_step mk) acc l)
  = snd acc ++ (filter (λ ic, fst ic ∉ mk) l).*2.
Proof.
  revert acc. induction l as [|ic l IH]; intros acc; simpl.
  - rewrite app_nil_r. reflexivity.
  - rewrite IH. unfold strip_step. rewrite filter_cons.
    destruct (decide (fst ic ∈ mk)) as [Hin | Hnin].
    + rewrite decide_False by (intros H; exact (H Hin)). reflexivity.
    + rewrite decide_True by exact Hnin. simpl. rewrite <- app_assoc. reflexivity.
Qed.

Lemma strip_text input mk :
  snd (strip input mk)
  = (filter (λ ic, fst ic ∉ mk) (zip (seq 0 (length input)) input)).*2.
Proof. unfold strip. rewrite strip_filter. reflexivity. Qed.

Lemma zip_seq_elem {A} (l : list A) i d :
  (i, d) ∈ zip (seq 0 (length l)) l → l !! i = Some d.
Proof.
  intros H. apply list_elem_of_lookup_1 in H as [k Hk].
  apply lookup_zip_Some in Hk as [Hs Hl].
  apply lookup_seq in Hs as [-> _]. exact Hl.
Qed.

Lemma filter_strip {A B} (P : B → Prop) `{∀ x, Decision (P x)}
    (Q : A * B → Prop) `{∀ x, Decision (Q x)} (l : list (A * B)) :
  (∀ x, x ∈ l → ¬ Q x → ¬ P (snd x)) →
  filter P (filter Q l).*2 = filter P l.*2.
Proof.
  induction l as [|x l IH]; intros Hl; [reflexivity|].
  rewrite fmap_cons, !filter_cons.
  assert (IH' := IH (λ y Hy, Hl y (list_elem_of_further _ _ _ Hy))).
  destruct (decide (Q x)) as [HQ | HQ].
  - rewrite fmap_cons, filter_cons, IH'. reflexivity.
  - rewrite IH'. rewrite decide_False; [reflexivity|].
    apply Hl; [apply list_elem_of_here | exact HQ].
Qed.

(** X3: the text of the result is the input with some of its delimiter
    characters deleted: it is a subsequence of the input, and every code unit
    other than the five delimiter characters is kept, in order. *)
Theorem parseSignalStyles_strips_delimiters_only input :
  text (parseSignalStyles input) `sublist_of` input
  ∧ filter (λ d, is_marker d = false) (text (parseSignalStyles input))
    = filter (λ d, is_marker d = false) input.
Proof.
  unfold parseSignalStyles.
  destruct (negb (truthy input)); [split; reflexivity|].
  destruct (matches (collect input)) as [|m ms]; [split; reflexivity|].
  pose proof (strip_text input (markers (collect input))) as Ht.
  destruct (strip input (markers (collect input))) as [indexMap out].
  simpl in Ht. simpl text. subst out.
  assert (Hz : (zip (seq 0 (length input)) input).*2 = input)
    by (apply snd_zip; rewrite length_seq; lia).
  split.
  - pose proof (fmap_sublist snd _ _
                  (sublist_filter (λ ic : nat * N, fst ic ∉ markers (collect input))
                                  (zip (seq 0 (length input)) input))) as Hsub.
    rewrite Hz in Hsub. exact Hsub.
  - rewrite filter_strip; [rewrite Hz; reflexivity|].
    intros [i d] Hx Hq. simpl in *.
    apply zip_seq_elem in Hx.
    assert (Hi : i ∈ markers (collect input)).
    { destruct (decide (i ∈ markers (collect input))); [assumption | contradiction]. }
    destruct (collect_markers_ok input i Hi) as (d' & Hd' & Hm).
    rewrite Hx in Hd'. injection Hd' as <-. rewrite Hm. discriminate.
Qed.

(** ** Order of the spans *)

Lemma insert_by_start_sorted x l :
  (∀ i j a b, i ≤ j → l !! i = Some a → l !! j = Some b → (start a ≤ start b)%Z) →
  ∀ i j a b, i ≤ j → insert_by_start x l !! i = Some a →
             insert_by_start x l !! j = Some b → (start a ≤ start b)%Z.
Proof.
  induction l as [|y l IH]; intros Hs; simpl.
  - intros [|i] [|j] a b _; simpl; try (rewrite ?lookup_nil; discriminate).
    intros [= <-] [= <-]. lia.
  - assert (Hy : ∀ b, b ∈ l → (start y ≤ start b)%Z).
    { intros b Hb. apply list_elem_of_lookup_1 in Hb as [k Hk].
      apply (Hs 0 (S k) y b); [lia | reflexivity | exact Hk]. }
    assert (Hl : ∀ i j a b, i ≤ j → l !! i = Some a → l !! j = Some b
                            → (start a ≤ start b)%Z).
    { intros i j a b Hij Ha Hb. apply (Hs (S i) (S j) a b); [lia | exact Ha | exact Hb]. }
    destruct (start x <=? start y)%Z eqn:E.
    + apply Z.leb_le in E.
      intros [|i] [|j] a b Hij; simpl; try lia.
      * intros [= <-] [= <-]. lia.
      * intros [= <-] Hb. apply list_elem_of_lookup_2 in Hb.
        apply elem_of_cons in Hb as [-> | Hb]; [exact E|].
        specialize (Hy b Hb). lia.
      * intros Ha Hb. apply (Hs i j a b); [lia | exact Ha | exact Hb].
    + apply Z.leb_gt in E.
      intros [|i] [|j] a b Hij; simpl; try lia.
      * intros [= <-] [= <-]. lia.
      * intros [= <-] Hb. apply list_elem_of_lookup_2 in Hb.
        apply insert_by_start_elem in Hb as [-> | Hb]; [lia | exact (Hy b Hb)].
      * intros Ha Hb. apply (IH Hl i j a b); [lia | exact Ha | exact Hb].
Qed.

Lemma sort_by_start_sorted l i j a b :
  i ≤ j → sort_by_start l !! i = Some a → sort_by_start l !! j = Some b →
  (start a ≤ start b)%Z.
Proof.
  revert i j a b. induction l as [|x l IH]; simpl.
  - intros i j a b _ H. rewrite lookup_nil in H. discriminate.
  - apply insert_by_start_sorted. exact IH.
Qed.

(** X2: the spans of the result are in ascending order of their start
    offsets, whatever the order in which the patterns found them. *)
Theorem parseSignalStyles_spans_sorted input i j a b :
  i ≤ j →
  textStyle (parseSignalStyles input) !! i = Some a →
  textStyle (parseSignalStyles input) !! j = Some b →
  (start a ≤ start b)%Z.
Proof.
  unfold parseSignalStyles.
  destruct (negb (truthy input));
    [intros _ H; simpl in H; rewrite lookup_nil in H; discriminate|].
  destruct (matches (collect input)) as [|m ms] eqn:Em;
    [intros _ H; simpl in H; rewrite lookup_nil in H; discriminate|].
  destruct (strip input (markers (collect input))) as [indexMap out].
  simpl textStyle. apply sort_by_start_sorted.
Qed.

Lemma parseSignalStyles_spans_sorted_witness :
  matches (collect (js "_italic_ and `code`"))
    = [mkMarkerMatch 13 14 18 19 MONOSPACE; mkMarkerMatch 0 1 7 8 ITALIC]
  ∧ textStyle (parseSignalStyles (js "_italic_ and `code`")) !! 0
    = Some (mkTextStyle ITALIC 0 6)
  ∧ textStyle (parseSignalStyles (js "_italic_ and `code`")) !! 1
    = Some (mkTextStyle MONOSPACE 11 4)
  ∧ (0 ≤ 11)%Z.
Proof.
  split; [vm_compute; reflexivity|].
  split; [vm_compute; reflexivity|].
  split; [vm_compute; reflexivity|].
  apply (parseSignalStyles_spans_sorted (js "_italic_ and `code`") 0 1
           (mkTextStyle ITALIC 0 6) (mkTextStyle MONOSPACE 11 4));
    [lia | vm_compute; reflexivity | vm_compute; reflexivity].
Defined.

(** ** Where the spans come from *)






End FormattingFacts.

(** * Properties of the channel *)

Module SignalFacts.
Import Signal.

(** ** RPC transport *)

Lemma rpcCall_cap_reached method params st :
  MAX_PENDING_RPC ≤ size (pendingRpc st) →
  rpcCall method params st =
    (Rejected (js "RPC cap exceeded (100 pending calls)"), st).
Proof.
  intros Hcap. unfold rpcCall.
  destruct (MAX_PENDING_RPC <=? size (pendingRpc st)) eqn:E.
  - reflexivity.
  - apply Nat.leb_gt in E. lia.
Qed.

(** C2. A call issued while the correlation table holds exactly 100 pending
    calls rejects at once and leaves the whole channel as it was: nothing is
    written to the subprocess and the correlation table is unchanged. *)
Theorem rpcCall_at_cap method params st :
  size (pendingRpc st) = 100 →
  ∃ err, rpcCall method params st = (Rejected err, st)
         ∧ written <$> proc (snd (rpcCall method params st)) = written <$> proc st
         ∧ pendingRpc (snd (rpcCall method params st)) = pendingRpc st.
Proof.
  intros Hsize.
  rewrite rpcCall_cap_reached by (unfold MAX_PENDING_RPC; lia).
  eexists; split; [reflexivity | split; reflexivity].
Qed.

Lemma rpcCall_at_cap_witness :
  size (pendingRpc example_saturated) = 100 ∧
  ∃ err, rpcCall (js "send") [(js "message", JStr (js "hi"))] example_saturated
           = (Rejected err, example_saturated)
         ∧ written <$> proc (snd (rpcCall (js "send") [(js "message", JStr (js "hi"))]
                                   example_saturated))
           = written <$> proc example_saturated
         ∧ pendingRpc (snd (rpcCall (js "send") [(js "message", JStr (js "hi"))]
                             example_saturated))
           = pendingRpc example_saturated.
Proof.
  split; [vm_compute; reflexivity |].
  apply (rpcCall_at_cap (js "send") [(js "message", JStr (js "hi"))] example_saturated).
  vm_compute; reflexivity.
Defined.

(** ** Outbound queue *)

Lemma rpcCall_outgoingQueue method params st :
  outgoingQueue (snd (rpcCall method params st)) = outgoingQueue st.
Proof.
  unfold rpcCall. repeat case_match; reflexivity.
Qed.

Lemma rpcSend_outgoingQueue jid text atts st :
  outgoingQueue (snd (rpcSend jid text atts st)) = outgoingQueue st.
Proof. unfold rpcSend. apply rpcCall_outgoingQueue. Qed.

Lemma processMessage_outgoingQueue env msg st :
  outgoingQueue (processMessage env msg st) = outgoingQueue st.
Proof.
  unfold processMessage, sendChatIdResponse.
  repeat case_match; try reflexivity.
  apply rpcSend_outgoingQueue.
Qed.

Lemma handleEnvelope_outgoingQueue env e st :
  outgoingQueue (handleEnvelope env e st) = outgoingQueue st.
Proof.
  unfold handleEnvelope.
  repeat case_match; try reflexivity; apply processMessage_outgoingQueue.
Qed.

Lemma enqueue_outgoingQueue item st :
  outgoingQueue (enqueue item st) =
    (if MAX_OUTGOING_QUEUE <=? length (outgoingQueue st)
     then tail (outgoingQueue st) else outgoingQueue st) ++ [item].
Proof. unfold enqueue. case_match; reflexivity. Qed.

Lemma enqueue_bounded item st :
  length (outgoingQueue st) ≤ MAX_OUTGOING_QUEUE →
  length (outgoingQueue (enqueue item st)) ≤ MAX_OUTGOING_QUEUE.
Proof.
  intros Hle. rewrite enqueue_outgoingQueue.
  destruct (MAX_OUTGOING_QUEUE <=? length (outgoingQueue st)) eqn:E;
    rewrite length_app; simpl.
  - apply Nat.leb_le in E.
    destruct (outgoingQueue st); simpl in *; [unfold MAX_OUTGOING_QUEUE in *|]; lia.
  - apply Nat.leb_gt in E. lia.
Qed.

Lemma step_bounded env st ev :
  length (outgoingQueue st) ≤ MAX_OUTGOING_QUEUE →
  length (outgoingQueue (step env st ev)) ≤ MAX_OUTGOING_QUEUE.
Proof.
  intros Hle. destruct ev; simpl; try assumption.
  - case_match; assumption.
  - lia.
  - unfold sendMessage. destruct (connected st); simpl.
    + destruct (rpcSend _ _ _ _) as [o st'] eqn:E; simpl.
      change st' with (snd (o, st')). rewrite <- E.
      rewrite rpcSend_outgoingQueue. assumption.
    + apply enqueue_bounded, Hle.
  - apply enqueue_bounded, Hle.
  - unfold flushStep. destruct (outgoingQueue st) as [|item rest] eqn:Eq; simpl.
    + rewrite Eq. simpl. lia.
    + destruct (rpcSend _ _ _ _) as [o st'] eqn:E; simpl.
      change st' with (snd (o, st')). rewrite <- E.
      rewrite rpcSend_outgoingQueue. simpl in *. lia.
  - rewrite handleEnvelope_outgoingQueue. assumption.
Qed.

Lemma run_bounded env evs st :
  length (outgoingQueue st) ≤ MAX_OUTGOING_QUEUE →
  length (outgoingQueue (run env evs st)) ≤ MAX_OUTGOING_QUEUE.
Proof.
  revert st. induction evs as [|ev evs IH]; intros st Hle; simpl.
  - assumption.
  - apply IH, step_bounded, Hle.
Qed.

(** C3. The outbound queue never holds more than 1000 entries, whatever
    happens to the channel; and queueing a message (in [sendMessage] while
    disconnected, or in its [catch] after a failed send) onto a queue of 1000
    entries leaves exactly the entries after the oldest one, in their order,
    followed by the new entry: 1000 entries again. *)
Theorem outgoingQueue_drop_oldest :
  (∀ env evs, length (outgoingQueue (run env evs new_channel)) ≤ 1000) ∧
  (∀ jid text atts st oldest rest,
      outgoingQueue st = oldest :: rest →
      length (outgoingQueue st) = 1000 →
      (connected st = false →
       outgoingQueue (snd (sendMessage jid text atts st))
         = rest ++ [mkQueued jid text atts]) ∧
      outgoingQueue (sendMessage_catch jid text atts st)
        = rest ++ [mkQueued jid text atts] ∧
      length (rest ++ [mkQueued jid text atts]) = 1000).
Proof.
  split.
  - intros env evs. apply (run_bounded env evs new_channel). simpl.
    unfold MAX_OUTGOING_QUEUE. lia.
  - intros jid0 text atts st oldest rest Hq Hlen.
    assert (Henq : outgoingQueue (enqueue (mkQueued jid0 text atts) st)
                   = rest ++ [mkQueued jid0 text atts]).
    { rewrite enqueue_outgoingQueue, Hlen, Hq. reflexivity. }
    split; [|split].
    + intros Hc. unfold sendMessage. rewrite Hc. simpl. exact Henq.
    + exact Henq.
    + rewrite Hq in Hlen. rewrite length_app. simpl in *. lia.
Qed.

Lemma outgoingQueue_drop_oldest_witness :
  (outgoingQueue example_full = example_entry 0 :: (example_entry <$> seq 1 999)
   ∧ length (outgoingQueue example_full) = 1000
   ∧ connected example_full = false)
  ∧ outgoingQueue (snd (sendMessage (js "signal:+15551111") (js "newest") None
                          example_full))
    = (example_entry <$> seq 1 999)
      ++ [mkQueued (js "signal:+15551111") (js "newest") None].
Proof.
  assert (Hq : outgoingQueue example_full
               = example_entry 0 :: (example_entry <$> seq 1 999)) by reflexivity.
  assert (Hlen : length (outgoingQueue example_full) = 1000)
    by (vm_compute; reflexivity).
  split; [repeat split; assumption|].
  destruct outgoingQueue_drop_oldest as [_ H].
  destruct (H (js "signal:+15551111") (js "newest") None example_full
              (example_entry 0) (example_entry <$> seq 1 999) Hq Hlen) as [H1 _].
  apply H1. reflexivity.
Defined.

(** ** Mentions *)

(** C10. The current and the earlier [resolveMentions] agree on every input
    whose text, once the descriptors have been applied, holds no U+FFFC any
    more; an undefined or empty text needs no such condition. *)
Theorem resolveMentions_agree env text mentions :
  (∀ t, text = Some t → t ≠ [] →
        includes_sentinel (descriptorReplaced env t mentions) = false) →
  resolveMentions env text mentions = resolveMentions_earlier env text mentions.
Proof.
  intros Hclean.
  destruct text as [t|]; [|reflexivity].
  destruct t as [|c t]; [reflexivity|].
  specialize (Hclean (c :: t) eq_refl ltac:(discriminate)).
  unfold resolveMentions, resolveMentions_earlier. simpl truthy. simpl negb.
  rewrite Hclean. unfold descriptorReplaced.
  destruct (has_mentions mentions); reflexivity.
Qed.

Lemma resolveMentions_agree_witness :
  resolveMentions example_env (fst example_mentioned) (snd example_mentioned)
  = resolveMentions_earlier example_env (fst example_mentioned) (snd example_mentioned)
  ∧ resolveMentions example_env (fst example_mentioned) (snd example_mentioned)
    = Some (js "hi @Bob!").
Proof.
  split; [|vm_compute; reflexivity].
  apply (resolveMentions_agree example_env).
  intros t [= <-] _. vm_compute. reflexivity.
Defined.

(** Where a sentinel remains the two revisions differ: the current one
    names the assistant, the earlier one leaves the sentinel. *)
Example resolveMentions_differ :
  resolveMentions example_env (Some (js "hi " ++ [SENTINEL])) None
    = Some (js "hi @Echo")
  ∧ resolveMentions_earlier example_env (Some (js "hi " ++ [SENTINEL])) None
    = Some (js "hi " ++ [SENTINEL]).
Proof. split; vm_compute; reflexivity. Qed.

(** ** Envelope decoder *)

Lemma rpcCall_calls method params st :
  calls (snd (rpcCall method params st)) = calls st.
Proof. unfold rpcCall. repeat case_match; reflexivity. Qed.

Lemma rpcSend_calls jid text atts st :
  calls (snd (rpcSend jid text atts st)) = calls st.
Proof. unfold rpcSend. apply rpcCall_calls. Qed.

Lemma processMessage_calls env msg st :
  ∃ new, calls (processMessage env msg st) = calls st ++ new
         ∧ ∀ c, c ∈ new → reported env msg c.
Proof.
  unfold processMessage.
  destruct (chatJidOf msg) as [[chatJid isGroup]|] eqn:Hjid.
  2:{ exists []. rewrite app_nil_r. split; [reflexivity|]. intros c Hc. inversion Hc. }
  destruct (isoTimestampOf env msg) as [isoTimestamp|].
  2:{ exists []. rewrite app_nil_r. split; [reflexivity|]. intros c Hc. inversion Hc. }
  destruct (isChatIdCommand env msg) eqn:Hcmd.
  { exists []. rewrite app_nil_r. unfold sendChatIdResponse.
    rewrite rpcSend_calls. split; [reflexivity|]. intros c Hc. inversion Hc. }
  destruct (registeredGroups env chatJid) eqn:Hreg; simpl negb; cbv iota.
  2:{ eexists [_]. split; [reflexivity|]. intros c Hc.
      apply list_elem_of_singleton in Hc. subst c.
      split; [eexists; exact Hjid|]. split; [exact Hcmd | exact I]. }
  destruct (buildReaction env msg) as [reaction0|] eqn:Hreaction.
  2:{ eexists [_]. split; [reflexivity|]. intros c Hc.
      apply list_elem_of_singleton in Hc. subst c.
      split; [eexists; exact Hjid|]. split; [exact Hcmd | exact I]. }
  destruct (buildContent _ _ _ _ _) as [content0 atts] eqn:Hcontent.
  destruct (truthy (trim content0)); simpl negb; cbv iota.
  - eexists [_; _]. split.
    + simpl. rewrite <- app_assoc. reflexivity.
    + intros c Hc. apply elem_of_cons in Hc as [->|Hc].
      * split; [eexists; exact Hjid|]. split; [exact Hcmd | exact I].
      * apply list_elem_of_singleton in Hc. subst c.
        split; [eexists; exact Hjid|]. split; [exact Hcmd|].
        simpl. rewrite Hcontent. repeat split; auto.
  - eexists [_]. split; [reflexivity|]. intros c Hc.
    apply list_elem_of_singleton in Hc. subst c.
    split; [eexists; exact Hjid|]. split; [exact Hcmd | exact I].
Qed.

(** C8. An envelope whose message carries a reaction with [isRemove: true]
    never yields a Reaction: whatever is forwarded to the message handler has
    no reaction field. *)
Theorem removed_reaction_not_materialized env envelope st p r :
  payloadOf envelope = Some p →
  reaction p = Some r →
  isRemove r = Some true →
  ∃ new, calls (handleEnvelope env envelope st) = calls st ++ new
         ∧ ∀ chatJid m, OnMessage chatJid m ∈ new → msg_reaction m = None.
Proof.
  intros Hp Hr Hrem. unfold payloadOf in Hp. unfold handleEnvelope.
  assert (Hnone : ∀ msg, rawReaction msg = Some r →
                         buildReaction env msg = Returns None).
  { intros msg Hraw. unfold buildReaction. rewrite Hraw, Hrem. simpl.
    destruct (rr_emoji r); [rewrite andb_false_r|]; reflexivity. }
  destruct (dataMessage envelope) as [d|].
  - injection Hp as ->.
    match goal with |- context [processMessage env ?msg st] =>
      destruct (processMessage_calls env msg st) as (new & Hcalls & Hnew);
      exists new; split; [exact Hcalls|];
      intros chatJid m Hin; destruct (Hnew _ Hin) as (_ & _ & _ & _ & _ & Hre & _);
      rewrite (Hnone msg Hr) in Hre; injection Hre as <-; reflexivity
    end.
  - rewrite Hp.
    match goal with |- context [processMessage env ?msg st] =>
      destruct (processMessage_calls env msg st) as (new & Hcalls & Hnew);
      exists new; split; [exact Hcalls|];
      intros chatJid m Hin; destruct (Hnew _ Hin) as (_ & _ & _ & _ & _ & Hre & _);
      rewrite (Hnone msg Hr) in Hre; injection Hre as <-; reflexivity
    end.
Qed.

Lemma removed_reaction_not_materialized_witness :
  (∃ p r, payloadOf example_removed_reaction = Some p ∧ reaction p = Some r
          ∧ isRemove r = Some true) ∧
  ∃ new, calls (handleEnvelope example_env example_removed_reaction example_live)
           = calls example_live ++ new
         ∧ (∃ chatJid m, OnMessage chatJid m ∈ new)
         ∧ ∀ chatJid m, OnMessage chatJid m ∈ new → msg_reaction m = None.
Proof.
  split.
  - do 2 eexists. repeat split; reflexivity.
  - destruct (removed_reaction_not_materialized example_env example_removed_reaction
                example_live _ _ eq_refl eq_refl eq_refl) as (new & Hcalls & Hnone).
    exists new. split; [exact Hcalls|]. split; [|exact Hnone].
    vm_compute in Hcalls. subst new.
    do 2 eexists. apply list_elem_of_In. right. left. reflexivity.
Defined.

Lemma trimStart_snoc l c :
  is_space c = false → trimStart (l ++ [c]) ≠ [].
Proof.
  intros Hc. induction l as [|d l IH]; simpl.
  - rewrite Hc. discriminate.
  - destruct (is_space d); [exact IH | discriminate].
Qed.

Lemma truthy_trim_cons c s :
  is_space c = false → truthy (trim (c :: s)) = true.
Proof.
  intros Hc. unfold trim. simpl trimStart at 2. rewrite Hc.
  simpl rev at 2.
  pose proof (trimStart_snoc (rev s) c Hc) as Hne.
  destruct (trimStart (rev s ++ [c])) as [|x l] eqn:E; [congruence|].
  simpl. destruct (rev l ++ [x]) eqn:E2; [|reflexivity].
  destruct (rev l); discriminate.
Qed.

Lemma processMessage_forwards env msg st chatJid g ts r :
  chatJidOf msg = Some (chatJid, g) →
  isChatIdCommand env msg = false →
  registeredGroups env chatJid = true →
  isoTimestampOf env msg = Returns ts →
  buildReaction env msg = Returns r →
  truthy (trim (fst (buildContent env msg (buildAttachments env msg)
                       (buildQuote env msg) r))) = true →
  ∃ m, OnMessage chatJid m ∈ calls (processMessage env msg st)
       ∧ chat_jid m = chatJid
       ∧ msg_quote m = buildQuote env msg
       ∧ msg_reaction m = r.
Proof.
  intros Hjid Hcmd Hreg Hts Hr Hcontent. unfold processMessage.
  rewrite Hjid, Hts, Hcmd, Hreg, Hr. simpl negb. cbv iota.
  destruct (buildContent _ _ _ _ _) as [content0 atts]. simpl in Hcontent.
  rewrite Hcontent. simpl negb. cbv iota.
  eexists. split.
  - simpl. apply elem_of_app. right. apply list_elem_of_singleton. reflexivity.
  - simpl. auto.
Qed.

Lemma join_middle sep a x b :
  ∃ pre post, join sep (a ++ x :: b) = pre ++ x ++ post.
Proof.
  induction a as [|y a IH]; simpl.
  - exists []. destruct b; [exists [] | eexists]; simpl; [rewrite app_nil_r|]; reflexivity.
  - destruct IH as (pre & post & IH).
    destruct (a ++ x :: b) eqn:E; [destruct a; discriminate|].
    rewrite IH. exists (y ++ sep ++ pre), post.
    rewrite <- !app_assoc. reflexivity.
Qed.

Lemma attachmentStep_parts env atts parts kept :
  ∃ more, fst (foldl (attachmentStep env) (parts, kept) atts) = parts ++ more.
Proof.
  revert parts kept. induction atts as [|att atts IH]; intros parts kept; simpl.
  - exists []. rewrite app_nil_r. reflexivity.
  - unfold attachmentStep at 2. simpl.
    match goal with |- context [foldl _ (match ?t with _ => _ end) _] => destruct t end;
      match goal with |- context [foldl _ (?p ++ [?x], ?k) _] =>
        destruct (IH (p ++ [x]) k) as (more & ->) end;
      eexists; rewrite <- app_assoc; reflexivity.
Qed.

Lemma buildContent_quote env msg atts q r :
  ∃ pre post,
    fst (buildContent env msg atts (Some q) r) = pre ++ quotePart q ++ post.
Proof.
  unfold buildContent. simpl option_list.
  set (p0 := match in_message msg with
             | Some m => if truthy m then [m] else []
             | None => []
             end).
  destruct atts as [atts|].
  - destruct (attachmentStep_parts env atts
                ((p0 ++ [quotePart q]) ++ option_list (reactionPart <$> r)) [])
      as (more & Hmore).
    destruct (foldl _ _ atts) as [parts kept]. simpl in Hmore. subst parts. simpl.
    rewrite <- !app_assoc. simpl. apply join_middle.
  - simpl. rewrite <- !app_assoc. simpl. apply join_middle.
Qed.

Lemma quoteSnippet_length t : length (quoteSnippet t) ≤ 103.
Proof.
  unfold quoteSnippet. destruct (100 <? length t) eqn:E.
  - rewrite length_app. unfold slice, rel_index. rewrite length_take.
    change (length (js "...")) with 3.
    change (100 <? 0)%Z with false. change (0 <? 0)%Z with false. cbv iota.
    lia.
  - apply Nat.ltb_ge in E. lia.
Qed.

Lemma quoteSnippet_take t :
  quoteSnippet t = if 100 <? length t then take 100 t ++ js "..." else t.
Proof.
  unfold quoteSnippet. destruct (100 <? length t) eqn:E; [|reflexivity].
  apply Nat.ltb_lt in E. unfold slice, rel_index.
  change (100 <? 0)%Z with false. change (0 <? 0)%Z with false. cbv iota.
  replace (Z.to_nat (Z.min 100 (Z.of_nat (length t)) - Z.min 0 (Z.of_nat (length t))))
    with 100 by lia.
  replace (Z.to_nat (Z.min 0 (Z.of_nat (length t)))) with 0 by lia.
  reflexivity.
Qed.

(** C5, as the code has it. For every inbound message that carries a quote,
    the Quote handed to the message handler holds the quoted text in full;
    what is truncated is the snippet in the quote annotation of the forwarded
    content: the first 100 code units followed by "..." when the text is
    longer than 100 code units, at most 103 code units in all. *)
Theorem quote_truncated_inline_only env envelope st p q :
  payloadOf envelope = Some p →
  quote p = Some q →
  ∃ new, calls (handleEnvelope env envelope st) = calls st ++ new
    ∧ ∀ chatJid m, OnMessage chatJid m ∈ new →
        let full := or_default (rq_text q) [] in
        ∃ author,
          msg_quote m = Some (mkQuote author full)
          ∧ (∃ pre post,
               content m = pre ++ js "[replying to " ++ author ++ js ": "
                               ++ quoteSnippet full ++ js "]" ++ post)
          ∧ quoteSnippet full
              = (if 100 <? length full then take 100 full ++ js "..." else full)
          ∧ length (quoteSnippet full) ≤ 103.
Proof.
  intros Hp Hq. unfold payloadOf in Hp. unfold handleEnvelope.
  assert (Hgen : ∀ msg, rawQuote msg = Some q →
            ∃ new, calls (processMessage env msg st) = calls st ++ new
              ∧ ∀ chatJid m, OnMessage chatJid m ∈ new →
                  let full := or_default (rq_text q) [] in
                  ∃ author,
                    msg_quote m = Some (mkQuote author full)
                    ∧ (∃ pre post,
                         content m = pre ++ js "[replying to " ++ author ++ js ": "
                                         ++ quoteSnippet full ++ js "]" ++ post)
                    ∧ quoteSnippet full
                        = (if 100 <? length full then take 100 full ++ js "..." else full)
                    ∧ length (quoteSnippet full) ≤ 103).
  { intros msg Hraw.
    destruct (processMessage_calls env msg st) as (new & Hcalls & Hnew).
    exists new. split; [exact Hcalls|].
    intros chatJid m Hin full.
    destruct (Hnew _ Hin) as (_ & _ & _ & _ & Hquote & _ & Hcontent).
    assert (Hb : ∃ author, buildQuote env msg = Some (mkQuote author full)).
    { unfold buildQuote. rewrite Hraw. eexists. reflexivity. }
    destruct Hb as (author0 & Hb). exists author0.
    rewrite Hb in Hquote, Hcontent.
    split; [exact Hquote|]. split.
    - destruct (buildContent_quote env msg (buildAttachments env msg)
                  (mkQuote author0 full) (msg_reaction m)) as (pre & post & Hc).
      exists pre, post. rewrite Hcontent, Hc. unfold quotePart. simpl q_author.
      simpl q_text. rewrite <- !app_assoc. reflexivity.
    - split; [apply quoteSnippet_take | apply quoteSnippet_length]. }
  destruct (dataMessage envelope) as [d|].
  - injection Hp as ->. apply Hgen. exact Hq.
  - rewrite Hp. apply Hgen. exact Hq.
Qed.

Lemma example_quoted_forwarded n st :
  ∃ chatJid m,
    OnMessage chatJid m ∈ calls (handleEnvelope example_env (example_quoted n) st)
    ∧ ∃ author, msg_quote m = Some (mkQuote author (replicate n (N_of_ascii "a"))).
Proof.
  unfold handleEnvelope, example_quoted, received. simpl dataMessage. cbv iota.
  match goal with |- context [processMessage example_env ?msg st] =>
    destruct (processMessage_forwards example_env msg st
                (js "signal:+15551111") false (js "T1700000000123") None)
      as (m & Hin & _ & Hq & _)
  end.
  - reflexivity.
  - vm_compute. reflexivity.
  - vm_compute. reflexivity.
  - vm_compute. reflexivity.
  - reflexivity.
  - apply truthy_trim_cons. reflexivity.
  - exists (js "signal:+15551111"), m. split; [exact Hin|].
    rewrite Hq. unfold buildQuote. simpl rawQuote. cbv iota.
    simpl rq_text. destruct n; eexists; reflexivity.
Qed.

Lemma quote_truncated_inline_only_witness :
  (∃ p q, payloadOf (example_quoted 101) = Some p ∧ quote p = Some q) ∧
  ∃ chatJid m,
    OnMessage chatJid m ∈ calls (handleEnvelope example_env (example_quoted 101) example_live)
    ∧ (∃ author full, msg_quote m = Some (mkQuote author full) ∧ length full = 101)
    ∧ ∃ pre post,
        content m = pre ++ js "[replying to +15552222: "
                        ++ replicate 100 (N_of_ascii "a") ++ js "...]" ++ post.
Proof.
  split; [do 2 eexists; split; reflexivity|].
  destruct (quote_truncated_inline_only example_env (example_quoted 101) example_live
              _ _ eq_refl eq_refl) as (new & Hcalls & Hnew).
  vm_compute in Hcalls. subst new.
  do 2 eexists. split; [apply list_elem_of_In; right; left; reflexivity|].
  split.
  - do 2 eexists. split; reflexivity.
  - exists (js "hi" ++ newline), []. vm_compute. reflexivity.
Defined.

(** C5 as worded fails: the quote handed to the handler is not truncated;
    for every bound some forwarded quote text is longer. *)
Lemma forwarded_quote_not_bounded :
  (∃ chatJid m q,
     OnMessage chatJid m
       ∈ calls (handleEnvelope example_env (example_quoted 101) example_live)
     ∧ msg_quote m = Some q ∧ length (q_text q) = 101)
  ∧ ¬ forwarded_quote_bounded.
Proof.
  split.
  { do 3 eexists. split; [|split].
    - vm_compute. apply list_elem_of_In. right. left. reflexivity.
    - reflexivity.
    - reflexivity. }
  intros [bound Hb].
  destruct (example_quoted_forwarded (S bound) new_channel)
    as (chatJid & m & Hin & author0 & Hq).
  specialize (Hb example_env (example_quoted (S bound)) new_channel chatJid m
                 _ eq_refl Hin Hq).
  cbn [q_text] in Hb. rewrite length_replicate in Hb. lia.
Qed.








(** The same on a whole envelope: no handler is called and the reply is the
    one line written to the subprocess. *)
Example chatid_envelope :
  calls (handleEnvelope example_env example_chatid example_live) = []
  ∧ (written <$> proc (handleEnvelope example_env example_chatid example_live))
    = Some [mkRequest (js "send") (js "rpc-1")
              [(js "message", JStr (js "Chat ID: signal:+15551111"));
               (js "recipient", JArr [js "+15551111"])]].
Proof. split; vm_compute; reflexivity. Qed.

Lemma or_else_truthy a b :
  truthy_str (or_else a b) =
    match truthy_str a with Some x => Some x | None => truthy_str b end.
Proof.
  unfold or_else, truthy_str, truthy_opt.
  destruct a as [[|c a]|]; simpl; reflexivity.
Qed.

(** C1, as the code has it. For every echo whose sent message carries no
    group id and names a destination (its number, else its UUID, else the
    [destination] field), every chat identity the decoder reports or forwards
    is "signal:" followed by that destination, whatever the source of the
    envelope is. *)
Theorem echo_identity_from_destination env envelope sent st d :
  dataMessage envelope = None →
  syncMessage envelope ≫= sentMessage = Some sent →
  truthy_str (groupInfo sent ≫= groupId) = None →
  destinationOf sent = Some d →
  ∃ new, calls (handleEnvelope env envelope st) = calls st ++ new
    ∧ ∀ c, c ∈ new →
        call_jid c = js "signal:" ++ d
        ∧ match c with
          | OnMessage _ m => chat_jid m = js "signal:" ++ d
          | OnChatMetadata _ _ _ _ _ => True
          end.
Proof.
  intros Hdata Hsync Hgroup Hdest. unfold handleEnvelope.
  rewrite Hdata, Hsync.
  match goal with |- context [processMessage env ?msg st] =>
    destruct (processMessage_calls env msg st) as (new & Hcalls & Hnew);
    assert (Hjid : chatJidOf msg = Some (js "signal:" ++ d, false))
  end.
  { unfold chatJidOf. simpl in_groupInfo. rewrite Hgroup. simpl sourceId.
    unfold destinationOf in Hdest. rewrite !or_else_truthy in *.
    destruct (truthy_str (destinationNumber sent)).
    - injection Hdest as ->. reflexivity.
    - destruct (truthy_str (destinationUuid sent)).
      + injection Hdest as ->. reflexivity.
      + rewrite Hdest. reflexivity. }
  exists new. split; [exact Hcalls|].
  intros c Hc. destruct (Hnew c Hc) as ([g Hg] & _ & Hrest).
  rewrite Hjid in Hg. injection Hg as Hg _.
  split; [symmetry; exact Hg|].
  destruct c as [| chatJid m]; [exact I|].
  destruct Hrest as (Hm & _). simpl in Hg. rewrite Hm. symmetry. exact Hg.
Qed.

Lemma echo_identity_from_destination_witness :
  (dataMessage example_echo = None
   ∧ (∃ sent, syncMessage example_echo ≫= sentMessage = Some sent
              ∧ truthy_str (groupInfo sent ≫= groupId) = None
              ∧ destinationOf sent = Some (js "+15551111")))
  ∧ ∃ new, calls (handleEnvelope example_env example_echo example_live)
             = calls example_live ++ new
      ∧ (∃ m, OnMessage (js "signal:+15551111") m ∈ new)
      ∧ ∀ c, c ∈ new →
          call_jid c = js "signal:+15551111"
          ∧ match c with
            | OnMessage _ m => chat_jid m = js "signal:+15551111"
            | OnChatMetadata _ _ _ _ _ => True
            end.
Proof.
  split; [split; [reflexivity | eexists; repeat split; reflexivity]|].
  destruct (echo_identity_from_destination example_env example_echo _ example_live
              (js "+15551111") eq_refl eq_refl eq_refl eq_refl)
    as (new & Hcalls & Hnew).
  exists new. split; [exact Hcalls|]. split; [|exact Hnew].
  vm_compute in Hcalls. subst new.
  eexists. apply list_elem_of_In. right. left. reflexivity.
Defined.

(** C1 as worded fails: an echo that names no destination is filed under the
    source of the envelope, and an echo into a group under the group id. *)
Lemma echo_identity_not_always_destination :
  (∃ m, OnMessage (js "signal:+15552222") m
          ∈ calls (handleEnvelope example_env example_echo_no_destination example_live))
  ∧ (∃ m, OnMessage (js "signal:grp1") m
            ∈ calls (handleEnvelope example_env example_echo_group example_live))
  ∧ ¬ echo_identity_is_destination.
Proof.
  assert (Hin : ∃ m, OnMessage (js "signal:+15552222") m
                       ∈ calls (handleEnvelope example_env example_echo_no_destination
                                  example_live)
                     ∧ chat_jid m = js "signal:+15552222").
  { eexists. split; [vm_compute; apply list_elem_of_In; right; left; reflexivity|].
    reflexivity. }
  split; [|split].
  - destruct Hin as (m & Hm & _). exists m. exact Hm.
  - eexists. vm_compute. apply list_elem_of_In. right. left. reflexivity.
  - intros H. destruct Hin as (m & Hin & Hm).
    destruct (H example_env example_echo_no_destination _ example_live _ m
                eq_refl eq_refl eq_refl Hin) as (d & [Hd|Hd] & _); discriminate.
Qed.

(** ** Properties of the channel state that every handler keeps

    A property of the correlation table and the call counter that survives
    a call and the removal of entries holds in every reachable state. *)

Section Preserved.
Variable P : Channel → Prop.
Hypothesis P_removal : ∀ st st',
  pendingRpc st' ⊆ pendingRpc st → rpcIdCounter st' = rpcIdCounter st → P st → P st'.
Hypothesis P_rpcCall : ∀ method params st, P st → P (snd (rpcCall method params st)).

Lemma P_same st st' :
  pendingRpc st' = pendingRpc st → rpcIdCounter st' = rpcIdCounter st → P st → P st'.
Proof using P_removal. intros H1 H2. apply P_removal; [rewrite H1; reflexivity | exact H2]. Qed.

Lemma P_rpcSend jid text atts st : P st → P (snd (rpcSend jid text atts st)).
Proof using P_rpcCall. unfold rpcSend. apply P_rpcCall. Qed.

Lemma P_processMessage env msg st : P st → P (processMessage env msg st).
Proof using P_removal P_rpcCall.
  intros H. unfold processMessage.
  destruct (chatJidOf msg) as [[chatJid isGroup]|]; [|exact H].
  destruct (isoTimestampOf env msg) as [isoTimestamp|]; [|exact H].
  destruct (isChatIdCommand env msg); [apply P_rpcSend, H|].
  destruct (negb (registeredGroups env chatJid));
    [eapply P_same; [| |exact H]; reflexivity|].
  destruct (buildReaction env msg) as [reaction0|];
    [|eapply P_same; [| |exact H]; reflexivity].
  destruct (buildContent _ _ _ _ _) as [content atts].
  destruct (negb (truthy (trim content)));
    eapply P_same; [| |exact H| | |exact H]; reflexivity.
Qed.

Lemma P_handleEnvelope env envelope st : P st → P (handleEnvelope env envelope st).
Proof using P_removal P_rpcCall.
  intros H. unfold handleEnvelope.
  destruct (dataMessage envelope); [apply P_processMessage, H|].
  destruct (syncMessage envelope ≫= sentMessage); [apply P_processMessage, H | exact H].
Qed.

Lemma P_handleJsonRpcMessage env msg st :
  P st → P (snd (handleJsonRpcMessage env msg st)).
Proof using P_removal P_rpcCall.
  intros H. unfold handleJsonRpcMessage.
  destruct (truthy_str (rm_id msg)) as [id|].
  - destruct (pendingRpc st !! id); [|exact H].
    simpl. eapply P_removal; [| |exact H]; [apply delete_subseteq | reflexivity].
  - destruct (decide _); [|exact H].
    destruct (rm_envelope msg); [apply P_handleEnvelope, H | exact H].
Qed.

Lemma P_handleLine parse env st line : P st → P (handleLine parse env st line).
Proof using P_removal P_rpcCall.
  intros H. unfold handleLine.
  destruct (_ || _); [exact H|].
  destruct (parse _); [apply P_handleJsonRpcMessage, H | exact H].
Qed.

Lemma P_onStdoutData parse env chunk bst :
  P (snd bst) → P (snd (onStdoutData parse env chunk bst)).
Proof using P_removal P_rpcCall.
  intros H. unfold onStdoutData. simpl.
  apply FormattingFacts.foldl_preserves; [intros; apply P_handleLine; assumption | exact H].
Qed.

Lemma P_enqueue item st : P st → P (enqueue item st).
Proof using P_removal.
  intros H. unfold enqueue.
  destruct (_ <=? _); eapply P_same; [| |exact H| | |exact H]; reflexivity.
Qed.

Lemma P_sendMessage jid text atts st : P st → P (snd (sendMessage jid text atts st)).
Proof using P_removal P_rpcCall.
  intros H. unfold sendMessage. destruct (negb (connected st)).
  - apply P_enqueue, H.
  - pose proof (P_rpcSend jid text atts st H) as H'.
    destruct (rpcSend jid text atts st). exact H'.
Qed.

Lemma P_flushLoop st : P st → P (snd (flushLoop st)).
Proof using P_removal P_rpcCall.
  intros H. unfold flushLoop. destruct (outgoingQueue st) as [|item rest].
  - eapply P_same; [| |exact H]; reflexivity.
  - assert (H0 : P (set_outgoingQueue rest st))
      by (eapply P_same; [| |exact H]; reflexivity).
    pose proof (P_rpcSend (jid item) (q_body item) (q_attachments item) _ H0) as H'.
    destruct (rpcSend _ _ _ _). exact H'.
Qed.

Lemma P_flushOutgoingQueue st : P st → P (snd (flushOutgoingQueue st)).
Proof using P_removal P_rpcCall.
  intros H. unfold flushOutgoingQueue. destruct (_ || _); [exact H|].
  apply P_flushLoop. eapply P_same; [| |exact H]; reflexivity.
Qed.

Lemma P_step env st ev : P st → P (step env st ev).
Proof using P_removal P_rpcCall.
  intros H. destruct ev; simpl.
  - eapply P_same; [| |exact H]; reflexivity.
  - eapply P_same; [| |exact H]; reflexivity.
  - destruct (connected _); eapply P_same; [| |exact H| | |exact H]; reflexivity.
  - eapply P_removal; [| |exact H]; [apply map_empty_subseteq | reflexivity].
  - apply P_sendMessage, H.
  - apply P_enqueue, H.
  - unfold flushStep. destruct (outgoingQueue st) as [|item rest]; [exact H|].
    assert (H0 : P (set_outgoingQueue rest st))
      by (eapply P_same; [| |exact H]; reflexivity).
    pose proof (P_rpcSend (jid item) (q_body item) (q_attachments item) _ H0) as H'.
    destruct (rpcSend _ _ _ _). exact H'.
  - eapply P_removal; [| |exact H]; [apply delete_subseteq | reflexivity].
  - apply P_handleEnvelope, H.
Qed.

Lemma P_setTyping jtrue jid isTyping ts :
  P (snd ts) → P (snd (setTyping jtrue jid isTyping ts)).
Proof using P_rpcCall.
  intros H. unfold setTyping. destruct (negb (connected _)); [exact H|].
  destruct (negb isTyping); simpl; apply P_rpcCall, H.
Qed.

Lemma P_wstep parse jtrue env w a : P (chan w) → P (chan (wstep parse jtrue env w a)).
Proof using P_removal P_rpcCall.
  intros H. destruct a as [ev|chunk|jid isTyping|h|h|msg| | | |result|method params].
  - destruct ev; try exact (P_step env (chan w) _ H).
    exact (P_step env (chan w) Disconnect H).
  - exact (P_onStdoutData parse env chunk (stdoutBuffer w, chan w) H).
  - exact (P_setTyping jtrue jid isTyping (typing w, chan w) H).
  - unfold wstep, typingTick. cbn [chan fst snd].
    destruct (_ !! _); [apply P_rpcCall, H | exact H].
  - unfold wstep, typingCeiling. cbn [chan fst snd]. destruct (_ !! _); [|exact H].
    destruct (_ !! _); exact H.
  - exact (P_handleJsonRpcMessage env msg (chan w) H).
  - exact (P_flushOutgoingQueue (chan w) H).
  - exact (P_flushLoop (chan w) H).
  - unfold wstep, flush_rejected. cbn [chan]. eapply P_same; [| |exact H]; reflexivity.
  - exact H.
  - exact (P_rpcCall method params (chan w) H).
Qed.

Lemma P_wrun parse jtrue env acts w : P (chan w) → P (chan (wrun parse jtrue env acts w)).
Proof using P_removal P_rpcCall.
  revert w. induction acts as [|a acts IH]; intros w H; [exact H|].
  apply IH, P_wstep, H.
Qed.

End Preserved.

(** ** Call identifiers *)

Lemma js_inj s s' : js s = js s' → s = s'.
Proof.
  unfold js. intros H.
  assert (G : ∀ l, map ascii_of_N (map N_of_ascii l) = l).
  { induction l as [|a l IH]; simpl; [reflexivity|].
    rewrite ascii_N_embedding, IH. reflexivity. }
  apply (f_equal (map ascii_of_N)) in H. rewrite !G in H.
  apply (f_equal string_of_list_ascii) in H.
  rewrite !string_of_list_ascii_of_string in H. exact H.
Qed.

Lemma to_int_not_nil z :
  Z.to_int z ≠ Decimal.Pos Decimal.Nil ∧ Z.to_int z ≠ Decimal.Neg Decimal.Nil.
Proof.
  split; intros H; pose proof (f_equal Z.of_int H) as H';
    rewrite DecimalZ.of_to in H'; simpl in H'; subst z; vm_compute in H; discriminate.
Qed.

Lemma decimal_inj z z' : decimal z = decimal z' → z = z'.
Proof.
  unfold decimal. intros H. apply js_inj in H.
  apply (f_equal NilZero.int_of_string) in H.
  destruct (to_int_not_nil z), (to_int_not_nil z').
  rewrite !NilZero.isi in H by assumption.
  injection H as H. apply DecimalZ.to_int_inj, H.
Qed.

Lemma rpc_ok_removal st st' :
  pendingRpc st' ⊆ pendingRpc st → rpcIdCounter st' = rpcIdCounter st →
  rpc_ok st → rpc_ok st'.
Proof.
  intros Hsub Hc [Hsz Hid]. split.
  - pose proof (map_subseteq_size _ _ Hsub). lia.
  - intros id [pc Hpc]. rewrite Hc. apply Hid.
    exists pc. exact (lookup_weaken _ _ _ _ Hpc Hsub).
Qed.

(** What a call does to the table of a state whose keys have been issued. *)
Lemma rpcCall_issued method params st :
  rpc_ok st →
  let id := js "rpc-" ++ decimal (rpcIdCounter st + 1) in
  pendingRpc st !! id = None
  ∧ (rpcCall method params st = (Rejected (js "RPC cap exceeded (100 pending calls)"), st)
     ∨ rpcCall method params st
       = (Rejected (js "signal-cli stdin not writable"),
          set_rpcIdCounter (rpcIdCounter st + 1) st)
     ∨ size (pendingRpc st) < 100
       ∧ ∃ p, proc st = Some p ∧ writable p = true
         ∧ rpcCall method params st
           = (Pending id,
              mkChannel (Some (mkProc true (written p ++ [mkRequest method id params])))
                        (connected st) (outgoingQueue st) (flushing st)
                        (rpcIdCounter st + 1)
                        (<[id := mkPendingCall method]> (pendingRpc st)) (calls st))).
Proof.
  intros [Hsz Hid] id.
  assert (Hfresh : pendingRpc st !! id = None).
  { destruct (pendingRpc st !! id) as [pc|] eqn:Hpc; [|reflexivity].
    destruct (Hid id) as (k & Hk & Hidk); [eauto|].
    apply app_inv_head, decimal_inj in Hidk. lia. }
  split; [exact Hfresh|].
  destruct (decide (100 ≤ size (pendingRpc st))) as [Hcap | Hcap].
  { left. apply rpcCall_cap_reached. exact Hcap. }
  right. unfold rpcCall.
  destruct (MAX_PENDING_RPC <=? size (pendingRpc st)) eqn:E;
    [apply Nat.leb_le in E; unfold MAX_PENDING_RPC in E; lia|].
  fold id. cbn [proc set_pendingRpc set_rpcIdCounter pendingRpc].
  assert (Hdel : delete id (<[id := mkPendingCall method]> (pendingRpc st))
                 = pendingRpc st).
  { rewrite delete_insert_eq. apply delete_id, Hfresh. }
  destruct (proc st) as [p|] eqn:Hp; [destruct (writable p) eqn:Hw|].
  - right. split; [lia|]. exists p. split; [reflexivity|]. split; [exact Hw|].
    unfold set_proc, set_pendingRpc, set_rpcIdCounter. simpl. reflexivity.
  - left. unfold set_pendingRpc, set_rpcIdCounter. simpl. rewrite Hdel, Hp. reflexivity.
  - left. unfold set_pendingRpc, set_rpcIdCounter. simpl. rewrite Hdel, Hp. reflexivity.
Qed.

Lemma rpc_ok_rpcCall method params st :
  rpc_ok st → rpc_ok (snd (rpcCall method params st)).
Proof.
  intros Hok. pose proof Hok as [Hsz Hid].
  destruct (rpcCall_issued method params st Hok) as [Hfresh [-> | [-> | (Hlt & p & Hp & Hw & ->)]]];
    cbn [snd].
  - exact Hok.
  - split; [exact Hsz|]. intros i Hi. destruct (Hid i Hi) as (k & Hk & ->).
    exists k. cbn [set_rpcIdCounter rpcIdCounter]. split; [lia | reflexivity].
  - split; cbn [pendingRpc rpcIdCounter].
    + rewrite map_size_insert, Hfresh. unfold MAX_PENDING_RPC. lia.
    + intros i [pc Hi].
      destruct (decide (i = js "rpc-" ++ decimal (rpcIdCounter st + 1))) as [-> | Hne].
      * exists (rpcIdCounter st + 1)%Z. split; [lia | reflexivity].
      * rewrite lookup_insert_ne in Hi by congruence.
        destruct (Hid i) as (k & Hk & ->); [eauto|].
        exists k. split; [lia | reflexivity].
Qed.

Lemma rpc_ok_reachable parse jtrue env acts :
  rpc_ok (chan (wrun parse jtrue env acts new_world)).
Proof.
  apply (P_wrun rpc_ok rpc_ok_removal rpc_ok_rpcCall).
  split; [simpl; rewrite map_size_empty; unfold MAX_PENDING_RPC; lia|].
  intros id [pc Hpc]. simpl in Hpc. rewrite lookup_empty in Hpc. discriminate.
Qed.

(** X6: in every state the channel can reach, whatever is sent, received,
    timed out or disconnected, the correlation table holds at most one
    hundred pending calls. *)
Theorem pendingRpc_bounded parse jtrue env acts :
  size (pendingRpc (chan (wrun parse jtrue env acts new_world))) ≤ 100.
Proof. exact (proj1 (rpc_ok_reachable parse jtrue env acts)). Qed.

(** X7: in every reachable state the identifier of a new call is not the key
    of a pending one: an accepted call adds exactly one entry and writes
    exactly one request, and a rejected call leaves the table and the
    transport as they were. *)
Theorem rpcCall_identifier_fresh parse jtrue env acts method params :
  let st := chan (wrun parse jtrue env acts new_world) in
  let r := rpcCall method params st in
  match fst r with
  | Pending id =>
      pendingRpc st !! id = None
      ∧ pendingRpc (snd r) = <[id := mkPendingCall method]> (pendingRpc st)
      ∧ size (pendingRpc (snd r)) = S (size (pendingRpc st))
      ∧ written <$> proc (snd r)
        = (λ p, written p ++ [mkRequest method id params]) <$> proc st
  | Rejected _ =>
      pendingRpc (snd r) = pendingRpc st ∧ proc (snd r) = proc st
  end.
Proof.
  intros st r. subst r.
  destruct (rpcCall_issued method params st (rpc_ok_reachable parse jtrue env acts))
    as [Hfresh [-> | [-> | (Hlt & p & Hp & Hw & ->)]]]; cbn [fst snd pendingRpc proc].
  - split; reflexivity.
  - split; reflexivity.
  - split; [exact Hfresh|]. split; [reflexivity|].
    split; [rewrite map_size_insert, Hfresh; reflexivity|].
    rewrite Hp. reflexivity.
Qed.
(** ** Responses *)

(** X8: a response settles its call once. It resolves or rejects the pending
    call with its identifier and removes the entry, touching nothing else;
    delivered again, or after the timer of the call has removed the entry,
    it settles nothing and changes nothing. *)
Theorem response_settles_once env msg st id pc :
  rm_id msg = Some id → id ≠ [] →
  pendingRpc st !! id = Some pc →
  let r := handleJsonRpcMessage env msg st in
  fst r = Some (if rm_error msg then Rejects id else Resolves id)
  ∧ pendingRpc (snd r) = delete id (pendingRpc st)
  ∧ proc (snd r) = proc st ∧ calls (snd r) = calls st
  ∧ handleJsonRpcMessage env msg (snd r) = (None, snd r)
  ∧ handleJsonRpcMessage env msg (rpcTimeout id st) = (None, rpcTimeout id st).
Proof.
  intros Hid Hne Hpc r. subst r. unfold handleJsonRpcMessage.
  rewrite Hid. destruct id as [|d id]; [contradiction|]. cbn [truthy_str truthy].
  rewrite Hpc. cbn [fst snd set_pendingRpc pendingRpc proc calls rpcTimeout].
  rewrite lookup_delete_eq. repeat split; reflexivity.
Qed.

Lemma response_settles_once_witness :
  let st := snd (rpcCall (js "version") [] example_live) in
  let msg := mkRpcMessage (Some (js "rpc-1")) false None None in
  pendingRpc st !! js "rpc-1" = Some (mkPendingCall (js "version"))
  ∧ fst (handleJsonRpcMessage example_env msg st) = Some (Resolves (js "rpc-1"))
  ∧ handleJsonRpcMessage example_env msg (snd (handleJsonRpcMessage example_env msg st))
    = (None, snd (handleJsonRpcMessage example_env msg st)).
Proof.
  intros st msg.
  assert (Hpc : pendingRpc st !! js "rpc-1" = Some (mkPendingCall (js "version")))
    by (vm_compute; reflexivity).
  assert (Hne : js "rpc-1" ≠ []) by discriminate.
  destruct (response_settles_once example_env msg st (js "rpc-1") _ eq_refl Hne Hpc)
    as (H1 & _ & _ & _ & H2 & _).
  split; [exact Hpc|]. split; [exact H1 | exact H2].
Defined.

(** ** Addressing *)

Lemma stripSignal_prefixed x : stripSignal (js "signal:" ++ x) = x.
Proof. destruct x; vm_compute; reflexivity. Qed.

Lemma rpcSend_sendParams jid text atts st :
  rpcSend jid text atts st = rpcCall (js "send") (sendParams (mkQueued jid text atts)) st.
Proof.
  unfold rpcSend, sendParams, addressOf. cbn [q_body Signal.jid q_attachments].
  destruct (startsWith (stripSignal jid) (js "+")); [|destruct (is_uuid (stripSignal jid))];
    destruct atts as [[|a l]|]; reflexivity.
Qed.

Lemma rpcCall_accepted method params st p :
  proc st = Some p → writable p = true → size (pendingRpc st) < 100 →
  rpcCall method params st
  = (Pending (js "rpc-" ++ decimal (rpcIdCounter st + 1)),
     mkChannel (Some (mkProc true (written p
                  ++ [mkRequest method (js "rpc-" ++ decimal (rpcIdCounter st + 1)) params])))
               (connected st) (outgoingQueue st) (flushing st) (rpcIdCounter st + 1)
               (<[js "rpc-" ++ decimal (rpcIdCounter st + 1) := mkPendingCall method]>
                  (pendingRpc st))
               (calls st)).
Proof.
  intros Hp Hw Hsz. unfold rpcCall.
  destruct (MAX_PENDING_RPC <=? size (pendingRpc st)) eqn:E;
    [apply Nat.leb_le in E; unfold MAX_PENDING_RPC in E; lia|].
  cbn [proc set_pendingRpc set_rpcIdCounter]. rewrite Hp, Hw. reflexivity.
Qed.

(** X9: a reply to the identity the decoder reported for a message is written
    as one send request addressed to the group id or the source id of that
    message, the prefix removed. The address is a recipient when that id
    starts with a plus sign or has the layout of a UUID, for a group as
    well, and a group id otherwise. *)
Theorem reply_addressing msg chatJid isGroup text st p :
  chatJidOf msg = Some (chatJid, isGroup) →
  proc st = Some p → writable p = true → size (pendingRpc st) < 100 →
  ∃ x id,
    chatJid = js "signal:" ++ x
    ∧ (if isGroup then in_groupInfo msg ≫= groupId else sourceId msg) = Some x
    ∧ written <$> proc (snd (rpcSend chatJid text None st))
      = Some (written p
              ++ [mkRequest (js "send") id
                    [(js "message", JStr text);
                     if startsWith x (js "+") || is_uuid x
                     then (js "recipient", JArr [x])
                     else (js "groupId", JStr x)]]).
Proof.
  intros Hjid Hp Hw Hsz.
  assert (Hx : ∃ x, chatJid = js "signal:" ++ x
                    ∧ (if isGroup then in_groupInfo msg ≫= groupId else sourceId msg)
                      = Some x).
  { unfold chatJidOf in Hjid.
    destruct (in_groupInfo msg ≫= groupId) as [[|d g]|] eqn:Hg; cbn [truthy_str truthy] in Hjid.
    - destruct (sourceId msg) as [[|d s]|]; cbn [truthy_str truthy] in Hjid;
        try discriminate.
      injection Hjid as <- <-. eexists. split; reflexivity.
    - injection Hjid as <- <-. eexists. split; reflexivity.
    - destruct (sourceId msg) as [[|d s]|]; cbn [truthy_str truthy] in Hjid;
        try discriminate.
      injection Hjid as <- <-. eexists. split; reflexivity. }
  destruct Hx as (x & -> & Hx). exists x. eexists. split; [reflexivity|].
  split; [exact Hx|].
  rewrite rpcSend_sendParams, (rpcCall_accepted _ _ _ _ Hp Hw Hsz).
  unfold sendParams, addressOf. cbn [q_body jid q_attachments snd proc fmap option_fmap option_map written].
  rewrite stripSignal_prefixed. reflexivity.
Qed.

Lemma reply_addressing_witness :
  chatJidOf example_chatid_inbound = Some (js "signal:+15551111", false)
  ∧ ∃ x id,
      js "signal:+15551111" = js "signal:" ++ x
      ∧ sourceId example_chatid_inbound = Some x
      ∧ written <$> proc (snd (rpcSend (js "signal:+15551111") (js "ok") None example_live))
        = Some ([] ++ [mkRequest (js "send") id
                         [(js "message", JStr (js "ok"));
                          if startsWith x (js "+") || is_uuid x
                          then (js "recipient", JArr [x])
                          else (js "groupId", JStr x)]]).
Proof.
  split; [reflexivity|].
  apply (reply_addressing example_chatid_inbound (js "signal:+15551111") false (js "ok")
           example_live (mkProc true []));
    [reflexivity | reflexivity | reflexivity | vm_compute; lia].
Defined.
(** ** Flushing the queue *)

Lemma flushLoop_answered env q : ∀ st p,
  outgoingQueue st = q → proc st = Some p → writable p = true →
  flushing st = true → size (pendingRpc st) < 100 →
  let st' := flushAnswered env (length q) (flushLoop st) in
  outgoingQueue st' = [] ∧ flushing st' = false
  ∧ written <$> proc st'
    = Some (written p
            ++ imap (λ k item,
                       mkRequest (js "send")
                                 (js "rpc-" ++ decimal (rpcIdCounter st + 1 + Z.of_nat k))
                                 (sendParams item)) q).
Proof.
  induction q as [|item rest IH]; intros st p Hq Hp Hw Hf Hsz; unfold flushLoop; rewrite Hq.
  - cbn [length flushAnswered set_flushing outgoingQueue flushing proc imap].
    rewrite Hq, Hp, app_nil_r. repeat split; reflexivity.
  - assert (Hitem : mkQueued (jid item) (q_body item) (q_attachments item) = item)
      by (destruct item; reflexivity).
    rewrite rpcSend_sendParams, Hitem.
    rewrite (rpcCall_accepted _ _ (set_outgoingQueue rest st) p Hp Hw Hsz).
    cbn [set_outgoingQueue proc connected flushing rpcIdCounter pendingRpc calls
         length flushAnswered].
    set (id := js "rpc-" ++ decimal (rpcIdCounter st + 1)).
    unfold handleJsonRpcMessage, okResponse. cbn [rm_id pendingRpc rm_error].
    assert (Hid : truthy_str (Some id) = Some id) by reflexivity.
    rewrite Hid, lookup_insert_eq.
    cbn [snd]. unfold flush_resolved, set_pendingRpc, set_outgoingQueue.
    cbn [proc connected outgoingQueue flushing rpcIdCounter pendingRpc calls].
    match goal with |- context [flushLoop ?s] => set (st3 := s) end.
    assert (Hsz3 : size (pendingRpc st3) < 100).
    { subst st3. cbn [pendingRpc]. rewrite delete_insert_eq.
      pose proof (map_subseteq_size _ _ (delete_subseteq (pendingRpc st) id)). lia. }
    destruct (IH st3 (mkProc true (written p ++ [mkRequest (js "send") id (sendParams item)]))
                eq_refl eq_refl eq_refl Hf Hsz3) as (H1 & H2 & H3).
    split; [exact H1|]. split; [exact H2|].
    rewrite H3. cbn [written imap]. subst st3. cbn [rpcIdCounter].
    rewrite <- app_assoc. cbn [app]. do 3 f_equal.
    + subst id. rewrite Z.add_0_r. reflexivity.
    + apply imap_ext. intros k x _. unfold compose.
      replace (rpcIdCounter st + 1 + 1 + Z.of_nat k)%Z
        with (rpcIdCounter st + 1 + Z.of_nat (S k))%Z by lia.
      reflexivity.
Qed.

(** X10: a flush whose sends are all answered empties the queue in order:
    the queued messages are written to the subprocess oldest first, each as
    one send request with the next call identifier, the queue is empty
    afterwards and the flush is over. *)
Theorem flush_in_order env st p :
  proc st = Some p → writable p = true →
  flushing st = false → size (pendingRpc st) < 100 →
  let st' := flushAnswered env (length (outgoingQueue st)) (flushOutgoingQueue st) in
  outgoingQueue st' = [] ∧ flushing st' = false
  ∧ written <$> proc st'
    = Some (written p
            ++ imap (λ k item,
                       mkRequest (js "send")
                                 (js "rpc-" ++ decimal (rpcIdCounter st + 1 + Z.of_nat k))
                                 (sendParams item))
                    (outgoingQueue st)).
Proof.
  intros Hp Hw Hf Hsz. unfold flushOutgoingQueue. rewrite Hf. cbn [orb].
  destruct (outgoingQueue st) as [|item rest] eqn:Hq.
  - cbn. rewrite Hq, Hf, Hp, app_nil_r. repeat split; reflexivity.
  - rewrite bool_decide_eq_false_2 by discriminate.
    rewrite <- Hq.
    apply (flushLoop_answered env (outgoingQueue st) (set_flushing true st) p);
      [reflexivity | exact Hp | exact Hw | reflexivity | exact Hsz].
Qed.

Lemma flush_in_order_witness :
  let st := set_outgoingQueue [example_entry 0; example_entry 1] example_live in
  let st' := flushAnswered example_env 2 (flushOutgoingQueue st) in
  outgoingQueue st' = [] ∧ flushing st' = false
  ∧ written <$> proc st'
    = Some [mkRequest (js "send") (js "rpc-1")
              [(js "message", JStr (js "m0")); (js "recipient", JArr [js "+15551111"])];
            mkRequest (js "send") (js "rpc-2")
              [(js "message", JStr (js "m1")); (js "recipient", JArr [js "+15551111"])]].
Proof.
  intros st st'.
  apply (flush_in_order example_env st (mkProc true [])); [reflexivity..|vm_compute; lia].
Defined.

(** X11: a queued message is taken off the queue before it is sent, so when
    its send fails during a flush the message is lost: the flush stops, the
    messages behind it stay queued, and the failed one is not queued again.
    While a flush is in progress another call does nothing. *)
Theorem flush_failure_drops_item st item rest :
  outgoingQueue st = item :: rest → flushing st = false →
  let st' := snd (flushOutgoingQueue st) in
  outgoingQueue st' = rest ∧ flushing st' = true
  ∧ flushOutgoingQueue st' = (None, st')
  ∧ outgoingQueue (flush_rejected st') = rest
  ∧ flushing (flush_rejected st') = false.
Proof.
  intros Hq Hf st'.
  assert (E : flushOutgoingQueue st
              = let '(o, st1) := rpcSend (jid item) (q_body item) (q_attachments item)
                                   (set_outgoingQueue rest (set_flushing true st)) in
                (Some o, st1)).
  { unfold flushOutgoingQueue. rewrite Hf, Hq.
    rewrite bool_decide_eq_false_2 by discriminate. cbn [orb].
    unfold flushLoop. unfold set_flushing at 1. cbn [outgoingQueue]. rewrite Hq.
    reflexivity. }
  assert (Hout : outgoingQueue st' = rest).
  { subst st'. rewrite E.
    pose proof (rpcSend_outgoingQueue (jid item) (q_body item) (q_attachments item)
                  (set_outgoingQueue rest (set_flushing true st))) as Hout.
    destruct (rpcSend _ _ _ _) as [o st1]. exact Hout. }
  assert (Hfl : flushing st' = true).
  { subst st'. rewrite E. unfold rpcSend, rpcCall. destruct (_ <=? _); [reflexivity|].
    cbn [proc set_pendingRpc set_rpcIdCounter set_outgoingQueue set_flushing].
    destruct (proc st) as [p|]; [destruct (writable p)|]; reflexivity. }
  split; [exact Hout|]. split; [exact Hfl|].
  split; [unfold flushOutgoingQueue; rewrite Hfl; reflexivity|].
  unfold flush_rejected, set_flushing. cbn [outgoingQueue flushing].
  split; [exact Hout | reflexivity].
Qed.

Lemma flush_failure_drops_item_witness :
  let st := set_outgoingQueue [example_entry 0; example_entry 1] new_channel in
  fst (flushOutgoingQueue st) = Some (Rejected (js "signal-cli stdin not writable"))
  ∧ outgoingQueue (flush_rejected (snd (flushOutgoingQueue st))) = [example_entry 1].
Proof.
  intros st. split; [vm_compute; reflexivity|].
  apply (flush_failure_drops_item st (example_entry 0) [example_entry 1] eq_refl eq_refl).
Defined.

(** ** Sending while disconnected *)

Lemma sendAll_disconnected items : ∀ st,
  connected st = false → length (outgoingQueue st) ≤ 1000 →
  outgoingQueue (sendAll items st)
  = drop (length (outgoingQueue st ++ items) - 1000) (outgoingQueue st ++ items).
Proof.
  induction items as [|item items IH]; intros st Hc Hlen.
  - cbn [sendAll foldl]. rewrite app_nil_r.
    replace (length (outgoingQueue st) - 1000) with 0 by lia. reflexivity.
  - assert (Hs : snd (sendMessage (jid item) (q_body item) (q_attachments item) st)
                 = enqueue item st).
    { unfold sendMessage. rewrite Hc. destruct item; reflexivity. }
    change (outgoingQueue
              (sendAll items
                 (snd (sendMessage (jid item) (q_body item) (q_attachments item) st)))
            = drop (length (outgoingQueue st ++ item :: items) - 1000)
                   (outgoingQueue st ++ item :: items)).
    rewrite Hs.
    pose proof (enqueue_outgoingQueue item st) as Hq.
    pose proof (enqueue_bounded item st) as Hb. unfold MAX_OUTGOING_QUEUE in Hq, Hb.
    rewrite IH; [|unfold enqueue; destruct (_ <=? _); exact Hc | apply Hb; exact Hlen].
    rewrite Hq. destruct (1000 <=? length (outgoingQueue st)) eqn:E.
    + apply Nat.leb_le in E.
      destruct (outgoingQueue st) as [|x q] eqn:Eq; [simpl in E; lia|].
      cbn [tail]. rewrite <- !app_assoc. cbn [app].
      rewrite !length_app. cbn [length] in *. rewrite !length_app. cbn [length].
      replace (S (length q + S (length items)) - 1000)
        with (S (length q + (1 + length items) - 1000)) by lia.
      reflexivity.
    + rewrite <- app_assoc. reflexivity.
Qed.

(** X12: of the messages sent while the channel is disconnected, the queue
    holds the newest thousand, in the order in which they were sent. *)
Theorem disconnected_sends_keep_newest items st :
  connected st = false → outgoingQueue st = [] →
  outgoingQueue (sendAll items st) = drop (length items - 1000) items.
Proof.
  intros Hc Hq.
  rewrite (sendAll_disconnected items st Hc) by (rewrite Hq; simpl; lia).
  rewrite Hq. reflexivity.
Qed.

Lemma disconnected_sends_keep_newest_witness :
  connected new_channel = false ∧ outgoingQueue new_channel = []
  ∧ outgoingQueue (sendAll (example_entry <$> seq 0 1002) new_channel)
    = drop (length (example_entry <$> seq 0 1002) - 1000) (example_entry <$> seq 0 1002).
Proof.
  split; [reflexivity|]. split; [reflexivity|].
  apply (disconnected_sends_keep_newest _ new_channel eq_refl eq_refl).
Defined.
(** ** What the decoder reports *)

Lemma ownsJid_prefixed x : ownsJid (js "signal:" ++ x) = true.
Proof. destruct x; vm_compute; reflexivity. Qed.

Lemma chatJidOf_prefixed msg chatJid isGroup :
  chatJidOf msg = Some (chatJid, isGroup) → ∃ x, chatJid = js "signal:" ++ x.
Proof.
  unfold chatJidOf.
  destruct (truthy_str (in_groupInfo msg ≫= groupId)) as [g|].
  - intros [= <- <-]. eexists. reflexivity.
  - destruct (truthy_str (sourceId msg)) as [s|]; [|discriminate].
    intros [= <- <-]. eexists. reflexivity.
Qed.

(** The calls one run of [processMessage] makes, in full. *)
Lemma processMessage_shape env msg st :
  ∃ new, calls (processMessage env msg st) = calls st ++ new ∧
    (new = []
     ∨ ∃ chatJid isGroup ts name,
         chatJidOf msg = Some (chatJid, isGroup)
         ∧ isChatIdCommand env msg = false
         ∧ (new = [OnChatMetadata chatJid ts name (js "signal") isGroup]
            ∨ ∃ m, new = [OnChatMetadata chatJid ts name (js "signal") isGroup;
                          OnMessage chatJid m]
                   ∧ registeredGroups env chatJid = true
                   ∧ truthy (trim (content m)) = true
                   ∧ chat_jid m = chatJid ∧ msg_timestamp m = ts
                   ∧ (content m, msg_attachments m)
                     = buildContent env msg (buildAttachments env msg)
                         (buildQuote env msg) (msg_reaction m)
                   ∧ is_from_me m = isFromMe msg
                   ∧ is_bot_message m = isFromMe msg)).
Proof.
  unfold processMessage.
  destruct (chatJidOf msg) as [[chatJid isGroup]|] eqn:Hjid;
    [|exists []; split; [rewrite app_nil_r; reflexivity | left; reflexivity]].
  destruct (isoTimestampOf env msg) as [isoTimestamp|];
    [|exists []; split; [rewrite app_nil_r; reflexivity | left; reflexivity]].
  destruct (isChatIdCommand env msg) eqn:Hcmd.
  { exists []. split; [|left; reflexivity].
    unfold sendChatIdResponse. rewrite rpcSend_calls, app_nil_r. reflexivity. }
  destruct (registeredGroups env chatJid) eqn:Hreg; cbn [negb].
  2:{ eexists. split; [reflexivity|]. right. exists chatJid, isGroup. do 2 eexists.
      split; [reflexivity|]. split; [reflexivity|]. left. reflexivity. }
  destruct (buildReaction env msg) as [reaction0|].
  2:{ eexists. split; [reflexivity|]. right. exists chatJid, isGroup. do 2 eexists.
      split; [reflexivity|]. split; [reflexivity|]. left. reflexivity. }
  destruct (buildContent _ _ _ _ _) as [body atts] eqn:Hbc.
  destruct (truthy (trim body)) eqn:Hblank; cbn [negb].
  2:{ eexists. split; [reflexivity|]. right. exists chatJid, isGroup. do 2 eexists.
      split; [reflexivity|]. split; [reflexivity|]. left. reflexivity. }
  eexists. split; [cbn [call_handler calls]; rewrite <- app_assoc; reflexivity|].
  right. exists chatJid, isGroup. do 2 eexists.
  split; [reflexivity|]. split; [reflexivity|]. right. eexists.
  split; [reflexivity|]. cbn [content chat_jid msg_timestamp msg_attachments
                              msg_reaction is_from_me is_bot_message].
  repeat split; try reflexivity; try assumption. symmetry. exact Hbc.
Qed.

(** The argument [handleEnvelope] hands to [processMessage]. *)
Lemma handleEnvelope_inbound env envelope st :
  handleEnvelope env envelope st = st ∧ payloadOf envelope = None
  ∨ ∃ msg p,
      handleEnvelope env envelope st = processMessage env msg st
      ∧ payloadOf envelope = Some p
      ∧ in_message msg = resolveMentions env (message p) (mentions p)
      ∧ rawAttachments msg = attachments p
      ∧ isFromMe msg = match dataMessage envelope with Some _ => false | None => true end.
Proof.
  unfold handleEnvelope, payloadOf.
  destruct (dataMessage envelope) as [d|].
  - right. eexists _, d. split; [reflexivity|]. repeat split; reflexivity.
  - destruct (syncMessage envelope ≫= sentMessage) as [s|].
    + right. eexists _, s. split; [reflexivity|]. repeat split; reflexivity.
    + left. split; reflexivity.
Qed.

(** X13: an envelope makes the decoder report nothing, the chat metadata
    alone, or the chat metadata followed by one message of the same chat.
    The chat identity is one the channel owns; a message is reported only
    for a registered chat and never with blank content. *)
Theorem decoder_reports env envelope st :
  ∃ new, calls (handleEnvelope env envelope st) = calls st ++ new ∧
    (new = []
     ∨ ∃ chatJid isGroup ts name,
         ownsJid chatJid = true
         ∧ (new = [OnChatMetadata chatJid ts name (js "signal") isGroup]
            ∨ ∃ m, new = [OnChatMetadata chatJid ts name (js "signal") isGroup;
                          OnMessage chatJid m]
                   ∧ chat_jid m = chatJid ∧ msg_timestamp m = ts
                   ∧ registeredGroups env chatJid = true
                   ∧ truthy (trim (content m)) = true)).
Proof.
  destruct (handleEnvelope_inbound env envelope st) as [[-> _] | (msg & p & -> & _)].
  { exists []. split; [rewrite app_nil_r; reflexivity | left; reflexivity]. }
  destruct (processMessage_shape env msg st) as (new & Hnew & Hshape).
  exists new. split; [exact Hnew|].
  destruct Hshape as [-> | (chatJid & isGroup & ts & name & Hjid & _ & Hshape)];
    [left; reflexivity|].
  right. exists chatJid, isGroup, ts, name.
  destruct (chatJidOf_prefixed _ _ _ Hjid) as [x ->].
  split; [apply ownsJid_prefixed|].
  destruct Hshape as [-> | (m & -> & Hreg & Hblank & Hc & Ht & _)]; [left; reflexivity|].
  right. exists m. repeat split; assumption.
Qed.

(** X16: the two flags of a reported message tell an echo from a message of
    somebody else: both are false for a data message and both are true for a
    sent message of a sync envelope. *)
Theorem decoder_flags env envelope st new chatJid m :
  calls (handleEnvelope env envelope st) = calls st ++ new →
  OnMessage chatJid m ∈ new →
  is_bot_message m = is_from_me m
  ∧ is_from_me m = match dataMessage envelope with Some _ => false | None => true end.
Proof.
  intros Hnew Hm.
  destruct (handleEnvelope_inbound env envelope st)
    as [[E _] | (msg & p & E & _ & _ & _ & Hme)]; rewrite E in Hnew.
  { rewrite <- (app_nil_r (calls st)) in Hnew at 1.
    apply app_inv_head in Hnew. subst new. inversion Hm. }
  destruct (processMessage_shape env msg st) as (new' & Hnew' & Hshape).
  rewrite Hnew' in Hnew. apply app_inv_head in Hnew. subst new'.
  destruct Hshape as [-> | (c & g & ts & name & _ & _ & [-> | (m' & -> & Hrest)])].
  - inversion Hm.
  - apply list_elem_of_singleton in Hm. discriminate.
  - apply elem_of_cons in Hm as [Hm | Hm]; [discriminate|].
    apply list_elem_of_singleton in Hm. injection Hm as _ <-.
    destruct Hrest as (_ & _ & _ & _ & _ & H1 & H2).
    rewrite H1, H2, Hme. split; reflexivity.
Qed.

Lemma decoder_flags_witness :
  ∃ m, calls (handleEnvelope example_env example_echo example_live)
       = calls example_live ++ [OnChatMetadata (js "signal:+15551111")
                                  (js "T1700000000123") None (js "signal") false;
                                OnMessage (js "signal:+15551111") m]
       ∧ is_bot_message m = is_from_me m ∧ is_from_me m = true.
Proof.
  eexists. split; [vm_compute; reflexivity|].
  eapply (decoder_flags example_env example_echo example_live _ (js "signal:+15551111"));
    [vm_compute; reflexivity|].
  apply list_elem_of_further, list_elem_of_here.
Defined.
(** ** Attachments *)

Lemma buildAttachment_located env dir raw a :
  buildAttachment env dir raw = Some a →
  ∃ id files f,
    ra_id raw = Some id ∧ readdirSync env dir = Some files
    ∧ f ∈ files ∧ startsWith f id = true
    ∧ hostPath a = pathJoin env dir f
    ∧ containerPath a = js "/workspace/signal-attachments/" ++ f.
Proof.
  unfold buildAttachment.
  destruct (ra_id raw) as [id|]; [|discriminate].
  destruct (negb (truthy id)); [discriminate|].
  destruct (readdirSync env dir) as [files|]; [|discriminate].
  destruct (List.find _ files) as [f|] eqn:Hfind; [|discriminate].
  apply find_some in Hfind as [Hin Hpre]. apply list_elem_of_In in Hin.
  destruct (truthy f); [|discriminate].
  destruct (negb (truthy (pathJoin env dir f))); [discriminate|].
  intros [= <-]. exists id, files, f. repeat split; try reflexivity; assumption.
Qed.

Lemma buildAttachments_located env msg atts a :
  buildAttachments env msg = Some atts → a ∈ atts →
  atts ≠ []
  ∧ ∃ raws raw, rawAttachments msg = Some raws ∧ raw ∈ raws
      ∧ buildAttachment env (pathJoin env (SIGNAL_CLI_DIR env) (js "attachments")) raw
        = Some a.
Proof.
  unfold buildAttachments.
  destruct (rawAttachments msg) as [raws|]; [|discriminate].
  destruct (truthy (SIGNAL_CLI_DIR env)); [|discriminate].
  destruct (omap _ raws) as [|b built] eqn:Hb; [discriminate|].
  intros [= <-] Ha. split; [discriminate|].
  rewrite <- Hb in Ha. apply list_elem_of_omap in Ha as (raw & Hraw & Hbuilt).
  exists raws, raw. split; [reflexivity|]. split; assumption.
Qed.

(** What the loop over the attachments keeps. *)
Lemma attachmentStep_kept env atts : ∀ acc a,
  a ∈ snd (foldl (attachmentStep env) acc atts) →
  a ∈ snd acc
  ∨ a ∈ atts
    ∧ (startsWith (contentType a) (js "audio/") = true →
       truthy_opt (transcribeAudioFile env (hostPath a)) = false).
Proof.
  induction atts as [|b atts IH]; intros acc a; cbn [foldl]; [left; assumption|].
  intros Ha. apply IH in Ha as [Ha | [Ha Haudio]].
  - unfold attachmentStep in Ha.
    destruct (startsWith (contentType b) (js "audio/")) eqn:Hb.
    + destruct (transcribeAudioFile env (hostPath b)) as [t|] eqn:Ht.
      * destruct (truthy t) eqn:Htt; cbn [snd] in Ha; [left; exact Ha|].
        apply elem_of_app in Ha as [Ha | Ha]; [left; exact Ha|].
        apply list_elem_of_singleton in Ha. subst a. right.
        split; [apply list_elem_of_here|]. intros _. rewrite Ht. exact Htt.
      * cbn [snd] in Ha. apply elem_of_app in Ha as [Ha | Ha]; [left; exact Ha|].
        apply list_elem_of_singleton in Ha. subst a. right.
        split; [apply list_elem_of_here|]. intros _. rewrite Ht. reflexivity.
    + cbn [snd] in Ha. apply elem_of_app in Ha as [Ha | Ha]; [left; exact Ha|].
      apply list_elem_of_singleton in Ha. subst a. right.
      split; [apply list_elem_of_here|]. rewrite Hb. discriminate.
  - right. split; [apply list_elem_of_further, Ha | exact Haudio].
Qed.

Lemma buildContent_kept env msg atts q r kept a :
  snd (buildContent env msg atts q r) = Some kept → a ∈ kept →
  ∃ l, atts = Some l ∧ a ∈ l
       ∧ (startsWith (contentType a) (js "audio/") = true →
          truthy_opt (transcribeAudioFile env (hostPath a)) = false).
Proof.
  unfold buildContent. destruct atts as [l|]; [|discriminate].
  destruct (foldl (attachmentStep env) _ l) as [parts k] eqn:Hfold.
  cbn [snd]. destruct k as [|x k]; [discriminate|]. intros [= <-] Ha.
  exists l. split; [reflexivity|].
  pose proof (attachmentStep_kept env l _ a ltac:(rewrite Hfold; exact Ha)) as [H | H].
  - inversion H.
  - exact H.
Qed.

(** X14: every attachment of a reported message is backed by a file that
    the attachment directory of signal-cli lists: the name of the file starts
    with the id of a raw attachment of the payload, the host path is that
    file in the directory and the container path that file under
    /workspace/signal-attachments/. An audio attachment is passed on only if
    it has no transcript. *)
Theorem forwarded_attachments_located env envelope st new chatJid m atts a :
  calls (handleEnvelope env envelope st) = calls st ++ new →
  OnMessage chatJid m ∈ new →
  msg_attachments m = Some atts → a ∈ atts →
  let dir := pathJoin env (SIGNAL_CLI_DIR env) (js "attachments") in
  (∃ p raws raw id files f,
     payloadOf envelope = Some p ∧ attachments p = Some raws ∧ raw ∈ raws
     ∧ ra_id raw = Some id
     ∧ readdirSync env dir = Some files ∧ f ∈ files ∧ startsWith f id = true
     ∧ hostPath a = pathJoin env dir f
     ∧ containerPath a = js "/workspace/signal-attachments/" ++ f)
  ∧ (startsWith (contentType a) (js "audio/") = true →
     truthy_opt (transcribeAudioFile env (hostPath a)) = false).
Proof.
  intros Hnew Hm Hatts Ha dir.
  destruct (handleEnvelope_inbound env envelope st)
    as [[E _] | (msg & p & E & Hp & _ & Hraw & _)]; rewrite E in Hnew.
  { rewrite <- (app_nil_r (calls st)) in Hnew at 1.
    apply app_inv_head in Hnew. subst new. inversion Hm. }
  destruct (processMessage_shape env msg st) as (new' & Hnew' & Hshape).
  rewrite Hnew' in Hnew. apply app_inv_head in Hnew. subst new'.
  destruct Hshape as [-> | (c & g & ts & name & _ & _ & [-> | (m' & -> & Hrest)])].
  - inversion Hm.
  - apply list_elem_of_singleton in Hm. discriminate.
  - apply elem_of_cons in Hm as [Hm | Hm]; [discriminate|].
    apply list_elem_of_singleton in Hm. injection Hm as _ <-.
    destruct Hrest as (_ & _ & _ & _ & Hbc & _).
    assert (Hk : snd (buildContent env msg (buildAttachments env msg)
                        (buildQuote env msg) (msg_reaction m)) = Some atts)
      by (rewrite <- Hbc; exact Hatts).
    destruct (buildContent_kept _ _ _ _ _ _ _ Hk Ha) as (l & Hl & Hal & Haudio).
    split; [|exact Haudio].
    destruct (buildAttachments_located _ _ _ _ Hl Hal) as (_ & raws & raw & Hraws & Hin & Hb).
    destruct (buildAttachment_located _ _ _ _ Hb)
      as (id & files & f & Hid & Hfiles & Hf & Hpre & Hhost & Hcont).
    exists p, raws, raw, id, files, f.
    rewrite <- Hraw. repeat split; assumption.
Qed.

Lemma forwarded_attachments_located_witness :
  let envelope :=
    received (js "+15551111")
      (mkPayload (Some (js "see")) None None
         (Some [mkRawAttachment (Some (js "att1")) (Some (js "image/jpeg")) None None])
         None None None None None None) in
  let dir := pathJoin example_env (SIGNAL_CLI_DIR example_env) (js "attachments") in
  ∃ m a,
    calls (handleEnvelope example_env envelope example_live)
    = calls example_live
      ++ [OnChatMetadata (js "signal:+15551111") (js "T1700000000123") None
            (js "signal") false;
          OnMessage (js "signal:+15551111") m]
    ∧ msg_attachments m = Some [a]
    ∧ hostPath a = js "/data/signal-cli/attachments/att1.jpg"
    ∧ (∃ p raws raw id files f,
         payloadOf envelope = Some p ∧ attachments p = Some raws ∧ raw ∈ raws
         ∧ ra_id raw = Some id
         ∧ readdirSync example_env dir = Some files ∧ f ∈ files
         ∧ startsWith f id = true
         ∧ hostPath a = pathJoin example_env dir f
         ∧ containerPath a = js "/workspace/signal-attachments/" ++ f)
      ∧ (startsWith (contentType a) (js "audio/") = true →
         truthy_opt (transcribeAudioFile example_env (hostPath a)) = false).
Proof.
  intros envelope dir. eexists _, _.
  split; [vm_compute; reflexivity|]. split; [reflexivity|].
  split; [vm_compute; reflexivity|].
  eapply (forwarded_attachments_located example_env envelope example_live);
    [vm_compute; reflexivity
    | apply list_elem_of_further, list_elem_of_here
    | reflexivity
    | apply list_elem_of_here].
Defined.

(** ** The earlier decoder *)

Lemma attachmentStep_unawaited env atts : ∀ parts kept,
  Forall (λ a, awaited a = false) atts →
  foldl (attachmentStep env) (parts, kept) atts
  = (foldl (λ parts att,
              parts ++ [js "[attachment: " ++ or_default (filename att) (contentType att)
                        ++ js " " ++ [0x2192%N] ++ js " " ++ containerPath att ++ js "]"])
           parts atts,
     kept ++ atts).
Proof.
  induction atts as [|a atts IH]; intros parts kept Hno; cbn [foldl].
  - rewrite app_nil_r. reflexivity.
  - apply Forall_cons in Hno as [Ha Hno].
    assert (Hstep : attachmentStep env (parts, kept) a
                    = (parts ++ [js "[attachment: "
                                 ++ or_default (filename a) (contentType a)
                                 ++ js " " ++ [0x2192%N] ++ js " "
                                 ++ containerPath a ++ js "]"],
                       kept ++ [a])).
    { unfold attachmentStep. unfold awaited in Ha.
      apply orb_false_iff in Ha as [-> _]. reflexivity. }
    rewrite Hstep, IH by exact Hno. rewrite <- app_assoc. reflexivity.
Qed.

Lemma buildContent_unawaited env msg q r :
  Forall (λ a, awaited a = false) (default [] (buildAttachments env msg)) →
  buildContent env msg (buildAttachments env msg) q r
  = (buildContent_earlier msg (buildAttachments env msg) q r, buildAttachments env msg).
Proof.
  intros Hno. unfold buildContent, buildContent_earlier.
  destruct (buildAttachments env msg) as [atts|] eqn:Hb; [|reflexivity].
  rewrite attachmentStep_unawaited by exact Hno. cbn [app].
  destruct atts as [|a atts]; [|reflexivity].
  unfold buildAttachments in Hb.
  destruct (rawAttachments msg); [|discriminate].
  destruct (truthy (SIGNAL_CLI_DIR env)); [|discriminate].
  destruct (omap _ _); discriminate.
Qed.

(** X17: for a message none of whose located attachments is an audio file
    or an image, the current [processMessage] reaches no [await] and calls
    neither [transcribeAudioFile] nor [optimizeImageForVision], and it does
    what the earlier revision did: the same calls with the same arguments,
    the same writes, and the same [RangeError]s. *)
Theorem processMessage_refines_earlier env msg st :
  Forall (λ a, awaited a = false) (default [] (buildAttachments env msg)) →
  processMessage env msg st = processMessage_earlier env msg st.
Proof.
  intros Hno. unfold processMessage, processMessage_earlier.
  destruct (chatJidOf msg) as [[chatJid isGroup]|]; [|reflexivity].
  destruct (isoTimestampOf env msg) as [isoTimestamp|]; [|reflexivity].
  destruct (isChatIdCommand env msg); [reflexivity|].
  destruct (negb (registeredGroups env chatJid)); [reflexivity|].
  destruct (buildReaction env msg) as [reaction0|]; [|reflexivity].
  rewrite buildContent_unawaited by exact Hno. reflexivity.
Qed.

Lemma processMessage_refines_earlier_witness :
  let msg := mkInbound (Some (js "+15551111")) (js "Alice") (Some 1700000000123%Z)
               (Some (js "read this")) None false
               (Some [mkRawAttachment (Some (js "att1")) (Some (js "application/pdf"))
                        (Some (js "paper.pdf")) None])
               None None in
  (∃ a, buildAttachments example_env msg = Some [a] ∧ awaited a = false)
  ∧ processMessage example_env msg example_live
    = processMessage_earlier example_env msg example_live.
Proof.
  intros msg.
  assert (H : Forall (λ a, awaited a = false)
                     (default [] (buildAttachments example_env msg)))
    by (vm_compute; repeat constructor).
  split; [eexists; split; vm_compute; reflexivity|].
  apply (processMessage_refines_earlier example_env msg example_live H).
Defined.

(** ** What the decoder writes *)

Lemma processMessage_quiet env msg st :
  isChatIdCommand env msg = false →
  proc (processMessage env msg st) = proc st
  ∧ pendingRpc (processMessage env msg st) = pendingRpc st
  ∧ rpcIdCounter (processMessage env msg st) = rpcIdCounter st.
Proof.
  intros Hcmd. unfold processMessage. rewrite Hcmd.
  destruct (chatJidOf msg) as [[chatJid isGroup]|]; [|repeat split; reflexivity].
  destruct (isoTimestampOf env msg) as [isoTimestamp|]; [|repeat split; reflexivity].
  destruct (negb (registeredGroups env chatJid)); [repeat split; reflexivity|].
  destruct (buildReaction env msg) as [reaction0|]; [|repeat split; reflexivity].
  destruct (buildContent _ _ _ _ _) as [body atts].
  destruct (negb (truthy (trim body))); repeat split; reflexivity.
Qed.

(** X15: the decoder writes to the subprocess for the /chatid command only:
    an envelope whose text, mentions resolved, is not that command leaves
    the transport, the correlation table and the call counter as they
    were. *)
Theorem decoder_writes_for_chatid_only env envelope st :
  (∀ p t, payloadOf envelope = Some p →
          resolveMentions env (message p) (mentions p) = Some t →
          toLowerCase env (trim t) ≠ js "/chatid") →
  proc (handleEnvelope env envelope st) = proc st
  ∧ pendingRpc (handleEnvelope env envelope st) = pendingRpc st
  ∧ rpcIdCounter (handleEnvelope env envelope st) = rpcIdCounter st.
Proof.
  intros Hno.
  destruct (handleEnvelope_inbound env envelope st)
    as [[-> _] | (msg & p & -> & Hp & Hmsg & _)]; [repeat split; reflexivity|].
  apply processMessage_quiet. unfold isChatIdCommand. rewrite Hmsg.
  destruct (resolveMentions env (message p) (mentions p)) as [t|] eqn:Ht; [|reflexivity].
  rewrite bool_decide_eq_false_2 by exact (Hno p t Hp Ht).
  apply andb_false_r.
Qed.

Lemma decoder_writes_for_chatid_only_witness :
  (∀ p t, payloadOf example_echo = Some p →
          resolveMentions example_env (message p) (mentions p) = Some t →
          toLowerCase example_env (trim t) ≠ js "/chatid")
  ∧ proc (handleEnvelope example_env example_echo example_live) = proc example_live
  ∧ pendingRpc (handleEnvelope example_env example_echo example_live)
    = pendingRpc example_live
  ∧ rpcIdCounter (handleEnvelope example_env example_echo example_live)
    = rpcIdCounter example_live.
Proof.
  assert (H : ∀ p t, payloadOf example_echo = Some p →
                     resolveMentions example_env (message p) (mentions p) = Some t →
                     toLowerCase example_env (trim t) ≠ js "/chatid").
  { intros p t [= <-] [= <-]. vm_compute. discriminate. }
  split; [exact H | apply (decoder_writes_for_chatid_only _ _ _ H)].
Defined.
(** ** Mentions in any order *)

Lemma includes_sentinel_app a b :
  includes_sentinel (a ++ b) = includes_sentinel a || includes_sentinel b.
Proof. unfold includes_sentinel. apply existsb_app. Qed.

Lemma expand_plain template before matched after :
  Forall (λ d, d ≠ 36%N) template →
  expand template before matched after = template.
Proof.
  induction 1 as [|d template Hd _ IH]; [reflexivity|].
  cbn [expand]. apply N.eqb_neq in Hd. rewrite Hd, IH. reflexivity.
Qed.

Lemma includes_sentinel_pieces {A} (l : list A) : ∀ f : nat → A → jsstring,
  (∀ i d, includes_sentinel (f i d) = false) →
  includes_sentinel (concat (imap f l)) = false.
Proof.
  induction l as [|x l IH]; intros f Hf; [reflexivity|].
  rewrite imap_cons. cbn [concat].
  rewrite includes_sentinel_app, Hf, IH; [reflexivity|].
  intros i d. apply Hf.
Qed.

Lemma sweep_sentinel_clean env s :
  includes_sentinel (ASSISTANT_NAME env) = false →
  Forall (λ d, d ≠ 36%N) (ASSISTANT_NAME env) →
  includes_sentinel (sweep_sentinel env s) = false.
Proof.
  intros Hname Hplain. unfold sweep_sentinel.
  apply includes_sentinel_pieces. intros i d.
  destruct (N.eqb SENTINEL d) eqn:E.
  - rewrite expand_plain by (constructor; [discriminate | exact Hplain]).
    rewrite includes_sentinel_app, Hname. reflexivity.
  - unfold includes_sentinel. cbn [existsb]. rewrite E. reflexivity.
Qed.

(** X4: the text the current [resolveMentions] returns holds no placeholder,
    whatever the descriptors are, as long as the name of the assistant holds
    neither a placeholder nor a dollar sign (which [replace] would expand in
    the replacement text). *)
Theorem resolveMentions_leaves_no_placeholder env text mentions result :
  includes_sentinel (ASSISTANT_NAME env) = false →
  Forall (λ d, d ≠ 36%N) (ASSISTANT_NAME env) →
  resolveMentions env text mentions = Some result →
  includes_sentinel result = false.
Proof.
  intros Hname Hplain. unfold resolveMentions.
  destruct text as [t|]; [|discriminate].
  destruct t as [|d t]; [intros [= <-]; reflexivity|]. cbn [truthy negb].
  destruct (includes_sentinel (descriptorReplaced env (d :: t) mentions)) eqn:E;
    intros [= <-]; [apply sweep_sentinel_clean; assumption | exact E].
Qed.

Lemma resolveMentions_leaves_no_placeholder_witness :
  includes_sentinel (ASSISTANT_NAME example_env) = false
  ∧ Forall (λ d, d ≠ 36%N) (ASSISTANT_NAME example_env)
  ∧ resolveMentions example_env (Some (js "a" ++ [SENTINEL] ++ js "b" ++ [SENTINEL]))
      (Some [mkMention 1 None None (Some (js "Bob"))])
    = Some (js "a@Bobb@Echo")
  ∧ includes_sentinel (js "a@Bobb@Echo") = false.
Proof.
  assert (Hplain : Forall (λ d, d ≠ 36%N) (ASSISTANT_NAME example_env))
    by (repeat constructor; discriminate).
  split; [reflexivity|]. split; [exact Hplain|]. split; [vm_compute; reflexivity|].
  apply (resolveMentions_leaves_no_placeholder example_env
           (Some (js "a" ++ [SENTINEL] ++ js "b" ++ [SENTINEL]))
           (Some [mkMention 1 None None (Some (js "Bob"))]));
    [reflexivity | exact Hplain | vm_compute; reflexivity].
Defined.

(** With a dollar sign in the name a placeholder can remain: the name [$&]
    stands for the match, the placeholder itself. *)
Example sweep_sentinel_dollar :
  let env := mkEnv (js "$&") (js "+15550000") (js "/data/signal-cli")
                   (λ _, None) (λ _, true) (λ _, None) (λ a b, a ++ js "/" ++ b)
                   (λ _, None) 0 0 (λ z, decimal z) asciiLower in
  resolveMentions env (Some (js "hi " ++ [SENTINEL] ++ js "!")) None
  = Some (js "hi @" ++ [SENTINEL] ++ js "!").
Proof. vm_compute. reflexivity. Qed.

Lemma insert_desc_comm x y l :
  m_start x ≠ m_start y →
  insert_desc x (insert_desc y l) = insert_desc y (insert_desc x l).
Proof.
  intros Hne. induction l as [|a l IH]; cbn [insert_desc].
  - destruct (m_start y <=? m_start x)%Z eqn:E1, (m_start x <=? m_start y)%Z eqn:E2;
      try reflexivity; lia.
  - destruct (m_start a <=? m_start y)%Z eqn:Ey, (m_start a <=? m_start x)%Z eqn:Ex;
      cbn [insert_desc]; rewrite ?Ey, ?Ex.
    + destruct (m_start y <=? m_start x)%Z eqn:E1, (m_start x <=? m_start y)%Z eqn:E2;
        try reflexivity; lia.
    + destruct (m_start y <=? m_start x)%Z eqn:E1; [lia | reflexivity].
    + destruct (m_start x <=? m_start y)%Z eqn:E2; [lia | reflexivity].
    + rewrite IH. reflexivity.
Qed.

Lemma sort_desc_Permutation l l' :
  l ≡ₚ l' → NoDup (m_start <$> l) → sort_desc l = sort_desc l'.
Proof.
  induction 1 as [|x l l' Hp IH|x y l|l l' l'' Hp1 IH1 Hp2 IH2]; intros Hnd.
  - reflexivity.
  - cbn [sort_desc foldr]. fold (sort_desc l) (sort_desc l').
    rewrite IH; [reflexivity|]. rewrite fmap_cons in Hnd. apply NoDup_cons in Hnd as [_ H].
    exact H.
  - cbn [sort_desc foldr]. fold (sort_desc l). apply insert_desc_comm.
    rewrite !fmap_cons in Hnd. apply NoDup_cons in Hnd as [Hy _].
    intros E. apply Hy. rewrite E. apply list_elem_of_here.
  - rewrite IH1 by exact Hnd. apply IH2. rewrite <- Hp1. exact Hnd.
Qed.

Lemma insert_desc_last x l :
  (∀ y, y ∈ l → (m_start x < m_start y)%Z) → insert_desc x l = l ++ [x].
Proof.
  induction l as [|a l IH]; intros H; cbn [insert_desc]; [reflexivity|].
  destruct (m_start a <=? m_start x)%Z eqn:E.
  - apply Z.leb_le in E. specialize (H a (list_elem_of_here _ _)). lia.
  - rewrite IH; [reflexivity|]. intros y Hy. apply H, list_elem_of_further, Hy.
Qed.

Lemma placed_after off items m :
  placed off items → m ∈ items.*1 → (off ≤ m_start m)%Z.
Proof.
  revert off. induction items as [|[m' seg] rest IH]; intros off; cbn [placed fmap list_fmap].
  - intros _ H. inversion H.
  - intros (Hs & _ & Hrest) Hm. apply elem_of_cons in Hm as [-> | Hm]; [cbn; lia|].
    specialize (IH _ Hrest Hm). lia.
Qed.

Lemma placed_NoDup off items : placed off items → NoDup (m_start <$> items.*1).
Proof.
  revert off. induction items as [|[m seg] rest IH]; intros off; cbn [placed fmap list_fmap].
  - intros _. apply NoDup_nil_2.
  - intros (Hs & _ & Hrest). apply NoDup_cons. split; [|exact (IH _ Hrest)].
    intros Hin. apply list_elem_of_fmap in Hin as (m' & Hm' & Hin).
    pose proof (placed_after _ _ _ Hrest Hin). cbn in Hm'. lia.
Qed.

Lemma placed_sort_desc off items :
  placed off items → sort_desc items.*1 = rev items.*1.
Proof.
  revert off. induction items as [|[m seg] rest IH]; intros off; cbn [placed fmap list_fmap].
  - reflexivity.
  - intros (Hs & _ & Hrest). cbn [sort_desc foldr rev]. fold (sort_desc rest.*1).
    rewrite (IH _ Hrest). apply insert_desc_last.
    intros y Hy. apply list_elem_of_In, in_rev, list_elem_of_In in Hy.
    pose proof (placed_after _ _ _ Hrest Hy). cbn. lia.
Qed.

Lemma slice_prefix (a b : jsstring) : slice (a ++ b) 0 (Z.of_nat (length a)) = a.
Proof.
  unfold slice, rel_index. rewrite length_app.
  change (0 <? 0)%Z with false. cbv iota.
  destruct (Z.of_nat (length a) <? 0)%Z eqn:E; [apply Z.ltb_lt in E; lia|].
  rewrite Z.min_l by lia. rewrite Z.min_l by lia.
  rewrite Z.sub_0_r, Nat2Z.id. cbn [Z.to_nat drop].
  apply take_app_length.
Qed.

Lemma slice_from_suffix (a b : jsstring) :
  slice_from (a ++ b) (Z.of_nat (length a)) = b.
Proof.
  unfold slice_from, slice, rel_index. rewrite length_app.
  destruct (Z.of_nat (length a) <? 0)%Z eqn:E; [apply Z.ltb_lt in E; lia|].
  destruct (Z.of_nat (length a + length b) <? 0)%Z eqn:E'; [apply Z.ltb_lt in E'; lia|].
  rewrite Z.min_l by lia. rewrite Z.min_l by lia.
  rewrite Nat2Z.id, drop_app_length.
  apply take_ge. lia.
Qed.

Lemma replaceMention_placeholder env pre tail m d :
  m_start m = Z.of_nat (length pre) →
  (m_length m = None ∨ m_length m = Some 0%Z ∨ m_length m = Some 1%Z) →
  replaceMention env (pre ++ d :: tail) m
  = pre ++ js "@" ++ mentionName env m ++ tail.
Proof.
  intros Hs Hl. unfold replaceMention, mentionName. rewrite Hs.
  assert (Hlen : match m_length m with
                 | Some l => if (l =? 0)%Z then 1%Z else l
                 | None => 1%Z
                 end = 1%Z)
    by (destruct Hl as [-> | [-> | ->]]; reflexivity).
  rewrite Hlen, slice_prefix.
  replace (Z.of_nat (length pre) + 1)%Z with (Z.of_nat (length (pre ++ [d])))
    by (rewrite length_app; simpl; lia).
  replace (pre ++ d :: tail) with ((pre ++ [d]) ++ tail)
    by (rewrite <- app_assoc; reflexivity).
  rewrite slice_from_suffix. reflexivity.
Qed.

Lemma placed_replaced env items : ∀ pre,
  placed (Z.of_nat (length pre)) items →
  foldl (replaceMention env) (pre ++ placeholders items) (rev items.*1)
  = pre ++ rendered env items.
Proof.
  induction items as [|[m seg] rest IH]; intros pre; cbn [placed fmap list_fmap].
  - intros _. reflexivity.
  - intros (Hs & Hl & Hrest). cbn [rev placeholders rendered fst].
    rewrite foldl_app. cbn [foldl].
    replace (pre ++ SENTINEL :: seg ++ placeholders rest)
      with ((pre ++ SENTINEL :: seg) ++ placeholders rest)
      by (rewrite <- app_assoc; reflexivity).
    rewrite IH.
    + rewrite <- app_assoc. cbn [app].
      rewrite (replaceMention_placeholder env pre _ m SENTINEL Hs Hl). reflexivity.
    + rewrite length_app. cbn [length].
      replace (Z.of_nat (length pre + S (length seg)))
        with (Z.of_nat (length pre) + 1 + Z.of_nat (length seg))%Z by lia.
      exact Hrest.
Qed.

(** X5: the descriptors may come in any order. When each mention of a text
    is a placeholder of one code unit and each descriptor points at its
    placeholder, every placeholder is replaced by the at sign and the name
    of its own mention and the text between the mentions is kept, in the
    earlier and in the current revision. *)
Theorem resolveMentions_any_order env pre items ms :
  placed (Z.of_nat (length pre)) items →
  ms ≡ₚ items.*1 →
  items ≠ [] →
  resolveMentions_earlier env (Some (pre ++ placeholders items)) (Some ms)
  = Some (pre ++ rendered env items)
  ∧ (includes_sentinel (pre ++ rendered env items) = false →
     resolveMentions env (Some (pre ++ placeholders items)) (Some ms)
     = Some (pre ++ rendered env items)).
Proof.
  intros Hplaced Hperm Hne.
  assert (Ht : truthy (pre ++ placeholders items) = true).
  { destruct items as [|[m seg] rest]; [contradiction|].
    destruct pre; reflexivity. }
  assert (Hms : has_mentions (Some ms) = true).
  { destruct ms as [|m ms]; [|reflexivity].
    apply Permutation_nil_l in Hperm. destruct items; [contradiction | discriminate]. }
  assert (Hfold : foldl (replaceMention env) (pre ++ placeholders items)
                        (sort_desc (mentions_list (Some ms)))
                  = pre ++ rendered env items).
  { change (mentions_list (Some ms)) with ms.
    rewrite (sort_desc_Permutation ms items.*1 Hperm).
    - rewrite (placed_sort_desc _ _ Hplaced). apply placed_replaced, Hplaced.
    - rewrite Hperm. exact (placed_NoDup _ _ Hplaced). }
  split.
  - unfold resolveMentions_earlier. rewrite Ht, Hms. cbn [negb orb].
    rewrite Hfold. reflexivity.
  - intros Hclean. unfold resolveMentions, descriptorReplaced.
    rewrite Ht, Hms. cbn [negb]. rewrite Hfold, Hclean. reflexivity.
Qed.

Lemma resolveMentions_any_order_witness :
  let items := [(mkMention 3 (Some 1%Z) None (Some (js "Bob")), js " and ");
                (mkMention 9 None (Some (js "+15550000")) None, js "!")] in
  let ms := [mkMention 9 None (Some (js "+15550000")) None;
             mkMention 3 (Some 1%Z) None (Some (js "Bob"))] in
  placed (Z.of_nat (length (js "hi "))) items
  ∧ ms ≡ₚ items.*1
  ∧ resolveMentions example_env (Some (js "hi " ++ placeholders items)) (Some ms)
    = Some (js "hi @Bob and @Echo!").
Proof.
  intros items ms.
  assert (Hp : placed (Z.of_nat (length (js "hi "))) items).
  { cbn. repeat split; auto. }
  assert (Hperm : ms ≡ₚ items.*1) by apply Permutation_swap.
  split; [exact Hp|]. split; [exact Hperm|].
  apply (resolveMentions_any_order example_env (js "hi ") items ms Hp Hperm);
    [discriminate | vm_compute; reflexivity].
Defined.
(** ** The line reader *)

Lemma split_nl_nonempty s : split_nl s ≠ [].
Proof.
  destruct s as [|d s]; cbn [split_nl]; [discriminate|].
  destruct (N.eqb d 10); [discriminate|]. destruct (split_nl s); discriminate.
Qed.

Lemma split_nl_cons d s :
  split_nl (d :: s)
  = if N.eqb d 10 then [] :: split_nl s
    else (d :: default [] (head (split_nl s))) :: tail (split_nl s).
Proof.
  cbn [split_nl]. destruct (N.eqb d 10); [reflexivity|].
  pose proof (split_nl_nonempty s). destruct (split_nl s); [contradiction | reflexivity].
Qed.

(** What [pop] leaves in the buffer: the text after the last line feed. *)
Lemma split_nl_last s :
  ∃ l, last (split_nl s) = Some l ∧ Forall (λ d, d ≠ 10%N) l ∧ length l ≤ length s.
Proof.
  induction s as [|d s (l & Hl & Hfree & Hlen)].
  - exists []. repeat split; [constructor | reflexivity].
  - rewrite split_nl_cons. pose proof (split_nl_nonempty s) as Hne.
    destruct (N.eqb d 10) eqn:E.
    + exists l. split; [|split; [exact Hfree | simpl; lia]].
      destruct (split_nl s); [contradiction | exact Hl].
    + apply N.eqb_neq in E. destruct (split_nl s) as [|x [|y ls]]; [contradiction| |].
      * cbn in Hl. injection Hl as ->. exists (d :: l). cbn.
        split; [reflexivity|]. split; [constructor; assumption | lia].
      * exists l. split; [exact Hl|]. split; [exact Hfree | simpl; lia].
Qed.

Lemma slice_from_tail_length (s : jsstring) (m : Z) :
  (0 < m)%Z → (Z.of_nat (length (slice_from s (- m))) ≤ m)%Z.
Proof.
  intros Hm. unfold slice_from, slice, rel_index.
  rewrite length_take, length_drop.
  destruct (- m <? 0)%Z eqn:E1; destruct (Z.of_nat (length s) <? 0)%Z eqn:E2;
    rewrite ?Z.ltb_lt, ?Z.ltb_ge in E1, E2; lia.
Qed.

Lemma onStdoutData_buffer parse env chunk bst :
  Forall (λ d, d ≠ 10%N) (fst (onStdoutData parse env chunk bst))
  ∧ (Z.of_nat (length (fst (onStdoutData parse env chunk bst))) ≤ MAX_STDOUT_BUFFER)%Z.
Proof.
  unfold onStdoutData. cbn [fst].
  match goal with |- context [split_nl ?s] => set (buf := s) end.
  assert (Hbuf : (Z.of_nat (length buf) ≤ MAX_STDOUT_BUFFER)%Z).
  { subst buf. destruct (MAX_STDOUT_BUFFER <? _)%Z eqn:E.
    - apply slice_from_tail_length. unfold MAX_STDOUT_BUFFER. lia.
    - apply Z.ltb_ge in E. exact E. }
  destruct (split_nl_last buf) as (l & -> & Hfree & Hlen).
  assert (Hor : or_default (Some l) [] = l) by (destruct l; reflexivity).
  rewrite Hor. split; [exact Hfree | lia].
Qed.

(** X22: in every state the channel can reach, the buffer of the reader
    holds an incomplete line only: it contains no line feed and is at most
    one million code units long. *)
Theorem stdoutBuffer_bounded parse jtrue env acts :
  let buffer := stdoutBuffer (wrun parse jtrue env acts new_world) in
  Forall (λ d, d ≠ 10%N) buffer
  ∧ (Z.of_nat (length buffer) ≤ MAX_STDOUT_BUFFER)%Z.
Proof.
  cbv zeta. unfold wrun.
  apply (FormattingFacts.foldl_preserves
           (λ w, Forall (λ d, d ≠ 10%N) (stdoutBuffer w)
                 ∧ (Z.of_nat (length (stdoutBuffer w)) ≤ MAX_STDOUT_BUFFER)%Z)).
  - intros w a H. destruct a as [ev|chunk|jid isTyping|h|h|msg| | | |result|method params];
      try exact H.
    + destruct ev; try exact H. split; [constructor | unfold MAX_STDOUT_BUFFER; simpl; lia].
    + apply onStdoutData_buffer.
  - split; [constructor | unfold MAX_STDOUT_BUFFER; simpl; lia].
Qed.

Lemma split_nl_app a c :
  split_nl (a ++ c)
  = removelast (split_nl a) ++ split_nl (default [] (last (split_nl a)) ++ c).
Proof.
  induction a as [|d a IH]; [reflexivity|].
  pose proof (split_nl_nonempty a) as Hne.
  cbn [app]. rewrite !split_nl_cons, IH. destruct (N.eqb d 10) eqn:E.
  - destruct (split_nl a) as [|x ls]; [contradiction|]. reflexivity.
  - destruct (split_nl a) as [|x [|y ls]]; [contradiction| |].
    + cbn [removelast last default from_option head tail app]. unfold id. cbn [app].
      rewrite split_nl_cons, E. reflexivity.
    + cbn [removelast last default from_option head tail app]. reflexivity.
Qed.

Lemma last_app_nonempty {A} (l1 l2 : list A) : l2 ≠ [] → last (l1 ++ l2) = last l2.
Proof.
  intros H. destruct l2 as [|x l2] using rev_ind; [contradiction|].
  rewrite app_assoc, !last_snoc. reflexivity.
Qed.

Lemma onStdoutData_lines parse env chunk buffer st :
  onStdoutData parse env chunk (buffer, st)
  = (snd (stdoutLines chunk buffer),
     foldl (handleLine parse env) st (fst (stdoutLines chunk buffer))).
Proof. reflexivity. Qed.

(** X23: the lines the reader goes through do not depend on where the
    decoded text of the output is cut. When two consecutive chunks decode to
    [c1] and [c2] and the buffer stays under its cap, the complete lines
    gone through for [c1] and then for [c2] are, in this order, the ones gone
    through for one chunk that decodes to [c1 ++ c2], and the buffer left is
    the same. *)
Theorem stdout_chunking c1 c2 buffer :
  (Z.of_nat (length (buffer ++ c1 ++ c2)) ≤ MAX_STDOUT_BUFFER)%Z →
  stdoutLines (c1 ++ c2) buffer
  = (fst (stdoutLines c1 buffer)
     ++ fst (stdoutLines c2 (snd (stdoutLines c1 buffer))),
     snd (stdoutLines c2 (snd (stdoutLines c1 buffer)))).
Proof.
  intros Hcap. rewrite !length_app in Hcap. unfold stdoutLines. cbn [fst snd].
  destruct (split_nl_last (buffer ++ c1)) as (l & Hl & _ & Hlen).
  rewrite length_app in Hlen.
  assert (H1 : (MAX_STDOUT_BUFFER <? Z.of_nat (length (buffer ++ c1)))%Z = false)
    by (apply Z.ltb_ge; rewrite length_app; lia).
  assert (H3 : (MAX_STDOUT_BUFFER <? Z.of_nat (length (buffer ++ c1 ++ c2)))%Z = false)
    by (apply Z.ltb_ge; rewrite !length_app; lia).
  rewrite H1, H3, Hl.
  assert (Hor : or_default (Some l) [] = l) by (destruct l; reflexivity).
  rewrite Hor.
  assert (H2 : (MAX_STDOUT_BUFFER <? Z.of_nat (length (l ++ c2)))%Z = false)
    by (apply Z.ltb_ge; rewrite length_app; lia).
  rewrite H2.
  rewrite (app_assoc buffer c1 c2), (split_nl_app (buffer ++ c1) c2), Hl.
  cbn [default].
  rewrite last_app_nonempty by apply split_nl_nonempty.
  rewrite removelast_app by apply split_nl_nonempty.
  reflexivity.
Qed.

Lemma stdout_chunking_witness :
  (Z.of_nat (length (js "{a" ++ (js "}" ++ [10%N] ++ js "{b") ++ (js "}" ++ [10%N] ++ js "{c")))
   ≤ MAX_STDOUT_BUFFER)%Z
  ∧ stdoutLines (js "}" ++ [10%N] ++ js "{b") (js "{a") = ([js "{a}"], js "{b")
  ∧ stdoutLines (js "}" ++ [10%N] ++ js "{c") (js "{b") = ([js "{b}"], js "{c")
  ∧ stdoutLines ((js "}" ++ [10%N] ++ js "{b") ++ (js "}" ++ [10%N] ++ js "{c")) (js "{a")
    = (fst (stdoutLines (js "}" ++ [10%N] ++ js "{b") (js "{a"))
       ++ fst (stdoutLines (js "}" ++ [10%N] ++ js "{c")
                 (snd (stdoutLines (js "}" ++ [10%N] ++ js "{b") (js "{a")))),
       snd (stdoutLines (js "}" ++ [10%N] ++ js "{c")
              (snd (stdoutLines (js "}" ++ [10%N] ++ js "{b") (js "{a"))))).
Proof.
  assert (H : (Z.of_nat (length (js "{a" ++ (js "}" ++ [10%N] ++ js "{b")
                                 ++ (js "}" ++ [10%N] ++ js "{c")))
               ≤ MAX_STDOUT_BUFFER)%Z)
    by (unfold MAX_STDOUT_BUFFER; simpl; lia).
  split; [exact H|]. split; [vm_compute; reflexivity|]. split; [vm_compute; reflexivity|].
  apply (stdout_chunking (js "}" ++ [10%N] ++ js "{b") (js "}" ++ [10%N] ++ js "{c")
           (js "{a") H).
Defined.

(** ** Complete lines *)

Lemma split_nl_line l rest :
  Forall (λ d, d ≠ 10%N) l → split_nl (l ++ 10%N :: rest) = l :: split_nl rest.
Proof.
  induction 1 as [|d l Hd _ IH]; [reflexivity|].
  cbn [app]. rewrite split_nl_cons, IH.
  apply N.eqb_neq in Hd. rewrite Hd. reflexivity.
Qed.

Lemma split_nl_free l : Forall (λ d, d ≠ 10%N) l → split_nl l = [l].
Proof.
  induction 1 as [|d l Hd _ IH]; [reflexivity|].
  rewrite split_nl_cons, IH. apply N.eqb_neq in Hd. rewrite Hd. reflexivity.
Qed.

Lemma split_nl_join ls :
  Forall (Forall (λ d, d ≠ 10%N)) ls → ls ≠ [] → split_nl (join newline ls) = ls.
Proof.
  induction 1 as [|l ls Hl Hls IH]; intros Hne; [contradiction|].
  destruct ls as [|l' ls]; [exact (split_nl_free l Hl)|].
  change (join newline (l :: l' :: ls)) with (l ++ 10%N :: join newline (l' :: ls)).
  rewrite (split_nl_line l _ Hl), IH by discriminate. reflexivity.
Qed.

(** X24: the reader splits what the subprocess writes back into the lines
    it was joined from: complete lines are handled one by one in order, and
    the text after the last line feed stays in the buffer for the next
    chunk. *)
Theorem stdout_lines_round_trip parse env lines rest st :
  Forall (Forall (λ d, d ≠ 10%N)) lines →
  Forall (λ d, d ≠ 10%N) rest →
  (Z.of_nat (length (join newline (lines ++ [rest]))) ≤ MAX_STDOUT_BUFFER)%Z →
  onStdoutData parse env (join newline (lines ++ [rest])) ([], st)
  = (rest, foldl (handleLine parse env) st lines).
Proof.
  intros Hlines Hrest Hcap. unfold onStdoutData. cbn [fst snd app].
  assert (H : (MAX_STDOUT_BUFFER <? Z.of_nat (length (join newline (lines ++ [rest]))))%Z
              = false) by (apply Z.ltb_ge; exact Hcap).
  rewrite H, split_nl_join.
  - rewrite last_snoc, removelast_last.
    assert (Hor : or_default (Some rest) [] = rest) by (destruct rest; reflexivity).
    rewrite Hor. reflexivity.
  - apply Forall_app. split; [exact Hlines | constructor; [exact Hrest | constructor]].
  - destruct lines; discriminate.
Qed.

Lemma stdout_lines_round_trip_witness :
  let st := snd (rpcCall (js "version") [] example_live) in
  let parse := λ s : list N,
    if bool_decide (s = js "{1}") then Some (okResponse (js "rpc-1")) else None in
  let r := onStdoutData parse example_env
             (join newline ([js "INFO ready"; js " {1} "] ++ [js "{2"])) ([], st) in
  fst r = js "{2" ∧ pendingRpc st ≠ ∅ ∧ pendingRpc (snd r) = ∅.
Proof.
  intros st parse r.
  assert (H : r = (js "{2", foldl (handleLine parse example_env) st
                              [js "INFO ready"; js " {1} "])).
  { apply (stdout_lines_round_trip parse example_env
             [js "INFO ready"; js " {1} "] (js "{2") st).
    - repeat constructor; discriminate.
    - repeat constructor; discriminate.
    - unfold MAX_STDOUT_BUFFER. vm_compute. discriminate. }
  rewrite H. split; [reflexivity|]. split.
  - intros E. apply (f_equal size) in E. vm_compute in E. discriminate.
  - vm_compute. reflexivity.
Defined.

(** ** A message is not lost by [sendMessage] *)

Lemma enqueue_last item st : last (outgoingQueue (enqueue item st)) = Some item.
Proof. rewrite enqueue_outgoingQueue. apply last_snoc. Qed.

(** X25: the message handed to [sendMessage] is never lost there. While the
    channel is disconnected it is put at the end of the queue; otherwise it
    is written to the subprocess as one send request, and whenever that send
    is rejected, at once or later, the message is put at the end of the
    queue. *)
Theorem sendMessage_never_loses jid text atts st :
  let item := mkQueued jid text atts in
  let r := sendMessage jid text atts st in
  (∀ st', last (outgoingQueue (sendMessage_catch jid text atts st')) = Some item)
  ∧ match fst r with
    | None =>
        connected st = false
        ∧ last (outgoingQueue (snd r)) = Some item ∧ proc (snd r) = proc st
    | Some (Pending id) =>
        connected st = true
        ∧ written <$> proc (snd r)
          = (λ p, written p ++ [mkRequest (js "send") id (sendParams item)]) <$> proc st
    | Some (Rejected _) =>
        connected st = true ∧ proc (snd r) = proc st
    end.
Proof.
  intros item r. split; [intros st'; apply enqueue_last|].
  subst r. unfold sendMessage. destruct (connected st); cbn [negb fst snd].
  2:{ split; [reflexivity|]. split; [apply enqueue_last|].
      unfold enqueue. destruct (_ <=? _); reflexivity. }
  rewrite rpcSend_sendParams. fold item.
  unfold rpcCall. destruct (_ <=? _); [cbn; split; reflexivity|].
  unfold set_pendingRpc, set_rpcIdCounter, set_proc. cbn [proc].
  destruct (proc st) as [p|]; [destruct (writable p)|]; cbn; split; reflexivity.
Qed.
(** ** Typing timers *)

(** Removing a pair from a table and its handle from the live timers. *)
Lemma paired_delete (table : gmap (list N) nat) (live : gmap nat (list N)) jid h :
  (∀ h jid, live !! h = Some jid ↔ table !! jid = Some h) →
  table !! jid = Some h →
  ∀ h' jid', delete h live !! h' = Some jid' ↔ delete jid table !! jid' = Some h'.
Proof.
  intros Hbij Hj h' jid'. rewrite !lookup_delete_Some, Hbij. split.
  - intros [Hne Hl]. split; [|exact Hl]. intros <-. rewrite Hj in Hl. congruence.
  - intros [Hne Hl]. split; [|exact Hl]. intros <-.
    apply Hbij in Hj. apply Hbij in Hl. congruence.
Qed.

Lemma paired_insert (table : gmap (list N) nat) (live : gmap nat (list N)) jid h :
  (∀ h jid, live !! h = Some jid ↔ table !! jid = Some h) →
  table !! jid = None → live !! h = None →
  ∀ h' jid', <[h := jid]> live !! h' = Some jid' ↔ <[jid := h]> table !! jid' = Some h'.
Proof.
  intros Hbij Hj Hh h' jid'. rewrite !lookup_insert_Some, Hbij. split.
  - intros [[<- <-] | [Hne Hl]]; [left; split; reflexivity|].
    right. split; [|exact Hl]. intros <-. congruence.
  - intros [[<- <-] | [Hne Hl]]; [left; split; reflexivity|].
    right. split; [|exact Hl]. intros <-. apply Hbij in Hl. congruence.
Qed.

Lemma clearTyping_ok jid t :
  typing_ok t →
  typing_ok (clearTyping jid t)
  ∧ typingIntervals (clearTyping jid t) !! jid = None
  ∧ typingTimeouts (clearTyping jid t) !! jid = None
  ∧ nextTimer (clearTyping jid t) = nextTimer t.
Proof.
  intros (Hi & Ht & Hit & Hn). unfold clearTyping, typing_ok.
  destruct (typingIntervals t !! jid) as [hi|] eqn:Ei;
    cbn [typingTimeouts typingIntervals liveIntervals liveTimeouts nextTimer];
    destruct (typingTimeouts t !! jid) as [ht|] eqn:Et;
    cbn [typingTimeouts typingIntervals liveIntervals liveTimeouts nextTimer].
  - split; [|rewrite !lookup_delete_eq; repeat split]. split; [|split; [|split]].
    + apply paired_delete; assumption.
    + apply paired_delete; assumption.
    + intros j [h Hj]. apply lookup_delete_Some in Hj as [Hne Hj].
      destruct (Hit j) as [h' Hh']; [eauto|]. exists h'.
      apply lookup_delete_Some. split; assumption.
    + intros h [[j Hj] | [j Hj]]; apply lookup_delete_Some in Hj as [_ Hj];
        apply Hn; eauto.
  - destruct (Hit jid) as [h Hh]; [eauto|]. congruence.
  - split; [|rewrite ?lookup_delete_eq; repeat split; assumption].
    split; [exact Hi|]. split; [|split].
    + apply paired_delete; assumption.
    + intros j [h Hj]. destruct (Hit j) as [h' Hh']; [eauto|]. exists h'.
      apply lookup_delete_Some. split; [congruence | assumption].
    + intros h [[j Hj] | [j Hj]]; [|apply lookup_delete_Some in Hj as [_ Hj]];
        apply Hn; eauto.
  - split; [|repeat split; assumption]. split; [exact Hi|]. split; [exact Ht|].
    split; [exact Hit | exact Hn].
Qed.

Lemma setTyping_ok jtrue jid isTyping ts :
  typing_ok (fst ts) → typing_ok (fst (setTyping jtrue jid isTyping ts)).
Proof.
  intros Hok. destruct (clearTyping_ok jid _ Hok) as (Hc & Hci & Hct & Hcn).
  unfold setTyping. destruct (negb (connected (snd ts))); [exact Hc|].
  destruct (negb isTyping); [exact Hc|]. cbn [fst].
  destruct Hc as (Hi & Ht & Hit & Hn).
  set (t := clearTyping jid (fst ts)) in *.
  assert (Hfi : liveIntervals t !! nextTimer t = None).
  { destruct (liveIntervals t !! nextTimer t) eqn:E; [|reflexivity].
    pose proof (Hn (nextTimer t) (or_introl (mk_is_Some _ _ E))). lia. }
  assert (Hft : liveTimeouts t !! S (nextTimer t) = None).
  { destruct (liveTimeouts t !! S (nextTimer t)) eqn:E; [|reflexivity].
    pose proof (Hn (S (nextTimer t)) (or_intror (mk_is_Some _ _ E))). lia. }
  unfold typing_ok.
  cbn [typingTimeouts typingIntervals liveIntervals liveTimeouts nextTimer].
  split; [|split; [|split]].
  - apply paired_insert; assumption.
  - apply paired_insert; assumption.
  - intros j [h Hj]. apply lookup_insert_Some in Hj as [[<- <-] | [Hne Hj]].
    + exists (S (nextTimer t)). apply lookup_insert_eq.
    + destruct (Hit j) as [h' Hh']; [eauto|]. exists h'.
      rewrite lookup_insert_ne by exact Hne. exact Hh'.
  - intros h [[j Hj] | [j Hj]]; apply lookup_insert_Some in Hj as [[<- <-] | [Hne Hj]];
      try lia.
    + pose proof (Hn h (or_introl (mk_is_Some _ _ Hj))). lia.
    + pose proof (Hn h (or_intror (mk_is_Some _ _ Hj))). lia.
Qed.

(** When the safety timeout of a chat fires, its timers are gone. *)
Lemma typingCeiling_ok h ts :
  typing_ok (fst ts) →
  typing_ok (fst (typingCeiling h ts))
  ∧ ∀ jid, liveTimeouts (fst ts) !! h = Some jid →
           typingIntervals (fst (typingCeiling h ts)) !! jid = None
           ∧ typingTimeouts (fst (typingCeiling h ts)) !! jid = None.
Proof.
  intros (Hi & Ht & Hit & Hn). unfold typingCeiling.
  destruct (liveTimeouts (fst ts) !! h) as [jid|] eqn:El;
    [|split; [exact (conj Hi (conj Ht (conj Hit Hn))) | discriminate]].
  assert (Htt : typingTimeouts (fst ts) !! jid = Some h) by (apply Ht; exact El).
  destruct (typingIntervals (fst ts) !! jid) as [i|] eqn:Ei; cbn [fst];
    (split; [|intros j [= <-];
              cbn [typingIntervals typingTimeouts]; rewrite ?lookup_delete_eq;
              split; (reflexivity || assumption)]).
  - unfold typing_ok.
    cbn [typingTimeouts typingIntervals liveIntervals liveTimeouts nextTimer].
    split; [|split; [|split]].
    + apply paired_delete; assumption.
    + apply paired_delete; assumption.
    + intros j [x Hj]. apply lookup_delete_Some in Hj as [Hne Hj].
      destruct (Hit j) as [h' Hh']; [eauto|]. exists h'.
      apply lookup_delete_Some. split; assumption.
    + intros x [[j Hj] | [j Hj]]; apply lookup_delete_Some in Hj as [_ Hj];
        apply Hn; eauto.
  - unfold typing_ok.
    cbn [typingTimeouts typingIntervals liveIntervals liveTimeouts nextTimer].
    split; [|split; [|split]].
    + exact Hi.
    + apply paired_delete; assumption.
    + intros j [x Hj]. destruct (Hit j) as [h' Hh']; [eauto|]. exists h'.
      apply lookup_delete_Some. split; [congruence | assumption].
    + intros x [[j Hj] | [j Hj]]; [|apply lookup_delete_Some in Hj as [_ Hj]];
        apply Hn; eauto.
Qed.

Lemma clearAllTyping_empty t :
  typing_ok t →
  liveIntervals (clearAllTyping t) = ∅ ∧ liveTimeouts (clearAllTyping t) = ∅.
Proof.
  intros (Hi & Ht & _). unfold clearAllTyping.
  cbn [liveIntervals liveTimeouts]. split; apply map_empty; intros h;
    apply map_lookup_filter_None; right; intros jid Hl Hnot; apply Hnot;
    cbn [fst]; apply elem_of_map_img; exists jid; [apply Hi | apply Ht]; exact Hl.
Qed.

Lemma clearAllTyping_ok t : typing_ok t → typing_ok (clearAllTyping t).
Proof.
  intros Hok. destruct (clearAllTyping_empty t Hok) as [Ei Et].
  split; [|split; [|split]].
  - intros h jid. rewrite Ei. unfold clearAllTyping. cbn [typingIntervals].
    rewrite !lookup_empty. split; discriminate.
  - intros h jid. rewrite Et. unfold clearAllTyping. cbn [typingTimeouts].
    rewrite !lookup_empty. split; discriminate.
  - intros jid [h Hh]. unfold clearAllTyping in Hh. cbn [typingIntervals] in Hh.
    rewrite lookup_empty in Hh. discriminate.
  - intros h. rewrite Ei, Et, !lookup_empty. intros [[x Hx] | [x Hx]]; discriminate.
Qed.

Lemma wstep_typing_ok parse jtrue env w a :
  typing_ok (typing w) → typing_ok (typing (wstep parse jtrue env w a)).
Proof.
  intros Hok. destruct a as [ev|chunk|jid isTyping|h|h|msg| | | |result|method params];
    try exact Hok.
  - destruct ev; try exact Hok. apply clearAllTyping_ok, Hok.
  - exact (setTyping_ok jtrue jid isTyping (typing w, chan w) Hok).
  - unfold wstep, typingTick. cbn [typing fst]. destruct (_ !! _); exact Hok.
  - exact (proj1 (typingCeiling_ok h (typing w, chan w) Hok)).
Qed.

Lemma typing_ok_reachable parse jtrue env acts :
  typing_ok (typing (wrun parse jtrue env acts new_world)).
Proof.
  unfold wrun.
  apply (FormattingFacts.foldl_preserves (λ w, typing_ok (typing w))).
  - intros w a. apply wstep_typing_ok.
  - unfold typing_ok, new_world, no_typing.
    cbn [typing typingTimeouts typingIntervals liveIntervals liveTimeouts nextTimer].
    split; [|split; [|split]].
    + intros h jid. rewrite !lookup_empty. split; discriminate.
    + intros h jid. rewrite !lookup_empty. split; discriminate.
    + intros jid [h Hh]. rewrite lookup_empty in Hh. discriminate.
    + intros h [[x Hx] | [x Hx]]; rewrite lookup_empty in Hx; discriminate.
Qed.

(** X18: no timer leaks. In every state the channel can reach, the resend
    intervals and safety timeouts that are live are exactly the ones the two
    tables of the channel hold, so each chat has at most one of each, and a
    chat with a resend interval has a safety timeout that will end it. *)
Theorem typing_timers_accounted parse jtrue env acts :
  let t := typing (wrun parse jtrue env acts new_world) in
  (∀ h jid, liveIntervals t !! h = Some jid ↔ typingIntervals t !! jid = Some h)
  ∧ (∀ h jid, liveTimeouts t !! h = Some jid ↔ typingTimeouts t !! jid = Some h)
  ∧ (∀ jid, is_Some (typingIntervals t !! jid) → is_Some (typingTimeouts t !! jid)).
Proof.
  destruct (typing_ok_reachable parse jtrue env acts) as (Hi & Ht & Hit & _).
  repeat split; try apply Hi; try apply Ht. exact Hit.
Qed.

(** X19: the typing indicator of a chat stops being refreshed. In a
    reachable state, setting typing off for a chat, setting it at all while
    the channel is disconnected, or the firing of its safety timeout leaves
    no live resend interval for that chat, and a disconnect leaves no live
    timer at all. *)
Theorem typing_stops parse jtrue env acts :
  let w := wrun parse jtrue env acts new_world in
  (∀ jid isTyping h,
     isTyping && connected (chan w) = false →
     liveIntervals (typing (wstep parse jtrue env w (SetTyping jid isTyping))) !! h
     ≠ Some jid)
  ∧ (∀ jid h h',
       liveTimeouts (typing w) !! h = Some jid →
       liveIntervals (typing (wstep parse jtrue env w (TypingCeiling h))) !! h'
       ≠ Some jid)
  ∧ liveIntervals (typing (wstep parse jtrue env w (Act Disconnect))) = ∅
  ∧ liveTimeouts (typing (wstep parse jtrue env w (Act Disconnect))) = ∅.
Proof.
  intros w. pose proof (typing_ok_reachable parse jtrue env acts) as Hok. fold w in Hok.
  split; [|split].
  - intros jid isTyping h Hoff.
    destruct (clearTyping_ok jid _ Hok) as ((Hi & _) & Hci & _).
    cbn [wstep typing]. unfold setTyping. cbn [fst snd].
    assert (Hclear : liveIntervals (clearTyping jid (typing w)) !! h ≠ Some jid).
    { intros Hl. apply Hi in Hl. congruence. }
    destruct (connected (chan w)); cbn [negb]; [|exact Hclear].
    destruct isTyping; [discriminate | exact Hclear].
  - intros jid h h' Hl.
    destruct (typingCeiling_ok h (typing w, chan w) Hok) as ((Hi & _) & Hgone).
    destruct (Hgone jid Hl) as [Hnone _].
    cbn [wstep typing]. intros Hl'. apply Hi in Hl'. congruence.
  - exact (clearAllTyping_empty _ Hok).
Qed.
Lemma typing_stops_witness :
  let jid := js "signal:+15551111" in
  let parse := λ _ : list N, @None RpcMessage in
  let w := wrun parse (JStr (js "true")) example_env
             [Act Spawn; Act Healthy; SetTyping jid true] new_world in
  liveIntervals (typing w) !! 0 = Some jid
  ∧ liveTimeouts (typing w) !! 1 = Some jid
  ∧ liveIntervals (typing (wstep parse (JStr (js "true")) example_env w
                             (SetTyping jid false))) !! 0 ≠ Some jid
  ∧ liveIntervals (typing (wstep parse (JStr (js "true")) example_env w
                             (TypingCeiling 1))) !! 0 ≠ Some jid.
Proof.
  intros jid parse w.
  destruct (typing_stops parse (JStr (js "true")) example_env
              [Act Spawn; Act Healthy; SetTyping jid true]) as (Hoff & Hceiling & _).
  assert (Ht : liveTimeouts (typing w) !! 1 = Some jid) by (vm_compute; reflexivity).
  split; [vm_compute; reflexivity|]. split; [exact Ht|].
  split; [exact (Hoff jid false 0 eq_refl) | exact (Hceiling jid 1 0 Ht)].
Defined.
(** ** The cache of group metadata *)

Lemma storeGroup_other env groupMetadata group jid :
  (∀ id, truthy_str (rg_id group) = Some id → jid ≠ js "signal:" ++ id) →
  storeGroup env groupMetadata group !! jid = groupMetadata !! jid.
Proof.
  intros Hne. unfold storeGroup.
  destruct (truthy_str (rg_id group)) as [id|]; [|reflexivity].
  apply lookup_insert_ne. intros E. exact (Hne id eq_refl (eq_sym E)).
Qed.

Lemma fetchGroupMetadata_other env groups : ∀ groupMetadata jid,
  (∀ g id, g ∈ groups → truthy_str (rg_id g) = Some id → jid ≠ js "signal:" ++ id) →
  foldl (storeGroup env) groupMetadata groups !! jid = groupMetadata !! jid.
Proof.
  induction groups as [|g groups IH]; intros groupMetadata jid Hne; [reflexivity|].
  cbn [foldl]. rewrite IH.
  - apply storeGroup_other. intros id. apply Hne, list_elem_of_here.
  - intros g' id Hg'. apply Hne, list_elem_of_further, Hg'.
Qed.

(** X20: after the list of groups has arrived, the metadata of a listed
    group is found under its chat identity: the record holds the id, the
    name and the description of the group (empty when absent) and its
    members and admins, each resolved to a number, a known name or a UUID.
    When a group is listed more than once the last entry counts. *)
Theorem fetchGroupMetadata_lookup env before groups1 group groups2 id :
  rg_id group = Some id → id ≠ [] →
  (∀ g, g ∈ groups2 → truthy_str (rg_id g) ≠ Some id) →
  getGroupMetadata
    (fetchGroupMetadata env (Some (groups1 ++ group :: groups2)) before)
    (js "signal:" ++ id)
  = Some (mkSignalGroupMetadata id
            (or_default (rg_name group) [])
            (or_default (rg_description group) [])
            (default [] (map (resolveMember env) <$> rg_members group))
            (default [] (map (resolveMember env) <$> rg_admins group))).
Proof.
  intros Hid Hne Hlast. unfold getGroupMetadata, fetchGroupMetadata.
  rewrite foldl_app. cbn [foldl].
  rewrite fetchGroupMetadata_other.
  - unfold storeGroup. rewrite Hid. destruct id as [|d id]; [contradiction|].
    cbn [truthy_str truthy]. apply lookup_insert_eq.
  - intros g id' Hg Hid' E. apply app_inv_head in E. subst id'.
    exact (Hlast g Hg Hid').
Qed.

Lemma fetchGroupMetadata_lookup_witness :
  let family := mkRawGroup (Some (js "grp1")) (Some (js "Family")) None
                  (Some [mkRawMember (Some (js "+15551111")) None;
                         mkRawMember None (Some (js "uuid-2"))])
                  None in
  let stale := mkRawGroup (Some (js "grp1")) (Some (js "Old name")) None None None in
  getGroupMetadata
    (fetchGroupMetadata example_env (Some ([stale] ++ family :: [])) ∅)
    (js "signal:grp1")
  = Some (mkSignalGroupMetadata (js "grp1") (js "Family") []
            [js "+15551111"; js "uuid-2"] []).
Proof.
  intros family stale.
  apply (fetchGroupMetadata_lookup example_env ∅ [stale] family [] (js "grp1"));
    [reflexivity | discriminate | intros g Hg; inversion Hg].
Defined.

(** X21: the cache is merged, never replaced: whatever the answer to the
    list request is, an entry that was cached stays cached, and the entry of
    a chat the answer does not list is left as it was. *)
Theorem fetchGroupMetadata_keeps env result before jid :
  (is_Some (getGroupMetadata before jid) →
   is_Some (getGroupMetadata (fetchGroupMetadata env result before) jid))
  ∧ ((∀ groups g id, result = Some groups → g ∈ groups →
        truthy_str (rg_id g) = Some id → jid ≠ js "signal:" ++ id) →
     getGroupMetadata (fetchGroupMetadata env result before) jid
     = getGroupMetadata before jid).
Proof.
  unfold getGroupMetadata, fetchGroupMetadata. split.
  - destruct result as [groups|]; [|auto].
    revert before. induction groups as [|g groups IH]; intros before H; [exact H|].
    cbn [foldl]. apply IH. unfold storeGroup.
    destruct (truthy_str (rg_id g)) as [id|]; [|exact H].
    destruct (decide (js "signal:" ++ id = jid)) as [<- | Hne].
    + rewrite lookup_insert_eq. eauto.
    + rewrite lookup_insert_ne by exact Hne. exact H.
  - intros Hne. destruct result as [groups|]; [|reflexivity].
    apply fetchGroupMetadata_other. intros g id Hg Hid. exact (Hne groups g id eq_refl Hg Hid).
Qed.
Lemma fetchGroupMetadata_keeps_witness :
  let old := mkSignalGroupMetadata (js "old") (js "Old group") [] [] [] in
  let before : gmap (list N) SignalGroupMetadata := {[js "signal:old" := old]} in
  let result := Some [mkRawGroup (Some (js "grp1")) (Some (js "Family")) None None None] in
  is_Some (getGroupMetadata before (js "signal:old"))
  ∧ getGroupMetadata (fetchGroupMetadata example_env result before) (js "signal:old")
    = Some old
  ∧ is_Some (getGroupMetadata (fetchGroupMetadata example_env result before)
               (js "signal:grp1")).
Proof.
  intros old before result.
  destruct (fetchGroupMetadata_keeps example_env result before (js "signal:old"))
    as [_ Hsame].
  split; [exists old; apply lookup_singleton_eq|].
  split; [|vm_compute; eauto].
  rewrite Hsame; [apply lookup_singleton_eq|].
  intros groups g id [= <-] Hg Hid.
  apply list_elem_of_singleton in Hg. subst g. injection Hid as <-. discriminate.
Defined.

End SignalFacts.
